(** * Clarity AI: the intent-clustering engine and its lifecycle callers

    A shallow embedding of [shared/grouping.js] (tokenizer, sparse
    vectors, cosine, centroid update, divergence, the greedy assignment
    [clusterTabs], [topDivergence]) and of the parts of
    [background/service-worker.js] that persist, restore and validate
    cluster sets ([persistState], [loadState], [aiClusterTabsWithTitles]),
    that keep the extraction cache, that handle the tab events, that
    label, summarise and colour groups, and that run the grouping
    pipeline ([recluster], the heuristic path of [regroupTabsByIntent]).

    Conventions.
    - A JavaScript number is a member of a type [F] carrying the
      operations the code uses (class [Number]).  Two instances are given.
      [float] is binary64, the arithmetic the engine runs on: the code
      is evaluated at it, and what is said of scores, of the cosine and
      of the divergence is proved at it, from the specification of the
      IEEE operations ([SpecFloat]).  [R], the exact reals, stands for
      the weights where a statement is about the value a formula
      denotes (the centroid update, the term frequencies); rounding,
      [NaN] and overflow do not exist there, so nothing proved at [R]
      is read as a fact about rounded results.
    - A JavaScript [Map] is an association list in insertion order:
      [set] on a present key overwrites in place, on a new key appends.
    - Strings are byte strings; the character classes of the regular
      expressions are the ASCII ones.
    - [Math.random] and [Date.now] are inputs: [rnd i] is the suffix drawn
      at the [i]-th call of [groupIdFrom], [now] the time stamp of a run.
    - The platform's [URL] constructor is a parameter ([URL_new]). *)

From Stdlib Require Import List String Ascii Bool Arith ZArith Lia.
From Stdlib Require Import DecimalString Sorted.
From Stdlib Require Import Permutation.
From Stdlib Require Import PrimFloat Uint63 SpecFloat FloatOps FloatAxioms.
From Stdlib Require Import Reals Lra Psatz.
Import ListNotations.

Local Open Scope string_scope.
Local Open Scope list_scope.

(* ================================================================== *)
(** ** Numbers *)

Class Number (F : Type) : Type := {
  of_nat : nat -> F;           (* an integer used as a number *)
  nadd : F -> F -> F;          (* a + b *)
  nsub : F -> F -> F;          (* a - b *)
  nmul : F -> F -> F;          (* a * b *)
  ndiv : F -> F -> F;          (* a / b *)
  nsqrt : F -> F;              (* Math.sqrt *)
  ngt : F -> F -> bool;        (* a > b *)
  truthy : F -> bool;          (* a number in a condition *)
  nmin : F -> F -> F;          (* Math.min *)
  nmax : F -> F -> F           (* Math.max *)
}.

Definition float_of_nat (n : nat) : float :=
  PrimFloat.of_uint63 (Uint63.of_Z (Z.of_nat n)).

Definition float_is_nan (x : float) : bool := negb (PrimFloat.eqb x x).

(** [0], [-0] and [NaN] are falsy. *)
Definition float_truthy (x : float) : bool :=
  negb (float_is_nan x || PrimFloat.eqb x PrimFloat.zero).

Definition float_is_neg_zero (x : float) : bool :=
  PrimFloat.eqb x PrimFloat.zero
  && PrimFloat.ltb (PrimFloat.div PrimFloat.one x) PrimFloat.zero.

Definition float_min (a b : float) : float :=
  if float_is_nan a then a else if float_is_nan b then b
  else if PrimFloat.ltb a b then a else if PrimFloat.ltb b a then b
  else if float_is_neg_zero a then a else b.

Definition float_max (a b : float) : float :=
  if float_is_nan a then a else if float_is_nan b then b
  else if PrimFloat.ltb a b then b else if PrimFloat.ltb b a then a
  else if float_is_neg_zero a then b else a.

#[export] Instance float_number : Number float := {|
  of_nat := float_of_nat;
  nadd := PrimFloat.add;
  nsub := PrimFloat.sub;
  nmul := PrimFloat.mul;
  ndiv := PrimFloat.div;
  nsqrt := PrimFloat.sqrt;
  ngt := fun a b => PrimFloat.ltb b a;
  truthy := float_truthy;
  nmin := float_min;
  nmax := float_max
|}.

Definition real_gt (a b : R) : bool := if Rlt_dec b a then true else false.
Definition real_truthy (a : R) : bool := if Req_dec_T a 0%R then false else true.

#[export] Instance real_number : Number R := {|
  of_nat := INR;
  nadd := Rplus;
  nsub := Rminus;
  nmul := Rmult;
  ndiv := Rdiv;
  nsqrt := sqrt;
  ngt := real_gt;
  truthy := real_truthy;
  nmin := Rmin;
  nmax := Rmax
|}.

(** *** Binary64 numbers in order

    A rank for every number that takes part in comparisons ([NaN] has
    none): negative infinity, the negative numbers, the two zeros, the
    positive numbers, positive infinity.  [x < y] holds exactly when
    both have a rank and the ranks are in lexicographic order
    ([SFltb_rank]). *)
Definition sf_rank (f : spec_float) : option (Z * Z * Z) :=
  match f with
  | S754_nan => None
  | S754_infinity true => Some (-2, 0, 0)%Z
  | S754_finite true m e => Some (-1, - e, - Zpos m)%Z
  | S754_zero _ => Some (0, 0, 0)%Z
  | S754_finite false m e => Some (1, e, Zpos m)%Z
  | S754_infinity false => Some (2, 0, 0)%Z
  end.

Definition lex_lt (a b : Z * Z * Z) : Prop :=
  (fst (fst a) < fst (fst b)
   \/ (fst (fst a) = fst (fst b)
       /\ (snd (fst a) < snd (fst b)
           \/ (snd (fst a) = snd (fst b) /\ snd a < snd b))))%Z.





(** What the engine needs of [>] to pick a best score: it is
    irreflexive and transitive, and two numbers that each exceed
    something are comparable. *)
Definition score_order (F : Type) {num : Number F} : Prop :=
  (forall a : F, ngt a a = false)
  /\ (forall a b c : F, ngt a b = true -> ngt b c = true -> ngt a c = true)
  /\ (forall a b c d : F,
        ngt a b = true -> ngt c d = true -> ngt a d = false -> ngt c a = true).

(* ================================================================== *)
(** ** JavaScript [Map] *)

Section JsMap.
Context {K V : Type} (eqb : K -> K -> bool).

Definition jsmap : Type := list (K * V).

(** [m.get(k)]; [None] is [undefined]. *)
Fixpoint mget (m : jsmap) (k : K) : option V :=
  match m with
  | [] => None
  | (k', v) :: rest => if eqb k' k then Some v else mget rest k
  end.

(** [m.has(k)] *)
Definition mhas (m : jsmap) (k : K) : bool :=
  match mget m k with Some _ => true | None => false end.

(** [m.set(k, v)] *)
Fixpoint mset (m : jsmap) (k : K) (v : V) : jsmap :=
  match m with
  | [] => [(k, v)]
  | (k', v') :: rest =>
      if eqb k' k then (k', v) :: rest else (k', v') :: mset rest k v
  end.

(** [m.size] *)
Definition msize (m : jsmap) : nat := List.length m.

Definition mkeys (m : jsmap) : list K := map fst m.

(** [m.values()] *)
Definition mvalues (m : jsmap) : list V := map snd m.
End JsMap.

(** A sparse vector: [Map<string, number>]. *)
Definition vec (F : Type) : Type := list (string * F).

(* ================================================================== *)
(** ** Strings *)

Definition in_range (lo hi : nat) (c : ascii) : bool :=
  let n := nat_of_ascii c in ((lo <=? n) && (n <=? hi))%nat.

Definition is_upper (c : ascii) : bool := in_range 65 90 c.
Definition is_lower (c : ascii) : bool := in_range 97 122 c.
Definition is_digit (c : ascii) : bool := in_range 48 57 c.

(** [\s]: space, tab, line feed, vertical tab, form feed, carriage return. *)
Definition is_space (c : ascii) : bool :=
  let n := nat_of_ascii c in ((n =? 32) || ((9 <=? n) && (n <=? 13)))%nat.

Definition lower_char (c : ascii) : ascii :=
  if is_upper c then ascii_of_nat (nat_of_ascii c + 32)%nat else c.

Fixpoint smap (f : ascii -> ascii) (s : string) : string :=
  match s with
  | EmptyString => EmptyString
  | String c rest => String (f c) (smap f rest)
  end.

(** [s.toLowerCase()] *)
Definition toLowerCase (s : string) : string := smap lower_char s.

Definition is_dash (c : ascii) : bool :=
  let n := nat_of_ascii c in ((n =? 95) || (n =? 45))%nat.

(** [s.replace(/[_\-]+/g, " ")]: every maximal run becomes one space. *)
Fixpoint replace_dash_runs (s : string) (inrun : bool) : string :=
  match s with
  | EmptyString => EmptyString
  | String c rest =>
      if is_dash c
      then (if inrun then replace_dash_runs rest true
            else String " " (replace_dash_runs rest true))
      else String c (replace_dash_runs rest false)
  end.

(** [s.replace(/[^a-z0-9\s]/g, " ")] *)
Definition replace_non_alnum (s : string) : string :=
  smap (fun c => if is_lower c || is_digit c || is_space c then c else " "%char) s.

(** [s.split(/\s+/)]: the pieces between maximal runs of white space,
    the empty pieces at both ends included. *)
Fixpoint split_ws (s : string) (cur : string) (insep : bool) : list string :=
  match s with
  | EmptyString => [cur]
  | String c rest =>
      if is_space c
      then (if insep then split_ws rest cur true
            else cur :: split_ws rest EmptyString true)
      else split_ws rest (cur ++ String c EmptyString) false
  end.

(** [s.split(sep)] for a one-character separator. *)
Fixpoint split_char (sep : ascii) (s : string) (cur : string) : list string :=
  match s with
  | EmptyString => [cur]
  | String c rest =>
      if Ascii.eqb c sep then cur :: split_char sep rest EmptyString
      else split_char sep rest (cur ++ String c EmptyString)
  end.

(** [xs.join(sep)] *)
Fixpoint join (sep : string) (xs : list string) : string :=
  match xs with
  | [] => EmptyString
  | [x] => x
  | x :: rest => x ++ sep ++ join sep rest
  end.

(** [xs.slice(-n)] *)
Definition lastn {A : Type} (n : nat) (xs : list A) : list A :=
  skipn (List.length xs - n) xs.

Definition STOPWORDS : list string :=
  ["the";"a";"an";"and";"or";"for";"to";"in";"of";"on";"at";"by";"with";"from";"as";"is";"are";
   "be";"was";"were";"it";"this";"that";"these";"those";"you";"your";"my";"we";"our";"they";
   "how";"what";"why";"when";"where";"which";"can";"could";"should";"would";"vs";"v";"amp"].

Definition TOKEN_MIN_LEN : nat := 2.

Definition is_stopword (t : string) : bool := existsb (String.eqb t) STOPWORDS.

Definition keep_token (t : string) : bool :=
  negb (String.eqb t EmptyString)
  && (TOKEN_MIN_LEN <=? String.length t)%nat
  && negb (is_stopword t).

Definition tokenize (text : string) : list string :=
  filter keep_token
    (split_ws (replace_non_alnum (replace_dash_runs (toLowerCase text) false))
       EmptyString false).

(** The object the platform's [URL] constructor returns, as far as the
    engine reads it. *)
Record Url : Type := { url_host : string; url_pathname : string }.

(** [/^https?:/i.test(str)] *)
Definition has_http_scheme (str : string) : bool :=
  let l := toLowerCase str in
  String.prefix "http:" l || String.prefix "https:" l.

(* ================================================================== *)
(** ** The engine ([shared/grouping.js]) *)

(** A tab as [clusterTabs] reads it.  [contextTokens] is [[]] when the
    field is absent or not an array. *)
Record Tab : Type := {
  tab_id : Z;
  tab_title : string;
  tab_url : string;
  tab_contextTokens : list string
}.

Section Engine.
Context {F : Type} {num : Number F}.
Variable URL_new : string -> option Url.   (* [None]: the constructor throws *)

Definition zero : F := of_nat 0.
Definition one : F := of_nat 1.
Definition two : F := of_nat 2.
Definition half : F := ndiv one two.                                  (* 0.5 *)

Definition DEFAULT_SIM_THRESHOLD : F := ndiv (of_nat 6) (of_nat 10).  (* 0.6 *)
Definition HOST_BONUS : F := ndiv (of_nat 8) (of_nat 100).            (* 0.08 *)
Definition NEW_GROUP_PENALTY : F := ndiv (of_nat 2) (of_nat 100).     (* 0.02 *)
Definition SQRT2 : F := nsqrt two.                                    (* Math.SQRT2 *)

(** [x || 0] for [x] a number or [undefined] *)
Definition or0 (x : option F) : F :=
  match x with
  | Some v => if truthy v then v else zero
  | None => zero
  end.

Definition sget (m : vec F) (k : string) : option F := mget String.eqb m k.
Definition shas (m : vec F) (k : string) : bool := mhas String.eqb m k.
Definition sset (m : vec F) (k : string) (v : F) : vec F := mset String.eqb m k v.

Definition vectorize (tokens : list string) : vec F :=
  let m := fold_left (fun m t => sset m t (nadd (or0 (sget m t)) one)) tokens [] in
  fold_left (fun m' kv => sset m' (fst kv) (nsqrt (snd kv))) m m.

(** The loop of [cosine] over the smaller map. *)
Definition dot_loop (smaller larger : vec F) : F :=
  fold_left
    (fun dot kv =>
       match sget larger (fst kv) with
       | Some vb => if truthy vb then nadd dot (nmul (snd kv) vb) else dot
       | None => dot
       end)
    smaller zero.

Definition norm (m : vec F) : F :=
  nsqrt (fold_left (fun s x => nadd s (nmul x x)) (mvalues m) zero).

Definition cosine (a b : vec F) : F :=
  if (msize a =? 0)%nat || (msize b =? 0)%nat then zero
  else
    let dot :=
      if (msize a <=? msize b)%nat then dot_loop a b else dot_loop b a in
    let denom := nmul (norm a) (norm b) in
    if truthy denom then ndiv dot denom else zero.

Definition mergeCentroid (centroid v : vec F) (n : nat) : vec F :=
  let out :=
    fold_left
      (fun out kv =>
         let prev := or0 (sget out (fst kv)) in
         sset out (fst kv)
           (ndiv (nadd (nmul prev (of_nat n)) (snd kv)) (nadd (of_nat n) one)))
      v centroid in
  fold_left
    (fun out' kv =>
       if shas v (fst kv) then out'
       else sset out' (fst kv)
              (ndiv (nmul (snd kv) (of_nat n)) (nadd (of_nat n) one)))
    out out.

(** A cluster; [g_size] is [stats.size]. *)
Record Group : Type := {
  g_id : string;
  g_label : string;
  g_summary : string;
  g_tabIds : list Z;
  g_centroid : vec F;
  g_size : nat;
  g_lastUpdated : Z
}.

Definition divergenceScore (g1 g2 : Group) : F :=
  let sim := cosine (g_centroid g1) (g_centroid g2) in
  let sizeFactor :=
    ndiv (nmin (of_nat (g_size g1)) (of_nat (g_size g2)))
         (nmax one (ndiv (nadd (of_nat (g_size g1)) (of_nat (g_size g2))) two)) in
  nmul (nsub one sim) (nadd half (nmul half sizeFactor)).

(** [rand] is [Math.random().toString(36).slice(2, 8)]. *)
Definition groupIdFrom (seedTokens : list string) (rand : string) : string :=
  let joined := join "-" (firstn 3 seedTokens) in
  let base := if String.eqb joined "" then "group" else joined in
  (base ++ "-" ++ rand)%string.

Definition urlFromString (str : string) : option Url :=
  if negb (String.eqb str "") && has_http_scheme str then URL_new str else None.

Definition slashes_to_spaces (s : string) : string :=
  smap (fun c => if Ascii.eqb c "/"%char then " "%char else c) s.

Definition parseUrl (url : string) : string * list string :=
  match urlFromString url with
  | None => ("", [])
  | Some u =>
      (toLowerCase (url_host u), tokenize (slashes_to_spaces (url_pathname u)))
  end.

(** [`host:${host.split(".").slice(-2).join(".")}`] *)
Definition hostToken (host : string) : string :=
  ("host:" ++ join "." (lastn 2 (split_char "."%char host "")))%string.

(** What [tabVector] returns. *)
Record FV : Type := {
  fv_vec : vec F;
  fv_host : string;
  fv_allTokens : list string
}.

Definition tabVector (t : Tab) : FV :=
  let titleTokens := tokenize (tab_title t) in
  let '(host, pathTokens) := parseUrl (tab_url t) in
  let contextScaled :=
    map (fun c => ("ctx:" ++ c)%string) (firstn 120 (tab_contextTokens t)) in
  let allTokens := titleTokens ++ pathTokens ++ contextScaled in
  let v := vectorize allTokens in
  let v' :=
    if String.eqb host "" then v
    else sset v (hostToken host) (nadd (or0 (sget v (hostToken host))) SQRT2) in
  {| fv_vec := v'; fv_host := host; fv_allTokens := allTokens |}.

(** The score of one cluster in the inner loop of [clusterTabs]. *)
Definition score (fv : FV) (g : Group) : F :=
  let s := cosine (fv_vec fv) (g_centroid g) in
  if negb (String.eqb (fv_host fv) "") && (2 <=? g_size g)%nat
  then (if shas (g_centroid g) (hostToken (fv_host fv)) then nadd s HOST_BONUS else s)
  else s.

(** The inner loop from index [i] on; [None] is [bestIdx === -1]. *)
Fixpoint scan (fv : FV) (gs : list Group) (i : nat)
              (bestIdx : option nat) (bestScore : F) : option nat * F :=
  match gs with
  | [] => (bestIdx, bestScore)
  | g :: rest =>
      if ngt (score fv g) bestScore
      then scan fv rest (S i) (Some i) (score fv g)
      else scan fv rest (S i) bestIdx bestScore
  end.

(** The state of the outer loop: the growing groups, the assignments
    and the number of ids drawn so far. *)
Record State : Type := {
  st_groups : list Group;
  st_assignments : list (Z * string);
  st_draws : nat
}.

(** [groups = prevGroups.map(...)] *)
Definition cloneGroup (now : Z) (g : Group) : Group :=
  {| g_id := g_id g; g_label := g_label g; g_summary := g_summary g;
     g_tabIds := []; g_centroid := g_centroid g;
     g_size := 0; g_lastUpdated := now |}.

(** [vecs]: tab id to [tabVector]; a repeated id keeps the last tab's. *)
Definition build_vecs (tabs : list Tab) : list (Z * FV) :=
  fold_left (fun m t => mset Z.eqb m (tab_id t) (tabVector t)) tabs [].

Definition empty_fv : FV := {| fv_vec := []; fv_host := ""; fv_allTokens := [] |}.

(** [vecs.get(t.id)]; every id of the batch is present in [vecs]
    (see [vecs_get_present]), so the default is never used. *)
Definition vecs_get (vecs : list (Z * FV)) (id : Z) : FV :=
  match mget Z.eqb vecs id with Some fv => fv | None => empty_fv end.

(** The branch that joins the tab to [groups[bestIdx]]. *)
Definition joinGroup (now : Z) (fv : FV) (id : Z) (g : Group) : Group :=
  {| g_id := g_id g; g_label := g_label g; g_summary := g_summary g;
     g_tabIds := g_tabIds g ++ [id];
     g_centroid := mergeCentroid (g_centroid g) (fv_vec fv) (g_size g);
     g_size := g_size g + 1; g_lastUpdated := now |}.

(** The branch that opens a new group. *)
Definition newGroup (now : Z) (fv : FV) (id : Z) (rand : string) : Group :=
  {| g_id := groupIdFrom (fv_allTokens fv) rand; g_label := ""; g_summary := "";
     g_tabIds := [id]; g_centroid := fv_vec fv;
     g_size := 1; g_lastUpdated := now |}.

Fixpoint update_nth {A : Type} (i : nat) (f : A -> A) (l : list A) : list A :=
  match l, i with
  | [], _ => []
  | x :: rest, O => f x :: rest
  | x :: rest, S j => x :: update_nth j f rest
  end.

(** One iteration of the outer loop. *)
Definition assignTab (threshold : F) (now : Z) (rnd : nat -> string)
           (vecs : list (Z * FV)) (st : State) (t : Tab) : State :=
  let fv := vecs_get vecs (tab_id t) in
  match fst (scan fv (st_groups st) 0 None (nsub threshold NEW_GROUP_PENALTY)) with
  | None =>
      let g := newGroup now fv (tab_id t) (rnd (st_draws st)) in
      {| st_groups := st_groups st ++ [g];
         st_assignments := mset Z.eqb (st_assignments st) (tab_id t) (g_id g);
         st_draws := S (st_draws st) |}
  | Some i =>
      match nth_error (st_groups st) i with
      | Some g =>
          {| st_groups := update_nth i (joinGroup now fv (tab_id t)) (st_groups st);
             st_assignments := mset Z.eqb (st_assignments st) (tab_id t) (g_id g);
             st_draws := st_draws st |}
      | None => st   (* not reached: [bestIdx < groups.length], see [scan_range] *)
      end
  end.

(** [xs.sort((a, b) => b.stats.size - a.stats.size)]: the sort is
    stable, so it is the insertion of each group before the first later
    group that is not larger. *)
Fixpoint insert_by_size (g : Group) (l : list Group) : list Group :=
  match l with
  | [] => [g]
  | h :: rest =>
      if (g_size g <? g_size h)%nat then h :: insert_by_size g rest
      else g :: h :: rest
  end.

Definition sort_by_size_desc (l : list Group) : list Group :=
  fold_right insert_by_size [] l.

Record Clustering : Type := {
  groups : list Group;
  assignments : list (Z * string)
}.

Definition initState (now : Z) (prevGroups : list Group) : State :=
  {| st_groups := map (cloneGroup now) prevGroups;
     st_assignments := [];
     st_draws := 0 |}.

(** The state after the outer loop has run over [tabs], the vectors
    having been precomputed from [batch]. *)
Definition runLoop (threshold : F) (now : Z) (rnd : nat -> string)
           (batch : list Tab) (prevGroups : list Group) (tabs : list Tab) : State :=
  fold_left (assignTab threshold now rnd (build_vecs batch)) tabs
            (initState now prevGroups).

Definition clusterTabs (now : Z) (rnd : nat -> string)
           (tabMetas : list Tab) (prevGroups : list Group) (threshold : F)
  : Clustering :=
  let st := runLoop threshold now rnd tabMetas prevGroups tabMetas in
  {| groups :=
       sort_by_size_desc
         (filter (fun g => (0 <? List.length (g_tabIds g))%nat) (st_groups st));
     assignments := st_assignments st |}.

(** [topDivergence]; the argument is [None] for [null] or [undefined]. *)
Definition topDivergence (gs : option (list Group)) : option (Group * Group) * F :=
  match gs with
  | Some (g1 :: g2 :: _) => (Some (g1, g2), divergenceScore g1 g2)
  | _ => (None, zero)
  end.
End Engine.

Arguments Group F : clear implicits.
Arguments FV F : clear implicits.
Arguments State F : clear implicits.
Arguments Clustering F : clear implicits.

(* ================================================================== *)
(** ** The lifecycle manager ([background/service-worker.js]) *)

(** A group as [persistState] serialises it: no centroid.  The two
    optional fields are the ones [loadState] has a fallback for. *)
Record StoredGroup : Type := {
  sg_id : string;
  sg_label : string;
  sg_summary : string;
  sg_tabIds : option (list Z);
  sg_stats : option (nat * Z)          (* [{ size, lastUpdated }] *)
}.

(** What the semantic collaborator may put in [obj.groups]: an entry is
    [None] when it is not an object, its [tabIds] [None] when that is
    not an array. *)
Record RawGroup : Type := {
  rg_label : string;
  rg_summary : string;
  rg_tabIds : option (list Z)
}.

Record AiGroup : Type := {
  ai_label : string;
  ai_summary : string;
  ai_tabIds : list Z
}.

Inductive AiError : Type :=
| no_tabs
| ai_group_parse_failed
| ai_group_empty.

Section Lifecycle.
Context {F : Type} {num : Number F}.
Variable URL_new : string -> option Url.

(** [serialGroups] of [persistState] *)
Definition persistGroup (g : Group F) : StoredGroup :=
  {| sg_id := g_id g; sg_label := g_label g; sg_summary := g_summary g;
     sg_tabIds := Some (g_tabIds g);
     sg_stats := Some (g_size g, g_lastUpdated g) |}.

(** The restore of one group in [loadState] *)
Definition loadGroup (now : Z) (s : StoredGroup) : Group F :=
  let ids := match sg_tabIds s with Some l => l | None => [] end in
  let stats := match sg_stats s with
               | Some st => st
               | None => (List.length ids, now)
               end in
  {| g_id := sg_id s; g_label := sg_label s; g_summary := sg_summary s;
     g_tabIds := ids; g_centroid := [];
     g_size := fst stats; g_lastUpdated := snd stats |}.

Definition persistGroups (gs : list (Group F)) : list StoredGroup :=
  map persistGroup gs.

Definition loadGroups (now : Z) (stored : list StoredGroup) : list (Group F) :=
  map (loadGroup now) stored.

(** The clustering call of [recluster]: the published groups are the
    seeds, the threshold is the literal [0.6]. *)
Definition recompute (now : Z) (rnd : nat -> string)
           (metas : list Tab) (prev : list (Group F)) : Clustering F :=
  clusterTabs URL_new now rnd metas prev DEFAULT_SIM_THRESHOLD.
End Lifecycle.

(** [validIds.has(id)] *)
Definition id_in (ids : list Z) (id : Z) : bool := existsb (Z.eqb id) ids.

(** [(g.label || "").toString().slice(0, 24) || "Group"] *)
Definition ai_label_of (l : string) : string :=
  let s := substring 0 24 l in
  if String.eqb s "" then "Group" else s.

(** The validation loop of [aiClusterTabsWithTitles] from the entries
    [raw] on, [acc] being the groups accepted so far. *)
Fixpoint ai_collect (validIds : list Z) (maxGroups : nat)
         (raw : list (option RawGroup)) (acc : list AiGroup) : list AiGroup :=
  match raw with
  | [] => acc
  | None :: rest => ai_collect validIds maxGroups rest acc
  | Some g :: rest =>
      match rg_tabIds g with
      | None => ai_collect validIds maxGroups rest acc
      | Some ids =>
          let tabIds := filter (id_in validIds) ids in
          match tabIds with
          | [] => ai_collect validIds maxGroups rest acc
          | _ :: _ =>
              let acc' :=
                acc ++ [{| ai_label := ai_label_of (rg_label g);
                           ai_summary := substring 0 120 (rg_summary g);
                           ai_tabIds := tabIds |}] in
              if (maxGroups <=? List.length acc')%nat then acc'
              else ai_collect validIds maxGroups rest acc'
          end
      end
  end.

(** [aiClusterTabsWithTitles] after the collaborator has answered:
    [response] is [obj.groups], [None] when [obj] is null or the field
    is not an array. *)
Definition aiClusterTabsWithTitles (tabsMeta : list Tab) (maxGroups : nat)
           (response : option (list (option RawGroup)))
  : AiError + list AiGroup :=
  match tabsMeta with
  | [] => inl no_tabs
  | _ :: _ =>
      let payload := firstn 60 tabsMeta in
      match response with
      | None | Some [] => inl ai_group_parse_failed
      | Some raw =>
          let validIds := map tab_id payload in
          match ai_collect validIds maxGroups raw [] with
          | [] => inl ai_group_empty
          | gs => inr gs
          end
      end
  end.

(** One returned group after validation: the ids outside [validIds]
    are removed; the group goes when it is malformed or keeps no id. *)
Definition ai_validate (validIds : list Z) (entry : option RawGroup) : list AiGroup :=
  match entry with
  | None => []
  | Some g =>
      match rg_tabIds g with
      | None => []
      | Some ids =>
          match filter (id_in validIds) ids with
          | [] => []
          | tabIds => [{| ai_label := ai_label_of (rg_label g);
                          ai_summary := substring 0 120 (rg_summary g);
                          ai_tabIds := tabIds |}]
          end
      end
  end.

(** The reading of the specification: a returned group is accepted as
    it is when every id it references is in the batch, and discarded
    otherwise. *)
Definition ai_references_only (batch : list Z) (g : RawGroup) : bool :=
  match rg_tabIds g with
  | Some ids => forallb (id_in batch) ids
  | None => false
  end.

Definition ai_discards_invalid (batch : list Z) (raw : list (option RawGroup))
           (accepted : list AiGroup) : Prop :=
  forall a, In a accepted ->
    exists g, In (Some g) raw /\ ai_references_only batch g = true
              /\ rg_tabIds g = Some (ai_tabIds a).

(* ================================================================== *)
(** ** The properties, as the specification words them *)

(** The id of a new cluster as one reads it: the first three tokens of
    the tab and the suffix drawn, joined by ["-"]; ["group"] stands in
    for the tokens of a tab that has none. *)
Definition spec_id (tokens : list string) (suffix : string) : string :=
  match tokens with
  | [] => "group-" ++ suffix
  | [a] => a ++ "-" ++ suffix
  | [a; b] => a ++ "-" ++ b ++ "-" ++ suffix
  | a :: b :: c :: _ => a ++ "-" ++ b ++ "-" ++ c ++ "-" ++ suffix
  end.

Fixpoint has_dash (s : string) : bool :=
  match s with
  | EmptyString => false
  | String c rest => Ascii.eqb c "-"%char || has_dash rest
  end.

(** What follows the last ["-"] of an id. *)
Fixpoint suffix_of (s : string) : string :=
  match s with
  | EmptyString => EmptyString
  | String c rest =>
      if has_dash rest then suffix_of rest
      else if Ascii.eqb c "-"%char then rest else String c rest
  end.

Section Properties.
Context {F : Type} {num : Number F}.

(** The clusters of [gs] whose [tabIds] hold [id]. *)
Definition clusters_with (id : Z) (gs : list (Group F)) : list (Group F) :=
  filter (fun g => id_in (g_tabIds g) id) gs.

(** The partition invariant: every tab id of the batch is held by
    exactly one output cluster, once, and the assignment table maps it
    to that cluster's id; nothing else is held; no cluster is empty. *)
Definition partition_of (ids : list Z) (c : Clustering F) : Prop :=
  (forall id, In id ids ->
     exists g, clusters_with id (groups c) = [g]
               /\ count_occ Z.eq_dec (g_tabIds g) id = 1
               /\ mget Z.eqb (assignments c) id = Some (g_id g))
  /\ (forall g id, In g (groups c) -> In id (g_tabIds g) -> In id ids)
  /\ (forall g, In g (groups c) -> g_tabIds g <> []).

(** The membership partition of a cluster set. *)
Definition membership (gs : list (Group F)) : list (list Z) := map g_tabIds gs.

(** The score of the specification: cosine, plus the host bonus
    exactly when the tab has a host pseudo-token, the centroid holds
    it and the cluster has at least two members. *)
Definition spec_score (fv : FV F) (g : Group F) : F :=
  if negb (String.eqb (fv_host fv) "")
     && shas (g_centroid g) (hostToken (fv_host fv))
     && (2 <=? List.length (g_tabIds g))%nat
  then nadd (cosine (fv_vec fv) (g_centroid g)) HOST_BONUS
  else cosine (fv_vec fv) (g_centroid g).


(** Sizes in descending order. *)
Fixpoint sizes_descending (gs : list (Group F)) : Prop :=
  match gs with
  | [] => True
  | g :: rest => (forall h, In h rest -> g_size h <= g_size g) /\ sizes_descending rest
  end.

(** Some cluster of [gs] scores above the bar. *)
Definition best_exceeds (bar : F) (fv : FV F) (gs : list (Group F)) : Prop :=
  exists g, In g gs /\ ngt (spec_score fv g) bar = true.

(** [gs'] is [gs] with the tab appended to a cluster of highest score
    (the first one among equals), that score being above the bar: no
    cluster scores above it, and every earlier cluster that scores
    above the bar scores below it. *)
Definition appended_to_best (bar : F) (fv : FV F) (id : Z)
           (gs gs' : list (Group F)) : Prop :=
  exists i g g',
    nth_error gs i = Some g
    /\ ngt (spec_score fv g) bar = true
    /\ (forall h, In h gs -> ngt (spec_score fv h) (spec_score fv g) = false)
    /\ (forall j h, j < i -> nth_error gs j = Some h ->
                    ngt (spec_score fv h) bar = true ->
                    ngt (spec_score fv g) (spec_score fv h) = true)
    /\ nth_error gs' i = Some g'
    /\ g_tabIds g' = g_tabIds g ++ [id]
    /\ g_centroid g' = mergeCentroid (g_centroid g) (fv_vec fv) (List.length (g_tabIds g))
    /\ g_size g' = S (g_size g)
    /\ g_id g' = g_id g /\ g_label g' = g_label g /\ g_summary g' = g_summary g
    /\ List.length gs' = List.length gs
    /\ (forall j, j <> i -> nth_error gs' j = nth_error gs j).

(** [gs'] is [gs] followed by one new cluster that holds only the tab
    and has the tab's vector as centroid, no label and no summary.  Its
    id is made of the first tokens of the tab and of the suffix drawn;
    it differs from every id in use that does not end in that suffix. *)
Definition opened_new (fv : FV F) (id : Z) (rand : string)
           (gs gs' : list (Group F)) : Prop :=
  exists g',
    gs' = gs ++ [g']
    /\ g_tabIds g' = [id]
    /\ g_centroid g' = fv_vec fv
    /\ g_size g' = 1
    /\ g_label g' = "" /\ g_summary g' = ""
    /\ g_id g' = spec_id (fv_allTokens fv) rand
    /\ (has_dash rand = false ->
        forall h, In h gs -> suffix_of (g_id h) <> rand -> g_id h <> g_id g').

(** No cluster of [gs] has the id [id]. *)
Definition fresh_id (id : string) (gs : list (Group F)) : Prop :=
  forall h, In h gs -> g_id h <> id.

(** All the ids held by the clusters of [gs], cluster after cluster. *)
Definition held (gs : list (Group F)) : list Z := flat_map (@g_tabIds F) gs.

(** The table sends every held id to a cluster that holds it. *)
Definition table_agrees (gs : list (Group F)) (asg : list (Z * string)) : Prop :=
  forall id, In id (held gs) ->
    exists g, In g gs /\ In id (g_tabIds g) /\ mget Z.eqb asg id = Some (g_id g).

(** Sizes count members. *)
Definition sizes_count (gs : list (Group F)) : Prop :=
  Forall (fun g => g_size g = List.length (g_tabIds g)) gs.

(** Two clusters that differ at most in id, label, summary and time
    stamp. *)
Definition same_shape (g1 g2 : Group F) : Prop :=
  g_tabIds g1 = g_tabIds g2 /\ g_centroid g1 = g_centroid g2 /\ g_size g1 = g_size g2.

(** Restart reconciliation as the specification states it: the
    recompute [after] has the membership partition of the cluster set
    [before], and a cluster whose membership is unchanged keeps its
    label and summary. *)
Definition restart_reconciles (before after : list (Group F)) : Prop :=
  (forall ids, In ids (membership after) ->
               exists ids', In ids' (membership before) /\ Permutation ids ids')
  /\ (forall ids, In ids (membership before) ->
                  exists ids', In ids' (membership after) /\ Permutation ids ids')
  /\ (forall g g', In g before -> In g' after ->
                   Permutation (g_tabIds g') (g_tabIds g) ->
                   g_label g' = g_label g /\ g_summary g' = g_summary g).

(** A seed that cannot attract a tab: no centroid, no member. *)
Definition dead_seed (g : Group F) : Prop :=
  g_centroid g = [] /\ g_size g = 0 /\ g_tabIds g = [].

Definition unlabelled (g : Group F) : Prop :=
  g_label g = "" /\ g_summary g = "".

(** The weight of a key, 0 when the key is absent. *)
Definition weight (m : vec F) (k : string) : F :=
  match sget m k with Some x => x | None => zero end.

(** The run with dead seeds in front mirrors the run without them. *)
Definition behind (dead : list (Group F)) (st1 st2 : State F) : Prop :=
  st_groups st1 = dead ++ st_groups st2
  /\ st_assignments st1 = st_assignments st2
  /\ st_draws st1 = st_draws st2.

(** A map with unique keys, as every [Map] is. *)
Definition unique_keys (m : vec F) : Prop := NoDup (mkeys m).
End Properties.

(* ================================================================== *)
(** ** Sums over exact numbers *)

Definition Rsum (l : list R) : R := fold_right Rplus 0%R l.

(** The dot product as a sum over the entries of [a]. *)
Definition dot (a b : vec R) : R :=
  Rsum (map (fun kv => (snd kv * weight b (fst kv))%R) a).


Definition nonneg (v : vec R) : Prop := Forall (fun kv => (0 <= snd kv)%R) v.


(* ================================================================== *)
(** ** Sample inputs *)

(** A platform on which no URL parses. *)
Definition no_urls : string -> option Url := fun _ => None.

(** A tab with a title only. *)
Definition titled (id : Z) (title : string) : Tab :=
  {| tab_id := id; tab_title := title; tab_url := ""; tab_contextTokens := [] |}.

(** The titles of the end-to-end scenario, no URLs. *)
Definition scenario_tabs : list Tab :=
  [titled 1 "Book flight to Paris"; titled 2 "Hotels in Paris";
   titled 3 "React useState docs"; titled 4 "React useEffect guide"].

Definition sample_rnd (i : nat) : string :=
  match i with
  | 0 => "k3x9ab"
  | 1 => "q0z7cd"
  | 2 => "m5w1ef"
  | _ => "t8v2gh"
  end.

Definition other_rnd (i : nat) : string :=
  match i with
  | 0 => "zzzzz0"
  | _ => "yyyyy1"
  end.

(** A platform on which every URL is on the one site. *)
Definition one_site : string -> option Url :=
  fun _ => Some {| url_host := "news.example"; url_pathname := "/" |}.

Definition site_tab (id : Z) (title : string) : Tab :=
  {| tab_id := id; tab_title := title; tab_url := "https://news.example/";
     tab_contextTokens := [] |}.

(** Two tabs with the same title and a third one with another title,
    all on one site. *)
Definition site_tabs : list Tab :=
  [site_tab 10 "aa bb"; site_tab 11 "aa bb"; site_tab 12 "xx yy"].

(** Two tabs without title or URL, and a [Math.random] that yields the
    same six digits twice. *)
Definition blank_tabs : list Tab := [titled 1 ""; titled 2 ""].

Definition same_rnd (i : nat) : string := "k3x9ab".

(** A history of two recompute cycles.  First cycle: two tabs, no
    seeds.  Second cycle: the two tabs have changed, the clusters of
    the first cycle are the seeds.  Its output is what gets published
    and persisted. *)
Definition first_cycle_tabs : list Tab := [titled 1 "alpha"; titled 2 "beta"].

Definition snapshot_tabs : list Tab :=
  [titled 1 "alpha alpha beta beta"; titled 2 "beta"].

Definition first_cycle : Clustering float :=
  clusterTabs no_urls 0 sample_rnd first_cycle_tabs [] DEFAULT_SIM_THRESHOLD.

Definition published : list (Group float) :=
  groups (clusterTabs no_urls 1 sample_rnd snapshot_tabs (groups first_cycle)
                      DEFAULT_SIM_THRESHOLD).

(** A published cluster that carries a label and a summary. *)
Definition labelled_before : list (Group float) :=
  [{| g_id := "alpha-k3x9ab"; g_label := "Greek letters";
      g_summary := "One tab about alpha";
      g_tabIds := [1%Z]; g_centroid := [("alpha", 1%float)];
      g_size := 1; g_lastUpdated := 1 |}].





(** The end-to-end scenario as the specification states it: exactly two
    clusters, one holding the two travel tabs, one the two React tabs. *)
Definition two_intent_clusters (gs : list (Group float)) : Prop :=
  exists travel react,
    Permutation gs [travel; react]
    /\ Permutation (g_tabIds travel) [1%Z; 2%Z]
    /\ Permutation (g_tabIds react) [3%Z; 4%Z].

(** Two sparse vectors and a cluster over exact numbers. *)
Definition paris_trip : vec R := [("paris", 1%R); ("trip", 1%R)].
Definition paris_hotel : vec R := [("paris", 1%R); ("hotel", 1%R)].

(** An answer of the semantic collaborator that references tab 99,
    which is not in the batch. *)
Definition sample_answer : list (option RawGroup) :=
  [Some {| rg_label := "Travel"; rg_summary := "Trip to Paris";
           rg_tabIds := Some [1%Z; 99%Z] |}].

(** An answer with a malformed entry, a group without a label that
    names tab 2 twice and an unknown tab 7, and a third group. *)
Definition unlabelled_answer : list (option RawGroup) :=
  [None;
   Some {| rg_label := ""; rg_summary := "Greek letters";
           rg_tabIds := Some [2%Z; 2%Z; 7%Z] |};
   Some {| rg_label := "Alpha"; rg_summary := ""; rg_tabIds := Some [1%Z] |}].

(* ================================================================== *)
(** ** Further properties of the engine *)

Section MoreProperties.
Context {F : Type} {num : Number F}.

(** Where the id, label and summary of an output cluster come from:
    a seed, or the branch that opens a new group. *)
Definition from_seed_or_new (prev : list (Group F)) (rnd : nat -> string)
           (g : Group F) : Prop :=
  (exists s, In s prev /\ g_id g = g_id s /\ g_label g = g_label s
             /\ g_summary g = g_summary s)
  \/ (g_label g = "" /\ g_summary g = ""
      /\ exists tokens i, g_id g = groupIdFrom tokens (rnd i)).

(** A cluster that holds one tab and has an empty centroid. *)
Definition lone_empty (id : Z) (g : Group F) : Prop :=
  g_tabIds g = [id] /\ g_centroid g = [] /\ g_size g = 1.

End MoreProperties.

(** The characters a token is made of: [a-z0-9]. *)
Definition is_token_char (c : ascii) : bool := is_lower c || is_digit c.

(** Every character of [s] satisfies [p]. *)
Fixpoint all_chars (p : ascii -> bool) (s : string) : bool :=
  match s with
  | EmptyString => true
  | String c rest => p c && all_chars p rest
  end.

(** What [tokenize] lets through. *)
Definition clean_token (t : string) : Prop :=
  all_chars is_token_char t = true
  /\ 2 <= String.length t
  /\ is_stopword t = false.

(** How often a token occurs. *)
Definition count_token (tokens : list string) (t : string) : nat :=
  count_occ string_dec tokens t.

(** Every weight is at least 1. *)
Definition weights_ge_1 (v : vec R) : Prop := Forall (fun kv => (1 <= snd kv)%R) v.



(** A seed whose centroid has a key that no tab of the next batch has. *)
Definition stale_seed : Group float :=
  {| g_id := "old-k3x9ab"; g_label := "Old"; g_summary := "";
     g_tabIds := [7%Z]; g_centroid := [("old", 1%float); ("stale", 0.5%float)];
     g_size := 1; g_lastUpdated := 0 |}.

(* ================================================================== *)
(** ** More of the service worker: caches and tab events *)

(** [m.delete(k)]: the entry under [k] goes (a [Map] holds at most one). *)
Definition mdelete {K V : Type} (eqb : K -> K -> bool) (m : list (K * V)) (k : K)
  : list (K * V) :=
  filter (fun kv => negb (eqb (fst kv) k)) m.

(** [EXTRACTION_TTL_MS = 5 * 60 * 1000] *)
Definition EXTRACTION_TTL_MS : Z := 5 * 60 * 1000.

(** A tab record of [STATE.tabs]. *)
Record TabMeta : Type := {
  tm_id : Z;
  tm_title : string;
  tm_url : string;
  tm_host : string
}.

(** The [changeInfo] of [tabs.onUpdated], as far as the handler reads
    it: whether [status] is ["loading"], and the new title and URL when
    they are strings. *)
Record ChangeInfo : Type := {
  ci_loading : bool;
  ci_title : option string;
  ci_url : option string
}.

Section ServiceWorkerState.
Context {F : Type} {num : Number F}.
Variable URL_new : string -> option Url.
Variable Data : Type.            (* what an extraction holds: [data] and [options] *)

(** An entry of [STATE.extractions]. *)
Record Extraction : Type := {
  ex_url : string;
  ex_data : Data;
  ex_capturedAt : Z
}.

(** [getCachedExtraction]: the entry returned ([None] is [null]) and
    the cache afterwards; [now] is what [Date.now()] reads. *)
Definition getCachedExtraction (now : Z) (cache : list (Z * Extraction))
           (tabId : Z) (url : string) : option Extraction * list (Z * Extraction) :=
  match mget Z.eqb cache tabId with
  | None => (None, cache)
  | Some entry =>
      if negb (String.eqb (ex_url entry) url)
      then (None, mdelete Z.eqb cache tabId)
      else if (EXTRACTION_TTL_MS <? now - ex_capturedAt entry)%Z
           then (None, mdelete Z.eqb cache tabId)
           else (Some entry, cache)
  end.

Definition cacheExtraction (now : Z) (cache : list (Z * Extraction))
           (tabId : Z) (url : string) (data : Data)
  : Extraction * list (Z * Extraction) :=
  let entry := {| ex_url := url; ex_data := data; ex_capturedAt := now |} in
  (entry, mset Z.eqb cache tabId entry).

Definition invalidateExtraction (cache : list (Z * Extraction)) (tabId : Z)
  : list (Z * Extraction) :=
  mdelete Z.eqb cache tabId.

(** The part of [STATE] the tab events touch.  [sw_assignments] is the
    plain object [STATE.assignments], read by key.  Groups and
    assignments are held as the engine publishes them, with its string
    ids; the groups the semantic path of [regroupTabsByIntent] stores
    under the browser's numeric group ids are not covered. *)
Record SW : Type := {
  sw_tabs : list (Z * TabMeta);
  sw_groups : list (Group F);
  sw_assignments : list (Z * string);
  sw_contentScriptTabs : list Z;
  sw_extractions : list (Z * Extraction)
}.

(** [urlFromString(url)?.host || ""] *)
Definition hostOf (url : string) : string :=
  match urlFromString URL_new url with
  | Some u => url_host u
  | None => ""
  end.

(** [set.delete(x)] *)
Definition sdelete (s : list Z) (x : Z) : list Z :=
  filter (fun y => negb (Z.eqb y x)) s.

(** [tabs.onCreated], [title] and [url] being [tab.title || ""] and
    [tab.url || ""]; every handler also says whether it calls
    [recluster()]. *)
Definition onCreated (st : SW) (id : Z) (title url : string) : SW * bool :=
  let meta := {| tm_id := id; tm_title := title; tm_url := url; tm_host := hostOf url |} in
  ({| sw_tabs := mset Z.eqb (sw_tabs st) id meta;
      sw_groups := sw_groups st;
      sw_assignments := sw_assignments st;
      sw_contentScriptTabs := sw_contentScriptTabs st;
      sw_extractions := sw_extractions st |}, true).

(** [tabs.onUpdated] *)
Definition onUpdated (st : SW) (tabId : Z) (changeInfo : ChangeInfo) : SW * bool :=
  let navigated :=
    ci_loading changeInfo
    || match ci_url changeInfo with Some _ => true | None => false end in
  let scripts :=
    if navigated then sdelete (sw_contentScriptTabs st) tabId
    else sw_contentScriptTabs st in
  let cache :=
    if navigated then invalidateExtraction (sw_extractions st) tabId
    else sw_extractions st in
  let meta0 :=
    match mget Z.eqb (sw_tabs st) tabId with
    | Some m => m
    | None => {| tm_id := tabId; tm_title := ""; tm_url := ""; tm_host := "" |}
    end in
  let meta1 :=
    match ci_title changeInfo with
    | Some t => {| tm_id := tm_id meta0; tm_title := t;
                   tm_url := tm_url meta0; tm_host := tm_host meta0 |}
    | None => meta0
    end in
  let meta2 :=
    match ci_url changeInfo with
    | Some u => {| tm_id := tm_id meta1; tm_title := tm_title meta1;
                   tm_url := u; tm_host := hostOf u |}
    | None => meta1
    end in
  let changed :=
    match ci_title changeInfo, ci_url changeInfo with
    | None, None => false
    | _, _ => true
    end in
  ({| sw_tabs := mset Z.eqb (sw_tabs st) tabId meta2;
      sw_groups := sw_groups st;
      sw_assignments := sw_assignments st;
      sw_contentScriptTabs := scripts;
      sw_extractions := cache |}, changed).

(** [xs.indexOf(x)] followed by [xs.splice(idx, 1)] when found: the
    first occurrence goes. *)
Fixpoint remove_first (x : Z) (xs : list Z) : list Z :=
  match xs with
  | [] => []
  | y :: rest => if Z.eqb y x then rest else y :: remove_first x rest
  end.

(** The loop of [tabs.onRemoved] over one group. *)
Definition dropMember (tabId : Z) (g : Group F) : Group F :=
  if id_in (g_tabIds g) tabId
  then {| g_id := g_id g; g_label := g_label g; g_summary := g_summary g;
          g_tabIds := remove_first tabId (g_tabIds g);
          g_centroid := g_centroid g;
          g_size := List.length (remove_first tabId (g_tabIds g));
          g_lastUpdated := g_lastUpdated g |}
  else g.

(** [STATE.assignments[tabId]] is truthy: present and not the empty
    string. *)
Definition has_assignment (asg : list (Z * string)) (tabId : Z) : bool :=
  match mget Z.eqb asg tabId with
  | Some gid => negb (String.eqb gid "")
  | None => false
  end.

(** [tabs.onRemoved] *)
Definition onRemoved (st : SW) (tabId : Z) : SW * bool :=
  let touched_groups := existsb (fun g => id_in (g_tabIds g) tabId) (sw_groups st) in
  let touched_asg := has_assignment (sw_assignments st) tabId in
  ({| sw_tabs := mdelete Z.eqb (sw_tabs st) tabId;
      sw_groups := map (dropMember tabId) (sw_groups st);
      sw_assignments :=
        if touched_asg then mdelete Z.eqb (sw_assignments st) tabId
        else sw_assignments st;
      sw_contentScriptTabs := sdelete (sw_contentScriptTabs st) tabId;
      sw_extractions := invalidateExtraction (sw_extractions st) tabId |},
   touched_groups || touched_asg).

(** [tabs.onReplaced] *)
Definition onReplaced (st : SW) (addedTabId removedTabId : Z) : SW * bool :=
  let scripts := sdelete (sdelete (sw_contentScriptTabs st) removedTabId) addedTabId in
  let cache :=
    invalidateExtraction (invalidateExtraction (sw_extractions st) removedTabId)
                         addedTabId in
  let tabs :=
    match mget Z.eqb (sw_tabs st) removedTabId with
    | Some oldMeta =>
        mset Z.eqb (mdelete Z.eqb (sw_tabs st) removedTabId) addedTabId
             {| tm_id := addedTabId; tm_title := tm_title oldMeta;
                tm_url := tm_url oldMeta; tm_host := tm_host oldMeta |}
    | None => sw_tabs st
    end in
  ({| sw_tabs := tabs;
      sw_groups := sw_groups st;
      sw_assignments := sw_assignments st;
      sw_contentScriptTabs := scripts;
      sw_extractions := cache |}, true).
End ServiceWorkerState.

Arguments Extraction Data : clear implicits.
Arguments SW F Data : clear implicits.
Arguments ex_url {Data} _.
Arguments ex_data {Data} _.
Arguments ex_capturedAt {Data} _.
Arguments sw_tabs {F Data} _.
Arguments sw_groups {F Data} _.
Arguments sw_assignments {F Data} _.
Arguments sw_contentScriptTabs {F Data} _.
Arguments sw_extractions {F Data} _.

(** The table of tab records is well formed: its keys are unique, every
    record is stored under its own id, and its host is the host of its
    URL. *)
Definition tabs_wf (URL_new : string -> option Url) (tabs : list (Z * TabMeta)) : Prop :=
  NoDup (mkeys tabs)
  /\ forall k m, In (k, m) tabs ->
       tm_id m = k /\ tm_host m = hostOf URL_new (tm_url m).

(** A tab event. *)
Inductive TabEvent : Type :=
| Created (id : Z) (title url : string)
| Updated (tabId : Z) (changeInfo : ChangeInfo)
| Removed (tabId : Z)
| Replaced (addedTabId removedTabId : Z).

(** The handler of an event. *)
Definition handle {F : Type} (URL_new : string -> option Url) (Data : Type)
           (st : SW F Data) (e : TabEvent) : SW F Data * bool :=
  match e with
  | Created id title url => onCreated URL_new Data st id title url
  | Updated tabId changeInfo => onUpdated URL_new Data st tabId changeInfo
  | Removed tabId => onRemoved Data st tabId
  | Replaced added removed => onReplaced Data st added removed
  end.

(** The state after a sequence of events. *)
Definition handle_all {F : Type} (URL_new : string -> option Url) (Data : Type)
           (st : SW F Data) (es : list TabEvent) : SW F Data :=
  fold_left (fun s e => fst (handle URL_new Data s e)) es st.

(* ================================================================== *)
(** ** Colours of native tab groups *)

(** [x | 0]: the 32-bit two's complement reading of an integer. *)
Definition to_int32 (z : Z) : Z := ((z + 2 ^ 31) mod 2 ^ 32 - 2 ^ 31)%Z.

(** [label.charCodeAt(i)] *)
Definition charCode (c : ascii) : Z := Z.of_nat (nat_of_ascii c).

(** The loop of [hashLabel]:
    [hash = ((hash << 5) - hash) + label.charCodeAt(i); hash |= 0]. *)
Fixpoint hash_loop (label : string) (hash : Z) : Z :=
  match label with
  | EmptyString => hash
  | String c rest =>
      hash_loop rest (to_int32 (to_int32 (Z.shiftl hash 5) - hash + charCode c))
  end.

Definition hashLabel (label : string) : Z := hash_loop label 0.

Definition GROUP_COLORS : list string :=
  ["blue"; "red"; "yellow"; "green"; "pink"; "purple"; "cyan"; "orange"; "grey"].

Definition pickGroupColor (label : string) (index : nat) : string :=
  let idx := (Z.abs (hashLabel label + Z.of_nat index)
              mod Z.of_nat (List.length GROUP_COLORS))%Z in
  match nth_error GROUP_COLORS (Z.to_nat idx) with
  | Some c => if String.eqb c "" then "grey" else c
  | None => "grey"
  end.

(** The polynomial [s[0]*31^(n-1) + ... + s[n-1]] continued from [acc]. *)
Fixpoint poly31 (label : string) (acc : Z) : Z :=
  match label with
  | EmptyString => acc
  | String c rest => poly31 rest (31 * acc + charCode c)%Z
  end.

(* ================================================================== *)
(** ** Heuristic labels and summaries, and the grouping pipeline *)

Definition upper_char (c : ascii) : ascii :=
  if is_lower c then ascii_of_nat (nat_of_ascii c - 32)%nat else c.

(** [s[0].toUpperCase() + s.slice(1)].  The source throws on the empty
    string; [labelFromTokens] applies it to tokens of three characters
    or more only. *)
Definition capitalize (s : string) : string :=
  match s with
  | EmptyString => EmptyString
  | String c rest => String (upper_char c) rest
  end.

(** The counting loop of [labelFromTokens]:
    [freq.set(t, (freq.get(t) || 0) + 1)]. *)
Definition token_freq (tokens : list string) : list (string * nat) :=
  fold_left
    (fun freq t =>
       mset String.eqb freq t
            (match mget String.eqb freq t with Some c => c | None => 0 end + 1))
    tokens [].

(** [t.length >= 3 && !t.startsWith("host:")] *)
Definition is_meaningful (t : string) : bool :=
  (3 <=? String.length t)%nat && negb (String.prefix "host:" t).

(** [.sort((a, b) => b[1] - a[1])], a stable sort as for the groups. *)
Fixpoint insert_by_count (e : string * nat) (l : list (string * nat))
  : list (string * nat) :=
  match l with
  | [] => [e]
  | h :: rest =>
      if (snd e <? snd h)%nat then h :: insert_by_count e rest
      else e :: h :: rest
  end.

Definition sort_by_count_desc (l : list (string * nat)) : list (string * nat) :=
  fold_right insert_by_count [] l.

(** [h.replace(/^www\./, "")] *)
Definition strip_www (h : string) : string :=
  if String.prefix "www." h then substring 4 (String.length h - 4) h else h.

(** The tokens [labelFromTokens] builds the label from. *)
Definition meaningful_tokens (tokens : list string) : list string :=
  map fst (firstn 3 (sort_by_count_desc
                       (filter (fun e => is_meaningful (fst e)) (token_freq tokens)))).

Definition labelFromTokens (tokens hosts : list string) : string :=
  let meaningful := meaningful_tokens tokens in
  match meaningful with
  | _ :: _ => join " " (map capitalize (firstn 2 meaningful))
  | [] =>
      match hosts with
      | h :: _ => strip_www h
      | [] => "Group"
      end
  end.

(** [Array.from(new Set(xs))]: the first occurrences, in order. *)
Definition dedupe (xs : list string) : list string :=
  fold_left (fun seen x => if existsb (String.eqb x) seen then seen else seen ++ [x])
            xs [].

(** The first string of [l] that no string of [l] outnumbers. *)
Fixpoint first_max (cnt : string -> nat) (l : list string) : option string :=
  match l with
  | [] => None
  | x :: rest =>
      match first_max cnt rest with
      | Some y => if (cnt x <? cnt y)%nat then Some y else Some x
      | None => Some x
      end
  end.

Definition remove_string (x : string) (l : list string) : list string :=
  filter (fun y => negb (String.eqb x y)) l.

(** The label read off the tokens: among the distinct meaningful
    tokens, in the order of their first occurrence, the first one of
    highest count, then a space and the first one of highest count
    among the others, if there are others. *)
Definition spec_label (tokens hosts : list string) : string :=
  let candidates := filter is_meaningful (dedupe tokens) in
  match first_max (count_token tokens) candidates with
  | None => match hosts with h :: _ => strip_www h | [] => "Group" end
  | Some m1 =>
      match first_max (count_token tokens) (remove_string m1 candidates) with
      | None => capitalize m1
      | Some m2 => (capitalize m1 ++ " " ++ capitalize m2)%string
      end
  end.

(** [`${n}`] for a count. *)
Definition decimal (n : nat) : string := NilEmpty.string_of_uint (Nat.to_uint n).

(** The separator of [summarizeGroup]: a space, a middle dot (code unit
    183) and [" Hosts: "]. *)
Definition HOSTS_SEP : string := String " " (String "183" " Hosts: ").

(** A tab as [chrome.tabs.query] reports it, as far as [recluster] reads
    it; [title] and [url] are [""] when absent. *)
Record BrowserTab : Type := {
  bt_id : Z;
  bt_title : string;
  bt_url : string
}.

(** [Object.fromEntries(entries)] *)
Definition fromEntries (entries : list (Z * string)) : list (Z * string) :=
  fold_left (fun o kv => mset Z.eqb o (fst kv) (snd kv)) entries [].

Section Labels.
Context {F : Type} {num : Number F}.
Variable URL_new : string -> option Url.

Definition summarizeGroup (tabMetas : list TabMeta) : string :=
  let n := List.length tabMetas in
  let hosts :=
    dedupe (filter (fun h => negb (String.eqb h ""))
                   (map (fun t => hostOf URL_new (tm_url t)) tabMetas)) in
  let hostStr := join ", " (firstn 3 hosts) in
  decimal n ++ " tab" ++ (if (1 <? n)%nat then "s" else "")
    ++ (if String.eqb hostStr "" then "" else HOSTS_SEP ++ hostStr).

(** What the loop of [ensureHeuristicLabelsAndSummaries] pushes on
    [tokens] for one tab. *)
Definition tab_tokens (t : TabMeta) : list string :=
  tokenize (tm_title t)
  ++ (if String.eqb (tm_url t) "" then []
      else match urlFromString URL_new (tm_url t) with
           | Some urlObj => tokenize (slashes_to_spaces (url_pathname urlObj))
           | None => []
           end).

(** What it pushes on [hosts]. *)
Definition tab_hosts (t : TabMeta) : list string :=
  if String.eqb (tm_url t) "" then []
  else match urlFromString URL_new (tm_url t) with
       | Some urlObj => if String.eqb (url_host urlObj) "" then [] else [url_host urlObj]
       | None => []
       end.

(** [g.tabIds.map(id => STATE.tabs.get(id)).filter(Boolean)] *)
Definition group_metas (tabs : list (Z * TabMeta)) (g : Group F) : list TabMeta :=
  flat_map (fun id => match mget Z.eqb tabs id with Some m => [m] | None => [] end)
           (g_tabIds g).

(** The body of the loop of [ensureHeuristicLabelsAndSummaries]. *)
Definition ensureOne (tabs : list (Z * TabMeta)) (g : Group F) : Group F :=
  if String.eqb (g_label g) "" || String.eqb (g_summary g) ""
  then
    let metas := group_metas tabs g in
    let tokens := flat_map tab_tokens metas in
    let hosts := flat_map tab_hosts metas in
    {| g_id := g_id g;
       g_label := if String.eqb (g_label g) "" then labelFromTokens tokens hosts
                  else g_label g;
       g_summary := if String.eqb (g_summary g) "" then summarizeGroup metas
                    else g_summary g;
       g_tabIds := g_tabIds g;
       g_centroid := g_centroid g;
       g_size := g_size g;
       g_lastUpdated := g_lastUpdated g |}
  else g.

Definition ensureHeuristicLabelsAndSummaries (tabs : list (Z * TabMeta))
           (gs : list (Group F)) : list (Group F) :=
  map (ensureOne tabs) gs.

(** The record [recluster] builds for a reported tab. *)
Definition meta_of (t : BrowserTab) : TabMeta :=
  {| tm_id := bt_id t; tm_title := bt_title t; tm_url := bt_url t;
     tm_host := hostOf URL_new (bt_url t) |}.

(** The record as [clusterTabs] reads it: it has no [contextTokens]. *)
Definition tab_of_meta (m : TabMeta) : Tab :=
  {| tab_id := tm_id m; tab_title := tm_title m; tab_url := tm_url m;
     tab_contextTokens := [] |}.

(** The body of [recluster] up to the state update: [allTabs] is what
    [chrome.tabs.query({})] answers, [now] and [rnd] what the clock and
    the random source give to [clusterTabs].  What follows persists the
    state and changes nothing of it (the window split is disabled). *)
Definition recluster (Data : Type) (now : Z) (rnd : nat -> string)
           (allTabs : list BrowserTab) (st : SW F Data) : SW F Data :=
  let metas := map meta_of allTabs in
  let tabs := fold_left (fun m meta => mset Z.eqb m (tm_id meta) meta) metas (sw_tabs st) in
  let c := recompute URL_new now rnd (map tab_of_meta metas) (sw_groups st) in
  {| sw_tabs := tabs;
     sw_groups := ensureHeuristicLabelsAndSummaries tabs (groups c);
     sw_assignments := fromEntries (assignments c);
     sw_contentScriptTabs := sw_contentScriptTabs st;
     sw_extractions := sw_extractions st |}.
End Labels.

(* ================================================================== *)
(** ** Toggling, and regrouping into native tab groups *)

(** A record of [tabMetas] in [regroupTabsByIntent]. *)
Record RegroupMeta : Type := {
  rm_id : Z;
  rm_title : string;
  rm_url : string;
  rm_host : string;
  rm_pathTokens : list string
}.

(** What the heuristic path asks the browser for: [chrome.tabs.group]
    on [tabIds], then [chrome.tabGroups.update] with title and colour. *)
Record GroupRequest : Type := {
  gr_tabIds : list Z;
  gr_title : string;
  gr_color : string
}.

Inductive RegroupError : Type :=
| need_two_tabs              (* "Need at least two tabs to regroup." *)
| no_meaningful_clusters.    (* "No meaningful clusters detected." *)

(** [!label.trim()] *)
Definition is_blank (s : string) : bool := all_chars is_space s.

(** [Math.max(1, options.maxGroups || 6)]; [None] is an absent option. *)
Definition regroup_maxGroups (maxGroups : option nat) : nat :=
  Nat.max 1 (match maxGroups with Some (S k) => S k | _ => 6 end).

(** [targetMode] of [toggleGrouping]: [mode] is [options.mode] when it is
    a string. *)
Definition targetMode (mode : option string) (groupsExist : bool) : string :=
  let requestedMode := match mode with Some m => toLowerCase m | None => "auto" end in
  if String.eqb requestedMode "group" || String.eqb requestedMode "ungroup"
  then requestedMode
  else if groupsExist then "ungroup" else "group".

Section Regroup.
Context {F : Type} {num : Number F}.
Variable URL_new : string -> option Url.

(** [hasActiveGroups] *)
Definition hasActiveGroups (gs : list (Group F)) : bool :=
  existsb (fun g => (0 <? List.length (g_tabIds g))%nat) gs.

(** [.sort((a, b) => b.tabIds.length - a.tabIds.length)] *)
Fixpoint insert_by_members (g : Group F) (l : list (Group F)) : list (Group F) :=
  match l with
  | [] => [g]
  | h :: rest =>
      if (List.length (g_tabIds g) <? List.length (g_tabIds h))%nat
      then h :: insert_by_members g rest
      else g :: h :: rest
  end.

Definition sort_by_members_desc (l : list (Group F)) : list (Group F) :=
  fold_right insert_by_members [] l.

Definition regroup_meta (t : BrowserTab) : RegroupMeta :=
  match urlFromString URL_new (bt_url t) with
  | Some u =>
      {| rm_id := bt_id t; rm_title := bt_title t; rm_url := bt_url t;
         rm_host := url_host u;
         rm_pathTokens := tokenize (slashes_to_spaces (url_pathname u)) |}
  | None =>
      {| rm_id := bt_id t; rm_title := bt_title t; rm_url := bt_url t;
         rm_host := ""; rm_pathTokens := [] |}
  end.

Definition tab_of_regroup (m : RegroupMeta) : Tab :=
  {| tab_id := rm_id m; tab_title := rm_title m; tab_url := rm_url m;
     tab_contextTokens := [] |}.

(** [buildLabelAndColor]: the label and the colour. *)
Definition buildLabelAndColor (cluster : Group F) (metaMap : list (Z * RegroupMeta))
           (index : nat) : string * string :=
  let metas :=
    flat_map (fun tabId => match mget Z.eqb metaMap tabId with
                           | Some meta => [meta]
                           | None => []
                           end)
             (g_tabIds cluster) in
  let tokens := flat_map (fun meta => tokenize (rm_title meta) ++ rm_pathTokens meta) metas in
  let hosts :=
    flat_map (fun meta => if String.eqb (rm_host meta) "" then [] else [rm_host meta])
             metas in
  let label0 := labelFromTokens tokens hosts in
  let label :=
    if String.eqb label0 "" || is_blank label0
    then ("Group " ++ decimal (index + 1))%string
    else label0 in
  (label, pickGroupColor label index).

(** The heuristic path of [regroupTabsByIntent], taken when the local
    model is not there or its path gave nothing: from the candidate tabs
    (the tabs of the window that have an id and are not discarded) to
    the requests made to the browser, in order.  Whether the browser
    honours a request does not change the later ones. *)
Definition regroupHeuristic (maxGroups : option nat) (now : Z) (rnd : nat -> string)
           (candidateTabs : list BrowserTab) : RegroupError + list GroupRequest :=
  if (List.length candidateTabs <=? 1)%nat then inl need_two_tabs
  else
    let tabMetas := map regroup_meta candidateTabs in
    let c := clusterTabs URL_new now rnd (map tab_of_regroup tabMetas) []
                         DEFAULT_SIM_THRESHOLD in
    let sorted :=
      sort_by_members_desc
        (filter (fun g => (0 <? List.length (g_tabIds g))%nat) (groups c)) in
    match sorted with
    | [] => inl no_meaningful_clusters
    | _ :: _ =>
        let limit := Nat.min (List.length sorted) (regroup_maxGroups maxGroups) in
        let selected := firstn limit sorted in
        let metaMap :=
          fold_left (fun m meta => mset Z.eqb m (rm_id meta) meta) tabMetas [] in
        inr (flat_map
               (fun ic : nat * Group F =>
                  let tabIds :=
                    filter (fun id => mhas Z.eqb metaMap id) (g_tabIds (snd ic)) in
                  match tabIds with
                  | [] => []
                  | _ :: _ =>
                      let lc := buildLabelAndColor (snd ic) metaMap (fst ic) in
                      [{| gr_tabIds := tabIds; gr_title := fst lc; gr_color := snd lc |}]
                  end)
               (combine (seq 0 (List.length selected)) selected))
    end.
End Regroup.

(* ================================================================== *)
(** ** The whole state across a restart *)

(** What [persistState] stores of the state above, as [loadState] reads
    it back: a field is [None] when it is missing.  Settings, the time
    of the last split and the summarizer status are stored too and are
    not part of the state modelled here. *)
Record Stored : Type := {
  stored_groups : option (list StoredGroup);
  stored_assignments : option (list (Z * string));
  stored_tabs : option (list TabMeta)
}.

Section RestartState.
Context {F : Type}.
Variable Data : Type.

(** The payload of [persistState]. *)
Definition persistState (st : SW F Data) : Stored :=
  {| stored_groups := Some (persistGroups (sw_groups st));
     stored_assignments := Some (sw_assignments st);
     stored_tabs := Some (mvalues (sw_tabs st)) |}.

(** [loadState]: [stored] is [None] when the storage holds nothing, and
    then the state is left as it is. *)
Definition loadState (now : Z) (stored : option Stored) (st : SW F Data) : SW F Data :=
  match stored with
  | None => st
  | Some s =>
      {| sw_tabs :=
           fold_left (fun m t => mset Z.eqb m (tm_id t) t)
                     (match stored_tabs s with Some ts => ts | None => [] end) [];
         sw_groups :=
           loadGroups now (match stored_groups s with Some gs => gs | None => [] end);
         sw_assignments :=
           match stored_assignments s with Some a => a | None => [] end;
         sw_contentScriptTabs := [];
         sw_extractions := [] |}
  end.
End RestartState.

(* ================================================================== *)
(** ** What the assistant is given ([shared/ai-client.js]) *)

(** [ctx.active] as [pruneContext] reads it: [label] and [summary] are
    [""] and [tabTitles] is [[]] when absent, a title that is not a
    string counts as [""]. *)
Record CtxActive : Type := {
  ca_id : string;
  ca_label : string;
  ca_summary : string;
  ca_tabTitles : list string
}.

Record CtxOther : Type := {
  co_id : string;
  co_label : string;
  co_summary : string
}.

(** [ctx]: [ctx_active] is [None] when falsy, [ctx_others] when it is
    not an array. *)
Record Ctx : Type := {
  ctx_active : option CtxActive;
  ctx_others : option (list CtxOther)
}.

Definition pruneContext (ctx : Ctx) : Ctx :=
  {| ctx_active :=
       match ctx_active ctx with
       | Some a =>
           Some {| ca_id := ca_id a;
                   ca_label := substring 0 80 (ca_label a);
                   ca_summary := substring 0 280 (ca_summary a);
                   ca_tabTitles := map (substring 0 100) (firstn 8 (ca_tabTitles a)) |}
       | None => None
       end;
     ctx_others :=
       Some (match ctx_others ctx with
             | Some others =>
                 map (fun g => {| co_id := co_id g;
                                  co_label := substring 0 80 (co_label g);
                                  co_summary := substring 0 200 (co_summary g) |})
                     (firstn 4 others)
             | None => []
             end) |}.

(** [.] of a regular expression without the [s] flag: not a line
    terminator. *)
Definition is_line_terminator (c : ascii) : bool :=
  let n := nat_of_ascii c in ((n =? 10) || (n =? 13))%nat.

(** [s.replace(/\?.*$/g, "")]: the text from the first question mark
    that no line terminator follows is dropped. *)
Fixpoint strip_query (s : string) : string :=
  match s with
  | EmptyString => EmptyString
  | String c rest =>
      if Ascii.eqb c "?" && all_chars (fun x => negb (is_line_terminator x)) rest
      then EmptyString
      else String c (strip_query rest)
  end.

(** [[A-Z0-9]] under the [i] flag. *)
Definition is_alnum (c : ascii) : bool := is_upper c || is_lower c || is_digit c.

(** What becomes of a maximal run of letters and digits. *)
Definition flush_run (run : string) : string :=
  if (16 <=? String.length run)%nat then "[id]" else run.

(** [s.replace(/[A-Z0-9]{16,}/gi, "[id]")], [run] being the letters and
    digits read since the last other character. *)
Fixpoint redact_ids (s : string) (run : string) : string :=
  match s with
  | EmptyString => flush_run run
  | String c rest =>
      if is_alnum c then redact_ids rest (run ++ String c EmptyString)
      else flush_run run ++ String c (redact_ids rest EmptyString)
  end.

Definition redactText (s : string) : string := redact_ids (strip_query s) EmptyString.

(** The longest run of letters and digits in [s], [cur] being the
    length of the run that ends where [s] starts. *)
Fixpoint longest_run (s : string) (cur : nat) : nat :=
  match s with
  | EmptyString => cur
  | String c rest =>
      if is_alnum c then longest_run rest (S cur)
      else Nat.max cur (longest_run rest 0)
  end.

(** [[\/\-\_]] *)
Definition is_path_sep (c : ascii) : bool :=
  Ascii.eqb c "/" || Ascii.eqb c "-" || Ascii.eqb c "_".

(** [s.split(/[\/\-\_]+/)]: the pieces between maximal runs of
    separators, the empty pieces at both ends included. *)
Fixpoint split_path (s : string) (cur : string) (insep : bool) : list string :=
  match s with
  | EmptyString => [cur]
  | String c rest =>
      if is_path_sep c
      then (if insep then split_path rest cur true
            else cur :: split_path rest EmptyString true)
      else split_path rest (cur ++ String c EmptyString) false
  end.

(** An entry of [minimalTabs]. *)
Record MinimalTab : Type := {
  mt_title : string;
  mt_host : string;
  mt_pathTokens : list string
}.

Section MinimalTabs.
Variable URL_new : string -> option Url.

Definition pathTokensOf (url : string) : list string :=
  match urlFromString URL_new url with
  | Some u =>
      firstn 6 (filter (fun t => negb (String.eqb t ""))
                       (split_path (url_pathname u) EmptyString false))
  | None => []
  end.

Definition minimalTabs (tabs : list BrowserTab) (limit : nat) : list MinimalTab :=
  map (fun t => {| mt_title := redactText (bt_title t);
                   mt_host := hostOf URL_new (bt_url t);
                   mt_pathTokens := pathTokensOf (bt_url t) |})
      (firstn limit tabs).
End MinimalTabs.

(* ================================================================== *)
(** ** Sample inputs of the service worker *)

(** A parser for which every URL has the host ["www."]. *)
Definition www_urls : string -> option Url :=
  fun _ => Some {| url_host := "www."; url_pathname := "/" |}.

Definition www_tab : TabMeta :=
  {| tm_id := 1; tm_title := "ab"; tm_url := "https://www./"; tm_host := "www." |}.

Definition unlabelled_group : Group float :=
  {| g_id := "group-k3x9ab"; g_label := ""; g_summary := "";
     g_tabIds := [1%Z]; g_centroid := [];
     g_size := 1; g_lastUpdated := 0 |}.

(* ================================================================== *)
(** * Facts about [Map] *)

Section JsMapFacts.
Context {K V : Type} (eqb : K -> K -> bool).
Hypothesis eqb_eq : forall a b, eqb a b = true <-> a = b.

Lemma eqb_refl' : forall a, eqb a a = true.
Proof. intro a. now apply eqb_eq. Qed.

Lemma eqb_neq' : forall a b, a <> b -> eqb a b = false.
Proof.
  intros a b Hab. destruct (eqb a b) eqn:E; [|reflexivity].
  apply eqb_eq in E. contradiction.
Qed.

Lemma mget_mset_same (m : list (K * V)) k v :
  mget eqb (mset eqb m k v) k = Some v.
Proof.
  induction m as [|[k' v'] m IH]; simpl.
  - now rewrite eqb_refl'.
  - destruct (eqb k' k) eqn:E; simpl; rewrite E; auto.
Qed.

Lemma mget_mset_other (m : list (K * V)) k v k' :
  k <> k' -> mget eqb (mset eqb m k v) k' = mget eqb m k'.
Proof.
  intros Hne. induction m as [|[k0 v0] m IH]; simpl.
  - now rewrite eqb_neq'.
  - destruct (eqb k0 k) eqn:E; simpl.
    + apply eqb_eq in E. subst k0. now rewrite !eqb_neq'.
    + now rewrite IH.
Qed.

Lemma mget_None_keys (m : list (K * V)) k :
  mget eqb m k = None <-> ~ In k (mkeys m).
Proof.
  induction m as [|[k0 v0] m IH]; simpl.
  - tauto.
  - destruct (eqb k0 k) eqn:E.
    + apply eqb_eq in E. split; [discriminate | intros H; exfalso; apply H; now left].
    + rewrite IH. split.
      * intros H [H1|H1]; [subst; rewrite eqb_refl' in E; discriminate | auto].
      * intros H H1. apply H. now right.
Qed.

Lemma mget_Some_In (m : list (K * V)) k v :
  mget eqb m k = Some v -> In (k, v) m.
Proof.
  induction m as [|[k0 v0] m IH]; simpl; [discriminate|].
  destruct (eqb k0 k) eqn:E.
  - apply eqb_eq in E. subst. intros [= ->]. now left.
  - intros H. right. auto.
Qed.

Lemma mhas_keys (m : list (K * V)) k :
  mhas eqb m k = true <-> In k (mkeys m).
Proof.
  unfold mhas. destruct (mget eqb m k) eqn:E.
  - split; [intros _|reflexivity].
    apply mget_Some_In in E. unfold mkeys. apply in_map_iff. now exists (k, v).
  - apply mget_None_keys in E. split; [discriminate | contradiction].
Qed.

Lemma mkeys_mset (m : list (K * V)) k v :
  mkeys (mset eqb m k v) = if mhas eqb m k then mkeys m else mkeys m ++ [k].
Proof.
  unfold mhas. induction m as [|[k0 v0] m IH]; simpl; [reflexivity|].
  destruct (eqb k0 k) eqn:E; simpl; [reflexivity|].
  rewrite IH. now destruct (mget eqb m k).
Qed.

Lemma mset_unique_keys (m : list (K * V)) k v :
  NoDup (mkeys m) -> NoDup (mkeys (mset eqb m k v)).
Proof.
  intros Hnd. rewrite mkeys_mset. destruct (mhas eqb m k) eqn:E; [assumption|].
  apply NoDup_app; [assumption | repeat constructor; simpl; tauto |].
  intros x Hx [->|[]].
  apply mhas_keys in Hx. congruence.
Qed.

Lemma mget_unique_In (m : list (K * V)) k v :
  NoDup (mkeys m) -> In (k, v) m -> mget eqb m k = Some v.
Proof.
  induction m as [|[k0 v0] m IH]; simpl; [tauto|].
  intros Hnd [H|H].
  - injection H as -> ->. now rewrite eqb_refl'.
  - inversion Hnd as [|? ? Hnotin Hnd']; subst.
    destruct (eqb k0 k) eqn:E; [|auto].
    apply eqb_eq in E. subst k0. exfalso. apply Hnotin.
    unfold mkeys. apply in_map_iff. now exists (k, v).
Qed.
End JsMapFacts.

Lemma Zeqb_eq : forall a b : Z, Z.eqb a b = true <-> a = b.
Proof. intros. apply Z.eqb_eq. Qed.

Lemma Seqb_eq : forall a b : string, String.eqb a b = true <-> a = b.
Proof. intros. apply String.eqb_eq. Qed.

Lemma id_in_In (ids : list Z) (id : Z) : id_in ids id = true <-> In id ids.
Proof.
  unfold id_in. rewrite existsb_exists. split.
  - intros (x & Hx & E). apply Z.eqb_eq in E. now subst.
  - intros H. exists id. split; [assumption | apply Z.eqb_refl].
Qed.

(* ================================================================== *)
(** * The semantic collaborator's answer *)

Section AiValidation.
Variables (validIds : list Z) (maxGroups : nat).

Lemma ai_collect_step entry raw acc :
  ai_collect validIds maxGroups (entry :: raw) acc =
  match ai_validate validIds entry with
  | [] => ai_collect validIds maxGroups raw acc
  | a :: _ =>
      if (maxGroups <=? List.length (acc ++ [a]))%nat then acc ++ [a]
      else ai_collect validIds maxGroups raw (acc ++ [a])
  end.
Proof.
  destruct entry as [g|]; simpl; [|reflexivity].
  destruct (rg_tabIds g) as [ids|]; simpl; [|reflexivity].
  destruct (filter (id_in validIds) ids); reflexivity.
Qed.

Lemma ai_validate_length entry : List.length (ai_validate validIds entry) <= 1.
Proof.
  destruct entry as [g|]; simpl; [|lia].
  destruct (rg_tabIds g) as [ids|]; simpl; [|lia].
  destruct (filter (id_in validIds) ids); simpl; lia.
Qed.

(** The loop accepts the validated groups in order until [maxGroups]
    of them are held (one is always taken before the test). *)
Lemma ai_collect_closed raw : forall acc,
  List.length acc < Nat.max 1 maxGroups ->
  ai_collect validIds maxGroups raw acc =
  acc ++ firstn (Nat.max 1 maxGroups - List.length acc)
                (flat_map (ai_validate validIds) raw).
Proof.
  induction raw as [|entry raw IH]; intros acc Hacc.
  - simpl. rewrite firstn_nil. now rewrite app_nil_r.
  - rewrite ai_collect_step. simpl flat_map.
    pose proof (ai_validate_length entry) as Hlen.
    destruct (ai_validate validIds entry) as [|a [|b l]]; simpl in Hlen; try lia.
    + simpl. now apply IH.
    + rewrite length_app. simpl List.length.
      destruct (Nat.leb_spec maxGroups (List.length acc + 1)) as [Hle|Hgt].
      * assert (E : Nat.max 1 maxGroups - List.length acc = 1) by lia.
        rewrite E. reflexivity.
      * rewrite IH by (rewrite length_app; cbn [List.length]; lia).
        rewrite length_app. simpl List.length.
        destruct (Nat.max 1 maxGroups - List.length acc) as [|k] eqn:E; [lia|].
        replace (Nat.max 1 maxGroups - (List.length acc + 1)) with k by lia.
        simpl. now rewrite <- app_assoc.
Qed.

Lemma ai_validate_sound entry a :
  In a (ai_validate validIds entry) ->
  exists g ids, entry = Some g /\ rg_tabIds g = Some ids
                /\ ai_tabIds a = filter (id_in validIds) ids
                /\ ai_tabIds a <> [].
Proof.
  destruct entry as [g|]; simpl; [|tauto].
  destruct (rg_tabIds g) as [ids|] eqn:E; simpl; [|tauto].
  destruct (filter (id_in validIds) ids) as [|x l] eqn:Ef; simpl; [tauto|].
  intros [<-|[]]. exists g, ids. simpl. repeat split; auto. discriminate.
Qed.
End AiValidation.

Lemma In_firstn {A : Type} (n : nat) (l : list A) (x : A) : In x (firstn n l) -> In x l.
Proof.
  revert n. induction l as [|y l IH]; intros [|n]; simpl; try tauto.
  intros [H|H]; [now left | right; eauto].
Qed.

(** C8 (as amended): an accepted answer is the first [max 1 maxGroups]
    returned groups that survive validation, where validation removes
    from a group the ids that are not among the first 60 tabs of the
    batch and drops the group only when it is malformed or keeps no id;
    so an accepted group is never empty and never references a tab id
    outside the batch. *)
Theorem ai_groups_filtered_to_batch :
  forall (tabsMeta : list Tab) (maxGroups : nat)
         (raw : list (option RawGroup)) (accepted : list AiGroup),
    aiClusterTabsWithTitles tabsMeta maxGroups (Some raw) = inr accepted ->
    let validIds := map tab_id (firstn 60 tabsMeta) in
    accepted = firstn (Nat.max 1 maxGroups) (flat_map (ai_validate validIds) raw)
    /\ forall a, In a accepted ->
         ai_tabIds a <> []
         /\ (forall id, In id (ai_tabIds a) -> In id (map tab_id tabsMeta))
         /\ exists g ids, In (Some g) raw /\ rg_tabIds g = Some ids
                          /\ ai_tabIds a = filter (id_in validIds) ids.
Proof.
  intros tabsMeta maxGroups raw accepted Hrun validIds.
  unfold aiClusterTabsWithTitles in Hrun.
  destruct tabsMeta as [|t0 ts]; [discriminate|].
  destruct raw as [|e raw]; [discriminate|].
  fold validIds in Hrun.
  rewrite ai_collect_closed in Hrun by (cbn [List.length]; lia).
  cbn [List.length] in Hrun. rewrite Nat.sub_0_r, app_nil_l in Hrun.
  assert (Hacc : accepted =
                 firstn (Nat.max 1 maxGroups) (flat_map (ai_validate validIds) (e :: raw))).
  { revert Hrun.
    destruct (firstn (Nat.max 1 maxGroups) (flat_map (ai_validate validIds) (e :: raw)));
      intros Hrun; [discriminate | now injection Hrun as <-]. }
  split; [exact Hacc|].
  intros a Ha. rewrite Hacc in Ha. apply In_firstn in Ha.
  apply in_flat_map in Ha. destruct Ha as (entry & Hentry & Hin).
  apply ai_validate_sound in Hin. destruct Hin as (g & ids & -> & Hids & Hf & Hne).
  split; [exact Hne|]. split.
  - intros id Hid. rewrite Hf in Hid. apply filter_In in Hid.
    destruct Hid as [_ Hv]. apply id_in_In in Hv.
    unfold validIds in Hv. apply in_map_iff in Hv. destruct Hv as (t & <- & Ht).
    apply in_map. eapply In_firstn. exact Ht.
  - exists g, ids. auto.
Qed.

(* ================================================================== *)
(** * Lists: update in place and the stable sort *)

Section ListFacts.
Context {A : Type}.

Lemma update_nth_length (f : A -> A) (l : list A) i :
  List.length (update_nth i f l) = List.length l.
Proof.
  revert i. induction l as [|x l IH]; intros [|i]; simpl; auto.
Qed.

Lemma update_nth_same (f : A -> A) (l : list A) i x :
  nth_error l i = Some x -> nth_error (update_nth i f l) i = Some (f x).
Proof.
  revert i. induction l as [|y l IH]; intros [|i]; simpl; try discriminate.
  - now intros [= ->].
  - apply IH.
Qed.

Lemma update_nth_other (f : A -> A) (l : list A) i j :
  j <> i -> nth_error (update_nth i f l) j = nth_error l j.
Proof.
  revert i j. induction l as [|y l IH]; intros [|i] [|j] Hne; simpl; auto;
    try congruence.
Qed.

Lemma update_nth_split (f : A -> A) (l : list A) i x :
  nth_error l i = Some x ->
  exists l1 l2, l = l1 ++ x :: l2 /\ List.length l1 = i
                /\ update_nth i f l = l1 ++ f x :: l2.
Proof.
  revert i. induction l as [|y l IH]; intros [|i]; simpl; try discriminate.
  - intros [= ->]. now exists [], l.
  - intros H. destruct (IH _ H) as (l1 & l2 & -> & Hlen & ->).
    exists (y :: l1), l2. simpl. auto.
Qed.

Lemma update_nth_app_r (f : A -> A) (l1 l2 : list A) i :
  update_nth (List.length l1 + i) f (l1 ++ l2) = l1 ++ update_nth i f l2.
Proof.
  induction l1 as [|x l1 IH]; simpl; [reflexivity | now rewrite IH].
Qed.
End ListFacts.

Section SortFacts.
Context {F : Type}.

Lemma insert_by_size_perm (g : Group F) l : Permutation (insert_by_size g l) (g :: l).
Proof.
  induction l as [|h l IH]; simpl; [reflexivity|].
  destruct (g_size g <? g_size h)%nat; [|reflexivity].
  rewrite IH. apply perm_swap.
Qed.

Lemma sort_by_size_desc_perm (l : list (Group F)) : Permutation (sort_by_size_desc l) l.
Proof.
  induction l as [|g l IH]; simpl; [reflexivity|].
  rewrite insert_by_size_perm. now constructor.
Qed.

Lemma insert_by_size_sorted (g : Group F) l :
  sizes_descending l -> sizes_descending (insert_by_size g l).
Proof.
  induction l as [|h l IH]; simpl; [tauto|].
  intros [Hh Hl].
  destruct (Nat.ltb_spec (g_size g) (g_size h)) as [Hlt|Hge]; simpl.
  - split; [|auto].
    intros x Hx. apply (Permutation_in _ (insert_by_size_perm g l)) in Hx.
    destruct Hx as [<-|Hx]; [lia | auto].
  - split; [|tauto].
    intros x [<-|Hx]; [assumption|]. specialize (Hh _ Hx). lia.
Qed.

Lemma sort_by_size_desc_sorted (l : list (Group F)) :
  sizes_descending (sort_by_size_desc l).
Proof.
  induction l as [|g l IH]; simpl; [exact I | now apply insert_by_size_sorted].
Qed.

(** The sort looks at the sizes only. *)
Lemma insert_by_size_rel {G : Type} (R : Group F -> Group G -> Prop) :
  (forall a b, R a b -> g_size a = g_size b) ->
  forall a b l1 l2, R a b -> Forall2 R l1 l2 ->
    Forall2 R (insert_by_size a l1) (insert_by_size b l2).
Proof.
  intros Hsize a b l1 l2 Hab Hl. induction Hl as [|x y l1 l2 Hxy Hl IH]; simpl.
  - constructor; [assumption | constructor].
  - rewrite (Hsize _ _ Hab), (Hsize _ _ Hxy).
    destruct (g_size b <? g_size y)%nat; repeat constructor; assumption.
Qed.

Lemma sort_by_size_desc_rel {G : Type} (R : Group F -> Group G -> Prop) :
  (forall a b, R a b -> g_size a = g_size b) ->
  forall l1 l2, Forall2 R l1 l2 ->
    Forall2 R (sort_by_size_desc l1) (sort_by_size_desc l2).
Proof.
  intros Hsize l1 l2 Hl. induction Hl; simpl; [constructor|].
  now apply insert_by_size_rel.
Qed.
End SortFacts.

(* ================================================================== *)
(** * The assignment loop *)

Section Assignment.
Context {F : Type} {num : Number F}.
Variable URL_new : string -> option Url.
Variables (threshold : F) (now : Z) (rnd : nat -> string).

(** [bestIdx] stays below [groups.length]. *)
Lemma scan_range (fv : FV F) gs : forall i b s j,
  fst (scan fv gs i b s) = Some j ->
  b = Some j \/ (i <= j < i + List.length gs).
Proof.
  induction gs as [|g gs IH]; intros i b s j; simpl.
  - auto.
  - destruct (ngt (score fv g) s); intros H; apply IH in H.
    + destruct H as [[= ->]|H]; right; lia.
    + destruct H as [H|H]; [now left | right; lia].
Qed.

(** The two branches of one iteration. *)
Lemma assignTab_cases vecs (st : State F) (t : Tab) :
  let fv := vecs_get vecs (tab_id t) in
  (fst (scan fv (st_groups st) 0 None (nsub threshold NEW_GROUP_PENALTY)) = None
   /\ assignTab threshold now rnd vecs st t =
      {| st_groups := st_groups st ++ [newGroup now fv (tab_id t) (rnd (st_draws st))];
         st_assignments :=
           mset Z.eqb (st_assignments st) (tab_id t)
                (g_id (newGroup now fv (tab_id t) (rnd (st_draws st))));
         st_draws := S (st_draws st) |})
  \/ (exists i g,
        fst (scan fv (st_groups st) 0 None (nsub threshold NEW_GROUP_PENALTY)) = Some i
        /\ nth_error (st_groups st) i = Some g
        /\ assignTab threshold now rnd vecs st t =
           {| st_groups := update_nth i (joinGroup now fv (tab_id t)) (st_groups st);
              st_assignments := mset Z.eqb (st_assignments st) (tab_id t) (g_id g);
              st_draws := st_draws st |}).
Proof.
  intros fv. unfold assignTab. fold fv.
  destruct (fst (scan fv (st_groups st) 0 None (nsub threshold NEW_GROUP_PENALTY))) as [i|] eqn:E.
  - right. apply scan_range in E. destruct E as [E|E]; [discriminate|].
    destruct (nth_error (st_groups st) i) as [g|] eqn:En.
    + exists i, g. auto.
    + apply nth_error_None in En. lia.
  - left. auto.
Qed.

Lemma held_app (gs1 gs2 : list (Group F)) :
  held (gs1 ++ gs2) = held gs1 ++ held gs2.
Proof. unfold held. apply flat_map_app. Qed.

(** One iteration adds the tab's id to exactly one cluster. *)
Lemma assignTab_held vecs st t :
  Permutation (held (st_groups (assignTab threshold now rnd vecs st t)))
              (held (st_groups st) ++ [tab_id t]).
Proof.
  destruct (assignTab_cases vecs st t) as [[_ ->]|(i & g & _ & Hn & ->)]; simpl.
  - rewrite held_app. simpl. reflexivity.
  - destruct (update_nth_split (joinGroup now (vecs_get vecs (tab_id t)) (tab_id t)) _ _ _ Hn)
      as (l1 & l2 & -> & _ & ->).
    rewrite !held_app. simpl. rewrite <- !app_assoc.
    apply Permutation_app_head. apply Permutation_app_head.
    apply Permutation_app_comm.
Qed.

Lemma In_held id (gs : list (Group F)) :
  In id (held gs) <-> exists g, In g gs /\ In id (g_tabIds g).
Proof. unfold held. apply in_flat_map. Qed.

Lemma assignTab_table vecs st t :
  table_agrees (st_groups st) (st_assignments st) ->
  table_agrees (st_groups (assignTab threshold now rnd vecs st t))
               (st_assignments (assignTab threshold now rnd vecs st t)).
Proof.
  intros Hinv id Hid.
  pose proof (assignTab_held vecs st t) as Hperm.
  apply (Permutation_in _ Hperm) in Hid.
  destruct (assignTab_cases vecs st t) as [[_ ->]|(i & g & _ & Hn & ->)]; simpl.
  - destruct (Z.eq_dec id (tab_id t)) as [->|Hne].
    + eexists. split; [apply in_or_app; right; left; reflexivity|].
      split; [simpl; auto | apply (mget_mset_same _ Zeqb_eq)].
    + apply in_app_or in Hid. destruct Hid as [Hid|[Hid|[]]]; [|congruence].
      destruct (Hinv _ Hid) as (h & Hh & Hin & Hget).
      exists h. split; [apply in_or_app; now left|]. split; [assumption|].
      rewrite (mget_mset_other _ Zeqb_eq) by congruence. assumption.
  - destruct (update_nth_split (joinGroup now (vecs_get vecs (tab_id t)) (tab_id t)) _ _ _ Hn)
      as (l1 & l2 & Hsplit & _ & ->).
    destruct (Z.eq_dec id (tab_id t)) as [->|Hne].
    + eexists. split; [apply in_or_app; right; left; reflexivity|].
      split; [simpl; apply in_or_app; right; now left|].
      simpl. apply (mget_mset_same _ Zeqb_eq).
    + apply in_app_or in Hid. destruct Hid as [Hid|[Hid|[]]]; [|congruence].
      destruct (Hinv _ Hid) as (h & Hh & Hin & Hget).
      rewrite (mget_mset_other _ Zeqb_eq) by congruence.
      rewrite Hsplit in Hh. apply in_app_or in Hh. destruct Hh as [Hh|[<-|Hh]].
      * exists h. split; [apply in_or_app; now left | auto].
      * eexists. split; [apply in_or_app; right; left; reflexivity|].
        simpl. split; [apply in_or_app; now left | assumption].
      * exists h. split; [apply in_or_app; right; now right | auto].
Qed.

Lemma assignTab_sizes vecs st t :
  sizes_count (st_groups st) ->
  sizes_count (st_groups (assignTab threshold now rnd vecs st t)).
Proof.
  unfold sizes_count. intros Hinv.
  destruct (assignTab_cases vecs st t) as [[_ ->]|(i & g & _ & Hn & ->)]; simpl.
  - apply Forall_app. split; [assumption | repeat constructor].
  - destruct (update_nth_split (joinGroup now (vecs_get vecs (tab_id t)) (tab_id t)) _ _ _ Hn)
      as (l1 & l2 & Hsplit & _ & ->).
    rewrite Hsplit in Hinv. apply Forall_app in Hinv. destruct Hinv as [H1 H2].
    inversion H2 as [|? ? Hg H2']; subst.
    apply Forall_app. split; [assumption|]. constructor; [|assumption].
    simpl. rewrite length_app. simpl. lia.
Qed.

(** The three invariants along the whole loop. *)
Lemma loop_invariants vecs (tabs : list Tab) : forall st,
  table_agrees (st_groups st) (st_assignments st) ->
  sizes_count (st_groups st) ->
  let st' := fold_left (assignTab threshold now rnd vecs) tabs st in
  Permutation (held (st_groups st')) (held (st_groups st) ++ map tab_id tabs)
  /\ table_agrees (st_groups st') (st_assignments st')
  /\ sizes_count (st_groups st').
Proof.
  induction tabs as [|t tabs IH]; intros st Ht Hs; simpl.
  - rewrite app_nil_r. auto.
  - destruct (IH (assignTab threshold now rnd vecs st t)) as (Hp & Ht' & Hs').
    + now apply assignTab_table.
    + now apply assignTab_sizes.
    + split; [|auto].
      rewrite Hp, assignTab_held, <- app_assoc. reflexivity.
Qed.

Lemma initState_held (prev : list (Group F)) :
  held (st_groups (initState now prev)) = [].
Proof.
  unfold initState, held. simpl. induction prev as [|g prev IH]; simpl; auto.
Qed.

Lemma initState_sizes prev : sizes_count (st_groups (initState (F:=F) now prev)).
Proof.
  unfold initState, sizes_count. simpl. apply Forall_forall.
  intros g Hg. apply in_map_iff in Hg. destruct Hg as (g0 & <- & _). reflexivity.
Qed.

Lemma runLoop_invariants batch (prev : list (Group F)) tabs :
  let st := runLoop URL_new threshold now rnd batch prev tabs in
  Permutation (held (st_groups st)) (map tab_id tabs)
  /\ table_agrees (st_groups st) (st_assignments st)
  /\ sizes_count (st_groups st).
Proof.
  unfold runLoop.
  destruct (loop_invariants (build_vecs URL_new batch) tabs (initState now prev))
    as (Hp & Ht & Hs).
  - intros id Hid. rewrite initState_held in Hid. destruct Hid.
  - apply initState_sizes.
  - rewrite initState_held in Hp. auto.
Qed.
End Assignment.

(* ================================================================== *)
(** * The output of [clusterTabs] *)

Lemma NoDup_app_disjoint {A : Type} (l1 l2 : list A) :
  NoDup (l1 ++ l2) -> forall a, In a l1 -> ~ In a l2.
Proof.
  induction l1 as [|x l1 IH]; simpl; [tauto|].
  intros Hnd a [->|Ha] Hin.
  - inversion Hnd as [|? ? Hx _]; subst. apply Hx. apply in_or_app. now right.
  - inversion Hnd; subst. now apply (IH H2 a).
Qed.

Section Partition.
Context {F : Type} {num : Number F}.

Lemma held_filter_nonempty (gs : list (Group F)) :
  held (filter (fun g => (0 <? List.length (g_tabIds g))%nat) gs) = held gs.
Proof.
  unfold held. induction gs as [|g gs IH]; simpl; [reflexivity|].
  destruct (g_tabIds g) as [|x l] eqn:E; simpl.
  - exact IH.
  - rewrite E, IH. reflexivity.
Qed.

Lemma held_perm (gs gs' : list (Group F)) :
  Permutation gs gs' -> Permutation (held gs) (held gs').
Proof. intros H. unfold held. now apply Permutation_flat_map. Qed.

Lemma clusters_with_none id (gs : list (Group F)) :
  ~ In id (held gs) -> clusters_with id gs = [].
Proof.
  unfold clusters_with, held. induction gs as [|g gs IH]; simpl; [reflexivity|].
  intros Hn. destruct (id_in (g_tabIds g) id) eqn:E.
  - apply id_in_In in E. exfalso. apply Hn. apply in_or_app. now left.
  - apply IH. intros H. apply Hn. apply in_or_app. now right.
Qed.

(** When no id is held twice, an id that is held is held by one
    cluster, once. *)
Lemma unique_holder id (gs : list (Group F)) :
  NoDup (held gs) -> In id (held gs) ->
  exists g, clusters_with id gs = [g] /\ count_occ Z.eq_dec (g_tabIds g) id = 1.
Proof.
  induction gs as [|g gs IH]; simpl; [tauto|].
  intros Hnd Hin.
  change (held (g :: gs)) with (g_tabIds g ++ held gs) in Hnd.
  pose proof (NoDup_app_remove_r _ _ Hnd) as Hg.
  pose proof (NoDup_app_remove_l _ _ Hnd) as Hgs.
  unfold clusters_with. simpl.
  destruct (id_in (g_tabIds g) id) eqn:E.
  - apply id_in_In in E. exists g. split.
    + f_equal. apply clusters_with_none. intros Hin'.
      exact (NoDup_app_disjoint _ _ Hnd _ E Hin').
    + apply NoDup_count_occ'; assumption.
  - apply in_app_or in Hin. destruct Hin as [Hin|Hin].
    + apply id_in_In in Hin. congruence.
    + now apply IH.
Qed.
End Partition.

Section PartitionTheorem.
Context {F : Type} {num : Number F}.
Variable URL_new : string -> option Url.

Lemma clusterTabs_held now rnd tabs (prev : list (Group F)) threshold :
  Permutation (held (groups (clusterTabs URL_new now rnd tabs prev threshold)))
              (map tab_id tabs).
Proof.
  unfold clusterTabs. simpl.
  rewrite (held_perm _ _ (sort_by_size_desc_perm _)).
  rewrite held_filter_nonempty.
  apply (runLoop_invariants URL_new threshold now rnd tabs prev tabs).
Qed.

Lemma clusterTabs_groups_In now rnd tabs (prev : list (Group F)) threshold g :
  In g (groups (clusterTabs URL_new now rnd tabs prev threshold)) <->
  In g (st_groups (runLoop URL_new threshold now rnd tabs prev tabs))
  /\ g_tabIds g <> [].
Proof.
  unfold clusterTabs. simpl. split.
  - intros H. apply (Permutation_in _ (sort_by_size_desc_perm _)) in H.
    apply filter_In in H. destruct H as [H1 H2]. split; [assumption|].
    intros E. rewrite E in H2. discriminate.
  - intros [H1 H2].
    apply (Permutation_in _ (Permutation_sym (sort_by_size_desc_perm _))).
    apply filter_In. split; [assumption|].
    destruct (g_tabIds g); [contradiction | reflexivity].
Qed.

(** C1: when the tab ids of the batch are pairwise distinct, as the
    ids of open tabs are, the output of [clusterTabs] is a partition
    of the batch for every seed set and every threshold: each input id
    is held by exactly one output cluster (and once), the assignment
    table sends it to the id of that cluster, the clusters hold no
    other id, and no output cluster is empty. *)
Theorem clusterTabs_partition :
  forall (now : Z) (rnd : nat -> string) (tabs : list Tab)
         (prev : list (Group F)) (threshold : F),
    NoDup (map tab_id tabs) ->
    partition_of (map tab_id tabs)
                 (clusterTabs URL_new now rnd tabs prev threshold).
Proof.
  intros now rnd tabs prev threshold Hnd.
  pose proof (clusterTabs_held now rnd tabs prev threshold) as Hperm.
  destruct (runLoop_invariants URL_new threshold now rnd tabs prev tabs)
    as (Hp0 & Htab & _).
  assert (Hnd' : NoDup (held (groups (clusterTabs URL_new now rnd tabs prev threshold)))).
  { apply (Permutation_NoDup (Permutation_sym Hperm)). exact Hnd. }
  repeat split.
  - intros id Hid.
    assert (Hheld : In id (held (groups (clusterTabs URL_new now rnd tabs prev threshold)))).
    { apply (Permutation_in _ (Permutation_sym Hperm)). exact Hid. }
    destruct (unique_holder id _ Hnd' Hheld) as (g & Hone & Hcount).
    exists g. repeat split; [assumption | assumption |].
    assert (Hheld0 : In id (held (st_groups (runLoop URL_new threshold now rnd tabs prev tabs)))).
    { apply (Permutation_in _ (Permutation_sym Hp0)). exact Hid. }
    destruct (Htab _ Hheld0) as (g0 & Hg0 & Hin0 & Hget).
    assert (Hg0' : In g0 (clusters_with id
                            (groups (clusterTabs URL_new now rnd tabs prev threshold)))).
    { apply filter_In. split.
      - apply clusterTabs_groups_In. split; [assumption|].
        intros E. rewrite E in Hin0. destruct Hin0.
      - now apply id_in_In. }
    rewrite Hone in Hg0'. destruct Hg0' as [<-|[]]. exact Hget.
  - intros g id Hg Hin.
    apply (Permutation_in _ Hperm). apply In_held. now exists g.
  - intros g Hg. apply clusterTabs_groups_In in Hg. tauto.
Qed.
End PartitionTheorem.

(** The hypothesis on the ids is used: when a batch names the same
    tab id twice, both occurrences are placed, possibly in two
    clusters. *)
Lemma repeated_id_remark :
  membership (groups (clusterTabs (F:=float) no_urls 0 sample_rnd
                                  [titled 1 ""; titled 1 ""] [] DEFAULT_SIM_THRESHOLD))
  = [[1%Z]; [1%Z]].
Proof. vm_compute. reflexivity. Qed.

Lemma clusterTabs_partition_witness :
  NoDup (map tab_id scenario_tabs)
  /\ partition_of (map tab_id scenario_tabs)
       (clusterTabs (F:=float) no_urls 0 sample_rnd scenario_tabs []
                    DEFAULT_SIM_THRESHOLD).
Proof.
  assert (H : NoDup (map tab_id scenario_tabs)).
  { simpl. repeat constructor; simpl; intuition discriminate. }
  split; [exact H|].
  apply (clusterTabs_partition no_urls 0%Z sample_rnd scenario_tabs [] DEFAULT_SIM_THRESHOLD H).
Defined.

(* ================================================================== *)
(** * The divergence evaluator *)

Section TopDivergence.
Context {F : Type} {num : Number F}.
Variable URL_new : string -> option Url.

Lemma sizes_count_perm (l l' : list (Group F)) :
  Permutation l l' -> sizes_count l -> sizes_count l'.
Proof. unfold sizes_count. intros H. now apply Permutation_Forall. Qed.

Lemma clusterTabs_sizes_count now rnd tabs (prev : list (Group F)) threshold :
  sizes_count (groups (clusterTabs URL_new now rnd tabs prev threshold)).
Proof.
  unfold clusterTabs. simpl.
  apply (sizes_count_perm _ _ (Permutation_sym (sort_by_size_desc_perm _))).
  destruct (runLoop_invariants URL_new threshold now rnd tabs prev tabs) as (_ & _ & Hs).
  unfold sizes_count in *. rewrite Forall_forall in *.
  intros g Hg. apply filter_In in Hg. now apply Hs.
Qed.

(** C10: [topDivergence] answers a null pair and score 0 for a missing
    list, the empty list and a one-element list; for a list of at least
    two groups it answers the first two elements and their
    [divergenceScore].  The groups [clusterTabs] returns are in
    descending order of size, each size being the number of member
    tabs, so on such a list the first two are two largest clusters. *)
Theorem topDivergence_first_two :
  topDivergence (F:=F) None = (None, zero)
  /\ topDivergence (F:=F) (Some []) = (None, zero)
  /\ (forall g : Group F, topDivergence (Some [g]) = (None, zero))
  /\ (forall (g1 g2 : Group F) rest,
        topDivergence (Some (g1 :: g2 :: rest)) = (Some (g1, g2), divergenceScore g1 g2))
  /\ (forall now rnd tabs (prev : list (Group F)) threshold,
        sizes_descending (groups (clusterTabs URL_new now rnd tabs prev threshold))
        /\ sizes_count (groups (clusterTabs URL_new now rnd tabs prev threshold))).
Proof.
  repeat split; try reflexivity.
  - unfold clusterTabs. simpl. apply sort_by_size_desc_sorted.
  - apply clusterTabs_sizes_count.
Qed.
End TopDivergence.

(* ================================================================== *)
(** * The partition does not depend on the generated ids *)

Section Shape.
Context {F : Type} {num : Number F}.
Variable URL_new : string -> option Url.
Variable threshold : F.

Lemma score_same_shape (fv : FV F) g1 g2 :
  same_shape g1 g2 -> score fv g1 = score fv g2.
Proof.
  intros (_ & Hc & Hs). unfold score. now rewrite Hc, Hs.
Qed.

Lemma scan_same_shape (fv : FV F) gs1 gs2 :
  Forall2 same_shape gs1 gs2 ->
  forall i b s, scan fv gs1 i b s = scan fv gs2 i b s.
Proof.
  induction 1 as [|g1 g2 gs1 gs2 Hg Hgs IH]; intros i b s; simpl; [reflexivity|].
  rewrite (score_same_shape fv _ _ Hg). now rewrite !IH.
Qed.

Lemma update_nth_same_shape (f1 f2 : Group F -> Group F) gs1 gs2 :
  (forall a b, same_shape a b -> same_shape (f1 a) (f2 b)) ->
  Forall2 same_shape gs1 gs2 ->
  forall i, Forall2 same_shape (update_nth i f1 gs1) (update_nth i f2 gs2).
Proof.
  intros Hf. induction 1 as [|g1 g2 gs1 gs2 Hg Hgs IH]; intros [|i]; simpl;
    constructor; auto.
Qed.

Lemma joinGroup_same_shape now1 now2 (fv : FV F) id g1 g2 :
  same_shape g1 g2 -> same_shape (joinGroup now1 fv id g1) (joinGroup now2 fv id g2).
Proof.
  intros (Ht & Hc & Hs). unfold same_shape, joinGroup. simpl.
  now rewrite Ht, Hc, Hs.
Qed.

Lemma assignTab_same_shape now1 now2 rnd1 rnd2 vecs (st1 st2 : State F) t :
  Forall2 same_shape (st_groups st1) (st_groups st2) ->
  Forall2 same_shape
    (st_groups (assignTab threshold now1 rnd1 vecs st1 t))
    (st_groups (assignTab threshold now2 rnd2 vecs st2 t)).
Proof.
  intros Hrel.
  pose proof (Forall2_length Hrel) as Hlen.
  destruct (assignTab_cases threshold now1 rnd1 vecs st1 t)
    as [[E1 ->]|(i1 & g1 & E1 & Hn1 & ->)];
  destruct (assignTab_cases threshold now2 rnd2 vecs st2 t)
    as [[E2 ->]|(i2 & g2 & E2 & Hn2 & ->)];
  rewrite (scan_same_shape _ _ _ Hrel) in E1; rewrite E1 in E2;
    try discriminate; simpl.
  - apply Forall2_app; [assumption|]. repeat constructor.
  - injection E2 as <-.
    apply update_nth_same_shape; [|assumption].
    intros a b. apply joinGroup_same_shape.
Qed.

Lemma loop_same_shape now1 now2 rnd1 rnd2 vecs tabs : forall (st1 st2 : State F),
  Forall2 same_shape (st_groups st1) (st_groups st2) ->
  Forall2 same_shape
    (st_groups (fold_left (assignTab threshold now1 rnd1 vecs) tabs st1))
    (st_groups (fold_left (assignTab threshold now2 rnd2 vecs) tabs st2)).
Proof.
  induction tabs as [|t tabs IH]; intros st1 st2 Hrel; simpl; [assumption|].
  apply IH. now apply assignTab_same_shape.
Qed.

Lemma filter_same_shape (gs1 gs2 : list (Group F)) :
  Forall2 same_shape gs1 gs2 ->
  Forall2 same_shape
    (filter (fun g => (0 <? List.length (g_tabIds g))%nat) gs1)
    (filter (fun g => (0 <? List.length (g_tabIds g))%nat) gs2).
Proof.
  induction 1 as [|g1 g2 gs1 gs2 Hg Hgs IH]; simpl; [constructor|].
  destruct Hg as (Ht & Hc & Hs). rewrite Ht.
  destruct (0 <? List.length (g_tabIds g2))%nat; [constructor|]; auto.
  repeat split; assumption.
Qed.

Lemma membership_same_shape (gs1 gs2 : list (Group F)) :
  Forall2 same_shape gs1 gs2 -> membership gs1 = membership gs2.
Proof.
  unfold membership. induction 1 as [|g1 g2 gs1 gs2 Hg Hgs IH]; simpl; [reflexivity|].
  destruct Hg as (-> & _). now rewrite IH.
Qed.

Lemma clusterTabs_same_shape now1 now2 rnd1 rnd2 tabs (prev : list (Group F)) :
  Forall2 same_shape
    (groups (clusterTabs URL_new now1 rnd1 tabs prev threshold))
    (groups (clusterTabs URL_new now2 rnd2 tabs prev threshold)).
Proof.
  unfold clusterTabs. simpl.
  apply sort_by_size_desc_rel; [intros a b (_ & _ & H); exact H|].
  apply filter_same_shape. unfold runLoop. apply loop_same_shape.
  unfold initState. simpl. induction prev as [|g prev IH]; simpl; constructor; auto.
  repeat split.
Qed.

(** C7: two runs of [clusterTabs] on the same batch with no seeds,
    whatever ids [groupIdFrom] draws in each and whatever the clock
    reads, return the same membership partition: the same lists of tab
    ids, in the same order of clusters. *)
Theorem clusterTabs_partition_independent_of_ids :
  forall (now1 now2 : Z) (rnd1 rnd2 : nat -> string) (tabs : list Tab),
    membership (groups (clusterTabs URL_new now1 rnd1 tabs [] threshold))
    = membership (groups (clusterTabs URL_new now2 rnd2 tabs [] threshold)).
Proof.
  intros. apply membership_same_shape. apply clusterTabs_same_shape.
Qed.
End Shape.

(* ================================================================== *)
(** * Restart: seeds without centroid *)

Section Restart.
Context {F : Type} {num : Number F}.
Variable URL_new : string -> option Url.
Variables (threshold : F) (now : Z) (rnd : nat -> string).

(** Nothing scores above the bar against an empty centroid. *)
Hypothesis bar_not_below_zero : ngt zero (nsub threshold NEW_GROUP_PENALTY) = false.

Lemma cosine_empty_r (v : vec F) : cosine v [] = zero.
Proof. unfold cosine. simpl. now rewrite orb_true_r. Qed.

Lemma cosine_empty_l (v : vec F) : cosine [] v = zero.
Proof. reflexivity. Qed.

Lemma score_dead_seed (fv : FV F) g : dead_seed g -> score fv g = zero.
Proof.
  intros (Hc & Hs & _). unfold score. rewrite Hc, Hs, cosine_empty_r.
  simpl. now rewrite andb_false_r.
Qed.

Lemma scan_shift (fv : FV F) gs k : forall i b s,
  scan fv gs (k + i) (option_map (Nat.add k) b) s =
  (option_map (Nat.add k) (fst (scan fv gs i b s)), snd (scan fv gs i b s)).
Proof.
  induction gs as [|g gs IH]; intros i b s; simpl; [reflexivity|].
  replace (S (k + i)) with (k + S i) by lia.
  destruct (ngt (score fv g) s).
  - apply (IH (S i) (Some i)).
  - apply IH.
Qed.

Lemma scan_dead_prefix (fv : FV F) dead gs :
  Forall dead_seed dead ->
  forall i, scan fv (dead ++ gs) i None (nsub threshold NEW_GROUP_PENALTY)
            = scan fv gs (i + List.length dead) None (nsub threshold NEW_GROUP_PENALTY).
Proof.
  induction 1 as [|g dead Hg Hdead IH]; intros i; simpl.
  - now rewrite Nat.add_0_r.
  - rewrite (score_dead_seed fv g Hg), bar_not_below_zero, IH.
    f_equal. lia.
Qed.

Lemma scan_behind_dead (fv : FV F) dead gs :
  Forall dead_seed dead ->
  fst (scan fv (dead ++ gs) 0 None (nsub threshold NEW_GROUP_PENALTY))
  = option_map (Nat.add (List.length dead))
      (fst (scan fv gs 0 None (nsub threshold NEW_GROUP_PENALTY))).
Proof.
  intros Hdead. rewrite (scan_dead_prefix fv dead gs Hdead). simpl.
  pose proof (scan_shift fv gs (List.length dead) 0 None
                (nsub threshold NEW_GROUP_PENALTY)) as H.
  simpl in H. rewrite Nat.add_0_r in H. now rewrite H.
Qed.

Lemma assignTab_behind dead vecs (st1 st2 : State F) t :
  Forall dead_seed dead ->
  behind dead st1 st2 ->
  behind dead (assignTab threshold now rnd vecs st1 t)
              (assignTab threshold now rnd vecs st2 t).
Proof.
  intros Hdead (Hg & Ha & Hd).
  pose proof (scan_behind_dead (vecs_get vecs (tab_id t)) dead (st_groups st2) Hdead) as Hscan.
  rewrite <- Hg in Hscan.
  destruct (assignTab_cases threshold now rnd vecs st2 t)
    as [[E2 ->]|(i2 & g2 & E2 & Hn2 & ->)];
  destruct (assignTab_cases threshold now rnd vecs st1 t)
    as [[E1 ->]|(i1 & g1 & E1 & Hn1 & ->)];
  rewrite E2, E1 in Hscan; try discriminate; unfold behind; simpl.
  - rewrite Hg, Ha, Hd, <- app_assoc. auto.
  - injection Hscan as ->.
    rewrite Hg in Hn1. rewrite nth_error_app2 in Hn1 by lia.
    replace (List.length dead + i2 - List.length dead) with i2 in Hn1 by lia.
    rewrite Hn2 in Hn1. injection Hn1 as <-.
    rewrite Hg, Ha, Hd, update_nth_app_r. auto.
Qed.

Lemma loop_behind dead vecs tabs : forall (st1 st2 : State F),
  Forall dead_seed dead ->
  behind dead st1 st2 ->
  behind dead (fold_left (assignTab threshold now rnd vecs) tabs st1)
              (fold_left (assignTab threshold now rnd vecs) tabs st2).
Proof.
  induction tabs as [|t tabs IH]; intros st1 st2 Hdead Hrel; simpl; [assumption|].
  apply IH; [assumption|]. now apply assignTab_behind.
Qed.

Lemma filter_dead (dead gs : list (Group F)) :
  Forall dead_seed dead ->
  filter (fun g => (0 <? List.length (g_tabIds g))%nat) (dead ++ gs)
  = filter (fun g => (0 <? List.length (g_tabIds g))%nat) gs.
Proof.
  induction 1 as [|g dead (_ & _ & Hg) Hdead IH]; simpl; [reflexivity|].
  now rewrite Hg.
Qed.

(** Seeds whose centroids are all empty leave no trace in the output. *)
Lemma clusterTabs_empty_centroid_seeds tabs (prev : list (Group F)) :
  Forall (fun g => g_centroid g = []) prev ->
  clusterTabs URL_new now rnd tabs prev threshold
  = clusterTabs URL_new now rnd tabs [] threshold.
Proof.
  intros Hprev.
  assert (Hdead : Forall dead_seed (map (cloneGroup now) prev)).
  { apply Forall_forall. intros g Hg. apply in_map_iff in Hg.
    destruct Hg as (g0 & <- & Hg0). rewrite Forall_forall in Hprev.
    repeat split. simpl. now apply Hprev. }
  destruct (loop_behind (map (cloneGroup now) prev) (build_vecs URL_new tabs) tabs
              (initState now prev) (initState now []) Hdead) as (Hg & Ha & _).
  { unfold behind, initState. simpl. now rewrite app_nil_r. }
  unfold clusterTabs, runLoop. rewrite Hg, Ha, (filter_dead _ _ Hdead). reflexivity.
Qed.

Lemma assignTab_unlabelled vecs (st : State F) t :
  Forall unlabelled (st_groups st) ->
  Forall unlabelled (st_groups (assignTab threshold now rnd vecs st t)).
Proof.
  intros Hinv.
  destruct (assignTab_cases threshold now rnd vecs st t)
    as [[_ ->]|(i & g & _ & Hn & ->)]; simpl.
  - apply Forall_app. split; [assumption | repeat constructor].
  - destruct (update_nth_split (joinGroup now (vecs_get vecs (tab_id t)) (tab_id t)) _ _ _ Hn)
      as (l1 & l2 & Hsplit & _ & ->).
    rewrite Hsplit in Hinv. apply Forall_app in Hinv. destruct Hinv as [H1 H2].
    inversion H2 as [|? ? Hg H2']; subst.
    apply Forall_app. split; [assumption|]. constructor; assumption.
Qed.

Lemma loop_unlabelled vecs tabs : forall st : State F,
  Forall unlabelled (st_groups st) ->
  Forall unlabelled (st_groups (fold_left (assignTab threshold now rnd vecs) tabs st)).
Proof.
  induction tabs as [|t tabs IH]; intros st Hst; simpl; [assumption|].
  apply IH. now apply assignTab_unlabelled.
Qed.

Lemma clusterTabs_unseeded_unlabelled tabs :
  Forall unlabelled (groups (clusterTabs (F:=F) URL_new now rnd tabs [] threshold)).
Proof.
  unfold clusterTabs. simpl.
  apply (Permutation_Forall (Permutation_sym (sort_by_size_desc_perm _))).
  apply Forall_forall. intros g Hg. apply filter_In in Hg. destruct Hg as [Hg _].
  revert g Hg. apply Forall_forall.
  unfold runLoop. apply loop_unlabelled. constructor.
Qed.
End Restart.

Lemma loadGroups_persistGroups {F : Type} (restored_at : Z) (before : list (Group F)) :
  Forall2 (fun g r : Group F =>
             g_id r = g_id g /\ g_label r = g_label g
             /\ g_summary r = g_summary g /\ g_tabIds r = g_tabIds g
             /\ g_size r = g_size g /\ g_centroid r = [])
          before (loadGroups restored_at (persistGroups before)).
Proof.
  induction before as [|g before IH]; simpl; constructor; [|exact IH].
  repeat split.
Qed.

(** What the restored seeds are worth to the recompute.  [loadState]
    after [persistState] gives every cluster back with its id, label,
    summary, [tabIds] and size, and with an empty centroid.  No tab
    scores above [0.6 - 0.02] against an empty centroid, so no tab
    joins a restored cluster: the recompute returns exactly what
    [clusterTabs] returns on the snapshot with no seeds at all, and
    every cluster of its output is a new one with empty label and
    summary.  The id, label and summary that were stored and restored
    for the next regrouping never reach its output. *)
Lemma restart_recompute_forgets_seeds :
  forall (URL_new : string -> option Url) (before : list (Group float))
         (restored_at now : Z) (rnd : nat -> string) (snapshot : list Tab),
    let restored : list (Group float) := loadGroups restored_at (persistGroups before) in
    Forall2 (fun g r : Group float =>
               g_id r = g_id g /\ g_label r = g_label g
               /\ g_summary r = g_summary g /\ g_tabIds r = g_tabIds g
               /\ g_size r = g_size g /\ g_centroid r = [])
            before restored
    /\ recompute URL_new now rnd snapshot restored = recompute URL_new now rnd snapshot []
    /\ Forall unlabelled (groups (recompute URL_new now rnd snapshot restored)).
Proof.
  intros URL_new before restored_at now rnd snapshot restored.
  pose proof (loadGroups_persistGroups restored_at before) as Hload. fold restored in Hload.
  assert (E : recompute URL_new now rnd snapshot restored
              = recompute URL_new now rnd snapshot []).
  { unfold recompute. apply clusterTabs_empty_centroid_seeds.
    - vm_compute. reflexivity.
    - unfold restored, loadGroups, persistGroups. rewrite map_map.
      apply Forall_forall. intros r Hr. apply in_map_iff in Hr.
      destruct Hr as (g & <- & _). reflexivity. }
  split; [exact Hload|]. split; [exact E|].
  rewrite E. unfold recompute. apply clusterTabs_unseeded_unlabelled.
Qed.

(** C4: restart reconciliation fails on the sample history.  The
    published clusters hold tab 1 and tab 2 apart; persisted, restored
    and recomputed on the same snapshot, the two tabs fall into one
    cluster, so the membership partition is not reproduced. *)
Theorem restart_changes_partition :
  membership published = [[1%Z]; [2%Z]]
  /\ membership (groups (recompute no_urls 2 other_rnd snapshot_tabs
                           (loadGroups (F:=float) 2 (persistGroups published))))
     = [[1%Z; 2%Z]]
  /\ ~ restart_reconciles published
         (groups (recompute no_urls 2 other_rnd snapshot_tabs
                    (loadGroups (F:=float) 2 (persistGroups published)))).
Proof.
  assert (E1 : membership published = [[1%Z]; [2%Z]]) by (vm_compute; reflexivity).
  assert (E2 : membership (groups (recompute no_urls 2 other_rnd snapshot_tabs
                                     (loadGroups (F:=float) 2 (persistGroups published))))
               = [[1%Z; 2%Z]]) by (vm_compute; reflexivity).
  split; [exact E1 | split; [exact E2|]].
  intros (H & _). rewrite E1, E2 in H.
  destruct (H [1%Z; 2%Z] (or_introl eq_refl)) as (ids' & Hin & Hperm).
  apply Permutation_length in Hperm.
  destruct Hin as [<-|[<-|[]]]; discriminate.
Qed.

(** A cluster with a label and a summary whose membership the
    recompute after a restart does reproduce: the label, the summary
    and the id are lost all the same. *)
Lemma restart_drops_labels :
  let after :=
    groups (recompute no_urls 2 other_rnd [titled 1 "alpha"]
              (loadGroups (F:=float) 2 (persistGroups labelled_before))) in
  membership labelled_before = [[1%Z]]
  /\ membership after = [[1%Z]]
  /\ map (fun g => (g_id g, g_label g, g_summary g)) labelled_before
     = [("alpha-k3x9ab", "Greek letters", "One tab about alpha")]
  /\ map (fun g => (g_id g, g_label g, g_summary g)) after = [("alpha-zzzzz0", "", "")]
  /\ ~ restart_reconciles labelled_before after.
Proof.
  intros after.
  assert (E : map (fun g => (g_id g, g_label g, g_summary g)) after
              = [("alpha-zzzzz0", "", "")]) by (vm_compute; reflexivity).
  assert (Em : membership after = [[1%Z]]) by (vm_compute; reflexivity).
  split; [reflexivity|]. split; [exact Em|]. split; [reflexivity|]. split; [exact E|].
  intros (_ & _ & H).
  destruct after as [|g' [|g2 rest]]; try discriminate.
  injection E as _ El _. injection Em as Em.
  destruct (H _ g' (or_introl eq_refl) (or_introl eq_refl)) as [Hl _].
  { rewrite Em. apply Permutation_refl. }
  rewrite El in Hl. discriminate.
Qed.

(* ================================================================== *)
(** * The precomputed vectors *)

Section Vectors.
Context {F : Type} {num : Number F}.
Variable URL_new : string -> option Url.

Lemma build_vecs_snoc (tabs : list Tab) t :
  build_vecs (F:=F) URL_new (tabs ++ [t])
  = mset Z.eqb (build_vecs URL_new tabs) (tab_id t) (tabVector URL_new t).
Proof. unfold build_vecs. now rewrite fold_left_app. Qed.

(** Every id of the batch is a key of [vecs]; the vector stored under
    it is the one of a tab of the batch with that id. *)
Lemma vecs_get_present (tabs : list Tab) t :
  In t tabs ->
  exists t', In t' tabs /\ tab_id t' = tab_id t
             /\ mget Z.eqb (build_vecs (F:=F) URL_new tabs) (tab_id t)
                = Some (tabVector URL_new t').
Proof.
  induction tabs as [|x tabs IH] using rev_ind; [intros []|].
  intros Hin. rewrite build_vecs_snoc.
  destruct (Z.eq_dec (tab_id x) (tab_id t)) as [E|E].
  - exists x. split; [apply in_or_app; right; now left|]. split; [assumption|].
    rewrite <- E. apply (mget_mset_same _ Zeqb_eq).
  - apply in_app_or in Hin. destruct Hin as [Hin|[->|[]]]; [|congruence].
    destruct (IH Hin) as (t' & Ht' & Hid & Hget).
    exists t'. split; [apply in_or_app; now left|]. split; [assumption|].
    now rewrite (mget_mset_other _ Zeqb_eq).
Qed.

(** With distinct ids the vector looked up for a tab is its own. *)
Lemma vecs_get_own (tabs : list Tab) t :
  NoDup (map tab_id tabs) -> In t tabs ->
  vecs_get (build_vecs (F:=F) URL_new tabs) (tab_id t) = tabVector URL_new t.
Proof.
  intros Hnd Hin. unfold vecs_get.
  destruct (vecs_get_present tabs t Hin) as (t' & Ht' & Hid & ->).
  f_equal.
  clear - Hnd Hin Ht' Hid. induction tabs as [|x tabs IH]; [destruct Hin|].
  simpl in Hnd. inversion Hnd as [|? ? Hx Hnd']; subst.
  destruct Hin as [->|Hin], Ht' as [->|Ht']; auto.
  - exfalso. apply Hx. rewrite <- Hid. now apply in_map.
  - exfalso. apply Hx. rewrite Hid. now apply in_map.
Qed.

Lemma runLoop_snoc threshold now rnd batch (prev : list (Group F)) tabs t :
  runLoop URL_new threshold now rnd batch prev (tabs ++ [t])
  = assignTab threshold now rnd (build_vecs URL_new batch)
              (runLoop URL_new threshold now rnd batch prev tabs) t.
Proof. unfold runLoop. now rewrite fold_left_app. Qed.

(** On clusters whose size counts their members the score of the code
    is the score of the specification. *)
Lemma score_is_spec_score (fv : FV F) g :
  g_size g = List.length (g_tabIds g) -> score fv g = spec_score fv g.
Proof.
  intros Hs. unfold score, spec_score. rewrite <- Hs.
  destruct (negb (String.eqb (fv_host fv) "")), (2 <=? g_size g)%nat,
    (shas (g_centroid g) (hostToken (fv_host fv))); reflexivity.
Qed.
End Vectors.

(* ================================================================== *)
(** * Exact arithmetic *)

Section RealFacts.
Lemma real_gt_true (a b : R) : ngt a b = true <-> (b < a)%R.
Proof.
  simpl. unfold real_gt. destruct (Rlt_dec b a); split; auto; discriminate.
Qed.

Lemma real_gt_false (a b : R) : ngt a b = false <-> (a <= b)%R.
Proof.
  simpl. unfold real_gt. destruct (Rlt_dec b a); split; auto; try discriminate; lra.
Qed.

Lemma real_or0 (x : option R) : or0 x = match x with Some v => v | None => 0%R end.
Proof.
  destruct x as [v|]; simpl; [|reflexivity].
  unfold real_truthy. destruct (Req_dec_T v 0); [now subst | reflexivity].
Qed.

Lemma real_constants :
  (DEFAULT_SIM_THRESHOLD = 0.6 /\ HOST_BONUS = 0.08 /\ NEW_GROUP_PENALTY = 0.02)%R.
Proof.
  unfold DEFAULT_SIM_THRESHOLD, HOST_BONUS, NEW_GROUP_PENALTY. simpl.
  repeat split; lra.
Qed.
End RealFacts.

(* ================================================================== *)
(** * Binary64: order and signs *)

Section Binary64.

Lemma SFltb_rank (f1 f2 : spec_float) :
  SFltb f1 f2 = true <->
  exists r1 r2, sf_rank f1 = Some r1 /\ sf_rank f2 = Some r2 /\ lex_lt r1 r2.
Proof.
  unfold SFltb, lex_lt.
  destruct f1 as [s1|s1| |s1 m1 e1], f2 as [s2|s2| |s2 m2 e2];
    try destruct s1; try destruct s2; cbn [SFcompare sf_rank];
    try (split; [discriminate | intros (r1 & r2 & H1 & H2 & H); try discriminate;
                 injection H1 as <-; injection H2 as <-; cbn [fst snd] in H; lia]);
    try (split; [intros _; eexists _, _; split; [reflexivity|]; split; [reflexivity|];
                 cbn [fst snd]; lia | reflexivity]).
  all: change (Pos.compare_cont Eq m1 m2) with (Pos.compare m1 m2).
  all: destruct (Z.compare_spec e1 e2) as [E|E|E].
  all: try destruct (Pos.compare_spec m1 m2) as [E'|E'|E'].
  all: cbn [CompOpp].
  all: split;
    [ first [ discriminate
            | intros _; eexists _, _; split; [reflexivity|];
              split; [reflexivity|]; cbn [fst snd]; lia ]
    | first [ reflexivity
            | intros (r1 & r2 & H1 & H2 & H);
              injection H1 as <-; injection H2 as <-; cbn [fst snd] in H; lia ] ].
Qed.

Lemma SFltb_irrefl f : SFltb f f = false.
Proof.
  destruct (SFltb f f) eqn:E; [|reflexivity].
  apply SFltb_rank in E. destruct E as (r1 & r2 & H1 & H2 & H).
  rewrite H1 in H2. injection H2 as <-. unfold lex_lt in H. lia.
Qed.

Lemma SFltb_trans a b c : SFltb a b = true -> SFltb b c = true -> SFltb a c = true.
Proof.
  intros H1 H2. apply SFltb_rank in H1, H2. apply SFltb_rank.
  destruct H1 as (r1 & r2 & E1 & E2 & H1), H2 as (r2' & r3 & E2' & E3 & H2).
  rewrite E2 in E2'. injection E2' as <-.
  exists r1, r3. split; [assumption|]. split; [assumption|].
  unfold lex_lt in *. lia.
Qed.

Lemma SFltb_total a b c d :
  SFltb b a = true -> SFltb d c = true -> SFltb d a = false -> SFltb a c = true.
Proof.
  intros H1 H2 H3.
  apply SFltb_rank in H1, H2. apply SFltb_rank.
  destruct H1 as (rb & ra & Eb & Ea & H1), H2 as (rd & rc & Ed & Ec & H2).
  exists ra, rc. split; [assumption|]. split; [assumption|].
  assert (H3' : ~ lex_lt rd ra).
  { intros H. rewrite (proj2 (SFltb_rank d a)) in H3; [discriminate|].
    exists rd, ra. auto. }
  destruct ra as [[a1 a2] a3], rc as [[c1 c2] c3], rd as [[d1 d2] d3].
  unfold lex_lt in *. cbn [fst snd] in *. lia.
Qed.

(** [>] on binary64 numbers orders the scores. *)
Lemma float_score_order : score_order float.
Proof.
  unfold score_order. cbn [ngt float_number].
  split; [|split].
  - intros a. rewrite ltb_spec. apply SFltb_irrefl.
  - intros a b c H1 H2. rewrite ltb_spec in *. eapply SFltb_trans; eassumption.
  - intros a b c d H1 H2 H3. rewrite ltb_spec in *. eapply SFltb_total; eassumption.
Qed.


















End Binary64.

(* ================================================================== *)
(** * The inner loop over exact numbers *)

Section ScanExact.
Variable URL_new : string -> option Url.
Local Open Scope R_scope.

(** What the inner loop returns: either nothing beat the running best,
    or the first cluster of highest score did. *)
Lemma scan_spec (fv : FV R) (gs : list (Group R)) : forall i b s,
  (fst (scan fv gs i b s) = b /\ snd (scan fv gs i b s) = s
   /\ forall g, In g gs -> score fv g <= s)
  \/ (exists j g,
        fst (scan fv gs i b s) = Some (i + j)%nat
        /\ nth_error gs j = Some g
        /\ snd (scan fv gs i b s) = score fv g
        /\ s < score fv g
        /\ (forall h, In h gs -> score fv h <= score fv g)
        /\ (forall k h, (k < j)%nat -> nth_error gs k = Some h ->
                        score fv h < score fv g)).
Proof.
  induction gs as [|g gs IH]; intros i b s.
  - left. repeat split. intros g [].
  - change (scan fv (g :: gs) i b s)
      with (if ngt (score fv g) s then scan fv gs (S i) (Some i) (score fv g)
            else scan fv gs (S i) b s).
    destruct (ngt (score fv g) s) eqn:E; cbv iota.
    + apply real_gt_true in E.
      destruct (IH (S i) (Some i) (score fv g))
        as [(Hb & Hs & Hall)|(j & g' & Hb & Hn & Hs & Hgt & Hall & Hfirst)].
      * right. exists 0%nat, g. rewrite Hb, Hs, Nat.add_0_r.
        repeat split; auto.
        -- intros h [<-|Hh]; [lra | auto].
        -- intros k h Hk. lia.
      * right. exists (S j), g'. rewrite Hb, Hs.
        replace (i + S j)%nat with (S i + j)%nat by lia.
        repeat split; auto; try lra.
        -- intros h [<-|Hh]; [lra | auto].
        -- intros [|k] h Hk Hnk; simpl in Hnk.
           ++ injection Hnk as <-. lra.
           ++ apply (Hfirst k h); [lia | assumption].
    + apply real_gt_false in E.
      destruct (IH (S i) b s)
        as [(Hb & Hs & Hall)|(j & g' & Hb & Hn & Hs & Hgt & Hall & Hfirst)].
      * left. repeat split; auto. intros h [<-|Hh]; auto.
      * right. exists (S j), g'. rewrite Hb, Hs.
        replace (i + S j)%nat with (S i + j)%nat by lia.
        repeat split; auto.
        -- intros h [<-|Hh]; [lra | auto].
        -- intros [|k] h Hk Hnk; simpl in Hnk.
           ++ injection Hnk as <-. lra.
           ++ apply (Hfirst k h); [lia | assumption].
Qed.
End ScanExact.

(* ================================================================== *)
(** * Loops that update a [Map] entry by entry *)

Section MapLoops.
Context {V : Type}.

(** A loop over the entries of [l] that sets each key in [out] to a
    value computed from the entry and from what [out] holds there. *)
Lemma fold_update_lookup (f : option V -> V -> V) (l : list (string * V)) :
  NoDup (mkeys l) ->
  forall out k,
    mget String.eqb
      (fold_left (fun out kv =>
                    mset String.eqb out (fst kv)
                         (f (mget String.eqb out (fst kv)) (snd kv))) l out) k
    = match mget String.eqb l k with
      | Some x => Some (f (mget String.eqb out k) x)
      | None => mget String.eqb out k
      end.
Proof.
  induction l as [|[k1 x1] l IH]; intros Hnd out k; simpl; [reflexivity|].
  inversion Hnd as [|? ? Hk1 Hnd']; subst.
  rewrite (IH Hnd'). simpl.
  destruct (String.eqb k1 k) eqn:E.
  - apply String.eqb_eq in E. subst k.
    apply (mget_None_keys _ Seqb_eq) in Hk1. rewrite Hk1.
    apply (mget_mset_same _ Seqb_eq).
  - apply String.eqb_neq in E.
    now rewrite (mget_mset_other _ Seqb_eq) by assumption.
Qed.

(** A loop over the entries of [l] that overwrites in [out] the keys
    it does not skip. *)
Lemma fold_cond_lookup (skip : string -> bool) (f : V -> V) (l : list (string * V)) :
  NoDup (mkeys l) ->
  forall out k,
    mget String.eqb
      (fold_left (fun out kv =>
                    if skip (fst kv) then out
                    else mset String.eqb out (fst kv) (f (snd kv))) l out) k
    = match mget String.eqb l k with
      | Some x => if skip k then mget String.eqb out k else Some (f x)
      | None => mget String.eqb out k
      end.
Proof.
  induction l as [|[k1 x1] l IH]; intros Hnd out k; simpl; [reflexivity|].
  inversion Hnd as [|? ? Hk1 Hnd']; subst.
  rewrite (IH Hnd'). simpl.
  destruct (String.eqb k1 k) eqn:E.
  - apply String.eqb_eq in E. subst k.
    apply (mget_None_keys _ Seqb_eq) in Hk1. rewrite Hk1.
    destruct (skip k1); [reflexivity | apply (mget_mset_same _ Seqb_eq)].
  - apply String.eqb_neq in E.
    destruct (skip k1); [reflexivity|].
    rewrite (mget_mset_other _ Seqb_eq) by assumption. reflexivity.
Qed.

Lemma fold_mset_unique_keys (g : list (string * V) -> string * V -> option V)
      (l : list (string * V)) :
  forall out,
    NoDup (mkeys out) ->
    NoDup (mkeys (fold_left (fun out kv =>
                               match g out kv with
                               | Some x => mset String.eqb out (fst kv) x
                               | None => out
                               end) l out)).
Proof.
  induction l as [|kv l IH]; intros out Hout; simpl; [assumption|].
  apply IH. destruct (g out kv); [|assumption].
  now apply (mset_unique_keys _ Seqb_eq).
Qed.
End MapLoops.

(* ================================================================== *)
(** * The centroid update *)

Section Centroid.
Local Open Scope R_scope.

Lemma mergeCentroid_lookup (c v : vec R) (n : nat) :
  unique_keys c -> unique_keys v ->
  forall k,
    sget (mergeCentroid c v n) k =
    if shas c k || shas v k
    then Some ((weight c k * INR n + weight v k) / (INR n + 1))
    else None.
Proof.
  intros Hc Hv k. unfold mergeCentroid.
  set (out := fold_left _ v c).
  assert (Hout : forall k',
             sget out k' = match sget v k' with
                           | Some x => Some ((weight c k' * INR n + x) / (INR n + 1))
                           | None => sget c k'
                           end).
  { intros k'. unfold out, sget, sset.
    rewrite (fold_update_lookup
               (fun prev x => ndiv (nadd (nmul (or0 prev) (of_nat n)) x) (nadd (of_nat n) one))
               v Hv c k').
    destruct (mget String.eqb v k'); [|reflexivity].
    rewrite real_or0. reflexivity. }
  assert (Hnd : NoDup (mkeys out)).
  { unfold out, sset.
    apply (fold_mset_unique_keys
             (fun out kv => Some (ndiv (nadd (nmul (or0 (sget out (fst kv))) (of_nat n)) (snd kv))
                                       (nadd (of_nat n) one))) v c Hc). }
  unfold sget at 1. unfold sset.
  rewrite (fold_cond_lookup (shas v)
             (fun x => ndiv (nmul x (of_nat n)) (nadd (of_nat n) one)) out Hnd out k).
  fold (sget out k). rewrite Hout.
  unfold shas, mhas, weight. fold (sget v k). fold (sget c k).
  destruct (sget v k) as [x|], (sget c k) as [y|]; simpl; try reflexivity.
  f_equal. unfold zero. simpl. unfold Rdiv. ring.
Qed.

End Centroid.

(* ================================================================== *)
(** * Cosine over exact numbers *)

Section CosineFacts.
Local Open Scope R_scope.




Lemma weight_cons k0 (x0 : R) (a : vec R) k :
  weight ((k0, x0) :: a) k = if String.eqb k0 k then x0 else weight a k.
Proof. unfold weight, sget. simpl. now destruct (String.eqb k0 k). Qed.







Lemma weight_nonneg (b : vec R) k : nonneg b -> 0 <= weight b k.
Proof.
  unfold nonneg. induction 1 as [|[k1 y1] b Hy Hb IH].
  - unfold weight. simpl. unfold zero. simpl. lra.
  - rewrite weight_cons. now destruct (String.eqb k1 k).
Qed.

End CosineFacts.

Section CosineLaws.
Local Open Scope R_scope.


End CosineLaws.

(* ================================================================== *)
(** * Cosine and divergence on binary64 numbers *)

Section CosineBinary64.








End CosineBinary64.



Section DivergenceExact.
Local Open Scope R_scope.




End DivergenceExact.





(* ================================================================== *)
(** * Runs on binary64 numbers *)

(** The literals of the source are the quotients used in the model. *)
Lemma float_constants :
  (DEFAULT_SIM_THRESHOLD = 0x1.3333333333333p-1
   /\ HOST_BONUS = 0x1.47ae147ae147bp-4
   /\ NEW_GROUP_PENALTY = 0x1.47ae147ae147bp-6
   /\ SQRT2 = 0x1.6a09e667f3bcdp+0)%float.
Proof. vm_compute. repeat split. Qed.

(** C3 (as amended): on the four titles of the scenario, with no URLs,
    no seeds and threshold 0.6, [clusterTabs] returns four clusters of
    one tab each, in the order of the tabs: the cosine of the two travel
    tabs (about 0.41) and that of the two React tabs (about 0.33) do not
    exceed [0.6 - 0.02]. *)
Theorem scenario_four_singletons :
  forall (URL_new : string -> option Url) (now : Z) (rnd : nat -> string),
    membership (groups (clusterTabs (F:=float) URL_new now rnd scenario_tabs []
                                    DEFAULT_SIM_THRESHOLD))
    = [[1%Z]; [2%Z]; [3%Z]; [4%Z]]
    /\ ngt (cosine (fv_vec (tabVector (F:=float) URL_new (titled 1 "Book flight to Paris")))
                   (fv_vec (tabVector URL_new (titled 2 "Hotels in Paris"))))
           (nsub DEFAULT_SIM_THRESHOLD NEW_GROUP_PENALTY) = false
    /\ ngt (cosine (fv_vec (tabVector (F:=float) URL_new (titled 3 "React useState docs")))
                   (fv_vec (tabVector URL_new (titled 4 "React useEffect guide"))))
           (nsub DEFAULT_SIM_THRESHOLD NEW_GROUP_PENALTY) = false.
Proof.
  intros URL_new now rnd. vm_compute. repeat split.
Qed.

Lemma scenario_not_two_clusters :
  ~ two_intent_clusters
      (groups (clusterTabs (F:=float) no_urls 0 sample_rnd scenario_tabs []
                           DEFAULT_SIM_THRESHOLD)).
Proof.
  intros (travel & react & Hperm & _).
  apply Permutation_length in Hperm. vm_compute in Hperm. discriminate.
Qed.

(** Binary64 rounding: the cosine of the vector of two distinct tokens
    with itself is [1 - 2^-52], not 1.  Two runs that draw different
    suffixes return different cluster ids. *)
Lemma binary64_remarks :
  (let v := vectorize (F:=float) ["paris"; "hotel"] in
   cosine v v = 0x1.ffffffffffffep-1%float)
  /\ map (@g_id float)
         (groups (clusterTabs no_urls 0 sample_rnd first_cycle_tabs [] DEFAULT_SIM_THRESHOLD))
     = ["alpha-k3x9ab"; "beta-q0z7cd"]
  /\ map (@g_id float)
         (groups (clusterTabs no_urls 0 other_rnd first_cycle_tabs [] DEFAULT_SIM_THRESHOLD))
     = ["alpha-zzzzz0"; "beta-yyyyy1"].
Proof. vm_compute. repeat split. Qed.

(* ================================================================== *)
(** * Instances of the theorems with hypotheses *)

Lemma ai_groups_filtered_to_batch_witness :
  aiClusterTabsWithTitles scenario_tabs 6 (Some sample_answer)
  = inr [{| ai_label := "Travel"; ai_summary := "Trip to Paris"; ai_tabIds := [1%Z] |}]
  /\ let validIds := map tab_id (firstn 60 scenario_tabs) in
     let accepted := [{| ai_label := "Travel"; ai_summary := "Trip to Paris";
                         ai_tabIds := [1%Z] |}] in
     accepted = firstn (Nat.max 1 6) (flat_map (ai_validate validIds) sample_answer)
     /\ forall a, In a accepted ->
          ai_tabIds a <> []
          /\ (forall id, In id (ai_tabIds a) -> In id (map tab_id scenario_tabs))
          /\ exists g ids, In (Some g) sample_answer /\ rg_tabIds g = Some ids
                           /\ ai_tabIds a = filter (id_in validIds) ids.
Proof.
  split; [reflexivity|].
  exact (ai_groups_filtered_to_batch scenario_tabs 6 sample_answer _ eq_refl).
Defined.

(** The answer of the sample references tab 99, which is not in the
    batch; the group is not discarded but accepted with tab 1 only. *)
Lemma ai_partly_valid_group_kept :
  exists accepted,
    aiClusterTabsWithTitles scenario_tabs 6 (Some sample_answer) = inr accepted
    /\ ~ ai_discards_invalid (map tab_id scenario_tabs) sample_answer accepted.
Proof.
  eexists. split; [reflexivity|].
  intros H. destruct (H _ (or_introl eq_refl)) as (g & Hg & Hvalid & _).
  destruct Hg as [Hg|[]]. injection Hg as <-.
  vm_compute in Hvalid. discriminate.
Qed.


(* ================================================================== *)
(** * More about the output of [clusterTabs] *)

Section OutputShape.
Context {F : Type} {num : Number F}.
Variable URL_new : string -> option Url.
Variables (threshold : F) (now : Z) (rnd : nat -> string).

(** A property of single clusters that both branches of an iteration
    establish or keep holds along the loop. *)
Lemma assignTab_Forall (P : Group F -> Prop) vecs (st : State F) t :
  (forall id i, P (newGroup now (vecs_get vecs id) id (rnd i))) ->
  (forall id g, P g -> P (joinGroup now (vecs_get vecs id) id g)) ->
  Forall P (st_groups st) ->
  Forall P (st_groups (assignTab threshold now rnd vecs st t)).
Proof.
  intros Hnew Hjoin Hinv.
  destruct (assignTab_cases threshold now rnd vecs st t)
    as [[_ ->]|(i & g & _ & Hn & ->)]; simpl.
  - apply Forall_app. split; [assumption | repeat constructor; apply Hnew].
  - destruct (update_nth_split (joinGroup now (vecs_get vecs (tab_id t)) (tab_id t)) _ _ _ Hn)
      as (l1 & l2 & Hsplit & _ & ->).
    rewrite Hsplit in Hinv. apply Forall_app in Hinv. destruct Hinv as [H1 H2].
    inversion H2 as [|? ? Hg H2']; subst.
    apply Forall_app. split; [assumption|]. constructor; [now apply Hjoin | assumption].
Qed.

Lemma loop_Forall (P : Group F -> Prop) vecs tabs :
  (forall id i, P (newGroup now (vecs_get vecs id) id (rnd i))) ->
  (forall id g, P g -> P (joinGroup now (vecs_get vecs id) id g)) ->
  forall st : State F,
    Forall P (st_groups st) ->
    Forall P (st_groups (fold_left (assignTab threshold now rnd vecs) tabs st)).
Proof.
  intros Hnew Hjoin. induction tabs as [|t tabs IH]; intros st Hst; simpl; [assumption|].
  apply IH. now apply assignTab_Forall.
Qed.

Lemma clusterTabs_Forall (P : Group F -> Prop) tabs (prev : list (Group F)) :
  (forall id i, P (newGroup now (vecs_get (build_vecs URL_new tabs) id) id (rnd i))) ->
  (forall id g, P g -> P (joinGroup now (vecs_get (build_vecs URL_new tabs) id) id g)) ->
  Forall P (map (cloneGroup now) prev) ->
  Forall P (groups (clusterTabs URL_new now rnd tabs prev threshold)).
Proof.
  intros Hnew Hjoin Hprev. unfold clusterTabs. simpl.
  apply (Permutation_Forall (Permutation_sym (sort_by_size_desc_perm _))).
  apply Forall_forall. intros g Hg. apply filter_In in Hg. destruct Hg as [Hg _].
  revert g Hg. apply Forall_forall.
  unfold runLoop. now apply loop_Forall.
Qed.

(** X1: The id, label and summary of every output cluster are those of a
    seed, or the cluster is new: its label and summary are empty and its
    id was generated by [groupIdFrom].  The engine never changes a
    seed's id, label or summary and never invents a label. *)
Theorem clusterTabs_labels_from_seeds :
  forall (tabs : list Tab) (prev : list (Group F)),
    Forall (from_seed_or_new prev rnd)
           (groups (clusterTabs URL_new now rnd tabs prev threshold)).
Proof.
  intros tabs prev. apply clusterTabs_Forall.
  - intros id i. right. simpl. repeat split. eexists _, i. reflexivity.
  - intros id g [(s & Hs & Hid & Hl & Hsum)|(Hl & Hsum & tokens & i & Hid)].
    + left. exists s. simpl. auto.
    + right. simpl. repeat split; auto. now exists tokens, i.
  - apply Forall_forall. intros g Hg. apply in_map_iff in Hg.
    destruct Hg as (s & <- & Hs). left. exists s. simpl. auto.
Qed.

Lemma held_length_sizes (gs : list (Group F)) :
  sizes_count gs -> List.length (held gs) = list_sum (map (@g_size F) gs).
Proof.
  unfold sizes_count, held. induction 1 as [|g gs Hg Hgs IH]; simpl; [reflexivity|].
  rewrite length_app, IH, Hg. reflexivity.
Qed.

(** X2: The sizes of the output clusters add up to the number of tabs of
    the batch, every output cluster has at least one member, and there
    are at most as many clusters as tabs. *)
Theorem clusterTabs_sizes_add_up :
  forall (tabs : list Tab) (prev : list (Group F)),
    let out := groups (clusterTabs URL_new now rnd tabs prev threshold) in
    list_sum (map (@g_size F) out) = List.length tabs
    /\ Forall (fun g => 1 <= g_size g) out
    /\ List.length out <= List.length tabs.
Proof.
  intros tabs prev out.
  pose proof (clusterTabs_held URL_new now rnd tabs prev threshold) as Hperm.
  pose proof (clusterTabs_sizes_count URL_new now rnd tabs prev threshold) as Hsizes.
  fold out in Hperm, Hsizes.
  assert (Hsum : list_sum (map (@g_size F) out) = List.length tabs).
  { rewrite <- (held_length_sizes out Hsizes), (Permutation_length Hperm).
    apply length_map. }
  assert (Hpos : Forall (fun g => 1 <= g_size g) out).
  { apply Forall_forall. intros g Hg.
    unfold sizes_count in Hsizes. rewrite Forall_forall in Hsizes.
    rewrite (Hsizes g Hg).
    apply clusterTabs_groups_In in Hg. destruct Hg as [_ Hne].
    destruct (g_tabIds g); [contradiction | simpl; lia]. }
  split; [exact Hsum|]. split; [exact Hpos|].
  rewrite <- Hsum. clear - Hpos.
  induction Hpos as [|g gs Hg Hgs IH]; simpl; lia.
Qed.

(** The keys of the assignment table. *)
Lemma assignTab_keys vecs (st : State F) t id :
  In id (mkeys (st_assignments (assignTab threshold now rnd vecs st t)))
  <-> In id (mkeys (st_assignments st)) \/ id = tab_id t.
Proof.
  assert (H : forall gid,
             In id (mkeys (mset Z.eqb (st_assignments st) (tab_id t) gid))
             <-> In id (mkeys (st_assignments st)) \/ id = tab_id t).
  { intros gid. rewrite mkeys_mset.
    destruct (mhas Z.eqb (st_assignments st) (tab_id t)) eqn:E.
    - apply (mhas_keys _ Zeqb_eq) in E. split; [auto | intros [H | ->]; auto].
    - rewrite in_app_iff. simpl. split; [intros [H|[H|[]]] | intros [H|H]]; auto. }
  destruct (assignTab_cases threshold now rnd vecs st t)
    as [[_ ->]|(i & g & _ & _ & ->)]; simpl; apply H.
Qed.

Lemma assignTab_keys_unique vecs (st : State F) t :
  NoDup (mkeys (st_assignments st)) ->
  NoDup (mkeys (st_assignments (assignTab threshold now rnd vecs st t))).
Proof.
  intros Hnd.
  destruct (assignTab_cases threshold now rnd vecs st t)
    as [[_ ->]|(i & g & _ & _ & ->)]; simpl; now apply (mset_unique_keys _ Zeqb_eq).
Qed.

Lemma loop_keys vecs tabs : forall (st : State F) id,
  In id (mkeys (st_assignments (fold_left (assignTab threshold now rnd vecs) tabs st)))
  <-> In id (mkeys (st_assignments st)) \/ In id (map tab_id tabs).
Proof.
  induction tabs as [|t tabs IH]; intros st id; simpl; [tauto|].
  rewrite IH, assignTab_keys. intuition auto.
Qed.

Lemma loop_keys_unique vecs tabs : forall st : State F,
  NoDup (mkeys (st_assignments st)) ->
  NoDup (mkeys (st_assignments (fold_left (assignTab threshold now rnd vecs) tabs st))).
Proof.
  induction tabs as [|t tabs IH]; intros st Hst; simpl; [assumption|].
  apply IH. now apply assignTab_keys_unique.
Qed.

(** X3: The assignment table has exactly the tab ids of the batch as keys,
    each once, and every entry names an output cluster that holds the
    tab; this needs no assumption on the ids. *)
Theorem clusterTabs_assignments_total :
  forall (tabs : list Tab) (prev : list (Group F)),
    let out := clusterTabs URL_new now rnd tabs prev threshold in
    NoDup (mkeys (assignments out))
    /\ (forall id, mget Z.eqb (assignments out) id <> None <-> In id (map tab_id tabs))
    /\ (forall id, In id (map tab_id tabs) ->
          exists g, In g (groups out) /\ In id (g_tabIds g)
                    /\ mget Z.eqb (assignments out) id = Some (g_id g)).
Proof.
  intros tabs prev out.
  destruct (runLoop_invariants URL_new threshold now rnd tabs prev tabs)
    as (Hperm & Htab & _).
  split; [|split].
  - unfold out, clusterTabs, runLoop. simpl. apply loop_keys_unique. constructor.
  - intros id. unfold out, clusterTabs, runLoop. simpl.
    set (asg := st_assignments (fold_left
                  (assignTab threshold now rnd (build_vecs URL_new tabs)) tabs
                  (initState now prev))).
    split.
    + intros Hne. destruct (in_dec Z.eq_dec id (mkeys asg)) as [Hin|Hout].
      * apply loop_keys in Hin. destruct Hin as [[]|Hin]. exact Hin.
      * apply (mget_None_keys _ Zeqb_eq) in Hout. contradiction.
    + intros Hin Hnone. apply (mget_None_keys _ Zeqb_eq) in Hnone.
      apply Hnone. apply loop_keys. now right.
  - intros id Hid.
    apply (Permutation_in _ (Permutation_sym Hperm)) in Hid.
    destruct (Htab _ Hid) as (g & Hg & Hin & Hget).
    exists g. split; [|split; [exact Hin | exact Hget]].
    apply clusterTabs_groups_In. split; [exact Hg|].
    intros E. rewrite E in Hin. destruct Hin.
Qed.
End OutputShape.

(* ================================================================== *)
(** * The tokenizer *)

Section Tokenizer.

Lemma sappend_assoc (a b c : string) : ((a ++ b) ++ c = a ++ (b ++ c))%string.
Proof. induction a as [|x a IH]; simpl; [reflexivity | now rewrite IH]. Qed.

Lemma sappend_nil_r (a : string) : (a ++ "" = a)%string.
Proof. induction a as [|x a IH]; simpl; [reflexivity | now rewrite IH]. Qed.

Lemma all_chars_app p (a b : string) :
  all_chars p (a ++ b) = all_chars p a && all_chars p b.
Proof.
  induction a as [|x a IH]; simpl; [reflexivity|].
  now rewrite IH, andb_assoc.
Qed.

Lemma smap_ext_in (f : ascii -> ascii) (p : ascii -> bool) (s : string) :
  (forall c, p c = true -> f c = c) -> all_chars p s = true -> smap f s = s.
Proof.
  intros Hf. induction s as [|c s IH]; simpl; [reflexivity|].
  intros H. apply andb_true_iff in H. destruct H as [Hc Hs].
  now rewrite (Hf c Hc), IH.
Qed.

Lemma smap_all_chars (f : ascii -> ascii) (p : ascii -> bool) (s : string) :
  (forall c, p (f c) = true) -> all_chars p (smap f s) = true.
Proof.
  intros Hf. induction s as [|c s IH]; simpl; [reflexivity|].
  now rewrite Hf, IH.
Qed.

(** After the second replacement only token characters and white space
    are left. *)
Lemma replace_non_alnum_chars (s : string) :
  all_chars (fun c => is_token_char c || is_space c) (replace_non_alnum s) = true.
Proof.
  unfold replace_non_alnum. apply smap_all_chars. intros c. unfold is_token_char.
  destruct (is_lower c || is_digit c || is_space c) eqn:E; [exact E | reflexivity].
Qed.

(** The pieces of a split hold no white space. *)
Lemma split_ws_pieces (s : string) : forall cur insep,
  all_chars (fun c => is_token_char c || is_space c) s = true ->
  all_chars is_token_char cur = true ->
  Forall (fun t => all_chars is_token_char t = true) (split_ws s cur insep).
Proof.
  induction s as [|c s IH]; intros cur insep Hs Hcur; simpl.
  - repeat constructor. exact Hcur.
  - simpl in Hs. apply andb_true_iff in Hs. destruct Hs as [Hc Hs].
    destruct (is_space c) eqn:Esp.
    + destruct insep.
      * now apply IH.
      * constructor; [exact Hcur | now apply IH].
    + apply IH; [exact Hs|].
      rewrite all_chars_app, Hcur. simpl.
      rewrite orb_false_r in Hc. now rewrite Hc.
Qed.

Lemma tokenize_In_clean (text t : string) :
  In t (tokenize text) -> clean_token t.
Proof.
  unfold tokenize. intros Ht.
  apply filter_In in Ht. destruct Ht as [Hin Hkeep].
  pose proof (split_ws_pieces _ EmptyString false
                (replace_non_alnum_chars (replace_dash_runs (toLowerCase text) false))
                eq_refl) as Hpieces.
  rewrite Forall_forall in Hpieces. specialize (Hpieces t Hin).
  unfold keep_token in Hkeep.
  apply andb_true_iff in Hkeep. destruct Hkeep as [Hkeep Hstop].
  apply andb_true_iff in Hkeep. destruct Hkeep as [_ Hlen].
  repeat split.
  - exact Hpieces.
  - now apply Nat.leb_le in Hlen.
  - now apply negb_true_iff in Hstop.
Qed.

(** X4: Every token [tokenize] returns is made of the characters [a-z0-9]
    only, has at least two characters and is not a stop word. *)
Theorem tokenize_tokens_clean :
  forall text : string, Forall clean_token (tokenize text).
Proof.
  intros text. apply Forall_forall. intros t Ht.
  exact (tokenize_In_clean text t Ht).
Qed.

Lemma token_char_facts (c : ascii) :
  is_token_char c = true \/ c = " "%char ->
  is_upper c = false /\ is_dash c = false
  /\ (is_lower c || is_digit c || is_space c) = true.
Proof.
  unfold is_token_char, is_upper, is_lower, is_digit, is_dash, is_space, in_range.
  intros [H| ->]; [|repeat split; reflexivity].
  set (n := nat_of_ascii c) in *.
  apply orb_true_iff in H.
  repeat rewrite andb_true_iff in H. repeat rewrite Nat.leb_le in H.
  repeat split.
  - apply andb_false_iff. repeat rewrite Nat.leb_gt. lia.
  - apply orb_false_iff. repeat rewrite Nat.eqb_neq. lia.
  - destruct H as [H|H].
    + replace ((97 <=? n)%nat && (n <=? 122)%nat) with true; [reflexivity|].
      symmetry. apply andb_true_iff. repeat rewrite Nat.leb_le. exact H.
    + replace ((48 <=? n)%nat && (n <=? 57)%nat) with true;
        [now rewrite orb_true_r|].
      symmetry. apply andb_true_iff. repeat rewrite Nat.leb_le. exact H.
Qed.

Lemma token_char_not_space (c : ascii) : is_token_char c = true -> is_space c = false.
Proof.
  unfold is_token_char, is_lower, is_digit, is_space, in_range.
  set (n := nat_of_ascii c). intros H.
  apply orb_true_iff in H.
  repeat rewrite andb_true_iff in H. repeat rewrite Nat.leb_le in H.
  apply orb_false_iff. split.
  - apply Nat.eqb_neq. lia.
  - apply andb_false_iff. repeat rewrite Nat.leb_gt. lia.
Qed.

(** A text of token characters and single spaces passes the three
    normalisation steps unchanged. *)
Lemma normalise_fixed (s : string) :
  all_chars (fun c => is_token_char c || Ascii.eqb c " ") s = true ->
  replace_non_alnum (replace_dash_runs (toLowerCase s) false) = s.
Proof.
  intros Hs.
  assert (Hc : forall c, (is_token_char c || Ascii.eqb c " ") = true ->
                         is_token_char c = true \/ c = " "%char).
  { intros c H. apply orb_true_iff in H. destruct H as [H|H]; [now left|].
    right. now apply Ascii.eqb_eq. }
  assert (E1 : toLowerCase s = s).
  { unfold toLowerCase. apply (smap_ext_in _ _ s) with (2 := Hs).
    intros c H. unfold lower_char.
    now destruct (token_char_facts c (Hc c H)) as (-> & _). }
  rewrite E1.
  assert (E2 : forall b, replace_dash_runs s b = s).
  { clear E1. induction s as [|c s IH]; intros b; simpl; [reflexivity|].
    simpl in Hs. apply andb_true_iff in Hs. destruct Hs as [H Hs].
    destruct (token_char_facts c (Hc c H)) as (_ & -> & _). now rewrite IH. }
  rewrite E2. unfold replace_non_alnum.
  apply (smap_ext_in _ _ s) with (2 := Hs).
  intros c H. now destruct (token_char_facts c (Hc c H)) as (_ & _ & ->).
Qed.

(** A run of token characters is read into the current piece. *)
Lemma split_ws_token (t : string) : forall rest cur insep,
  all_chars is_token_char t = true -> t <> EmptyString ->
  split_ws (t ++ rest) cur insep = split_ws rest (cur ++ t) false.
Proof.
  induction t as [|c t IH]; intros rest cur insep Ht Hne; [contradiction|].
  simpl in Ht. apply andb_true_iff in Ht. destruct Ht as [Hc Ht].
  simpl. rewrite (token_char_not_space c Hc).
  destruct t as [|c' t'].
  - simpl. reflexivity.
  - rewrite IH by (auto; discriminate).
    rewrite sappend_assoc. reflexivity.
Qed.

Lemma split_ws_join (ts : list string) :
  ts <> [] ->
  Forall (fun t => all_chars is_token_char t = true /\ t <> EmptyString) ts ->
  forall insep, split_ws (join " " ts) EmptyString insep = ts.
Proof.
  intros Hne Hts. induction Hts as [|t ts [Ht Hnt] Hts IH]; [contradiction|].
  intros insep. destruct ts as [|t2 ts].
  - simpl. rewrite <- (sappend_nil_r t) at 1.
    rewrite (split_ws_token t EmptyString EmptyString insep Ht Hnt). reflexivity.
  - change (join " " (t :: t2 :: ts)) with (t ++ " " ++ join " " (t2 :: ts))%string.
    rewrite (split_ws_token t _ EmptyString insep Ht Hnt).
    simpl. f_equal. apply IH. discriminate.
Qed.

Lemma join_chars (ts : list string) :
  Forall (fun t => all_chars is_token_char t = true) ts ->
  all_chars (fun c => is_token_char c || Ascii.eqb c " ") (join " " ts) = true.
Proof.
  assert (Hw : forall t, all_chars is_token_char t = true ->
                         all_chars (fun c => is_token_char c || Ascii.eqb c " ") t = true).
  { induction t as [|c t IH]; simpl; [reflexivity|].
    intros H. apply andb_true_iff in H. destruct H as [-> H]. simpl. now apply IH. }
  induction 1 as [|t ts Ht Hts IH]; [reflexivity|].
  destruct ts as [|t2 ts].
  - simpl. now apply Hw.
  - change (join " " (t :: t2 :: ts)) with (t ++ " " ++ join " " (t2 :: ts))%string.
    rewrite all_chars_app, (Hw t Ht). simpl. exact IH.
Qed.

Lemma clean_token_keep (t : string) : clean_token t -> keep_token t = true.
Proof.
  intros (_ & Hlen & Hstop). unfold keep_token, TOKEN_MIN_LEN.
  rewrite Hstop. apply Nat.leb_le in Hlen. rewrite Hlen.
  destruct t; [simpl in Hlen; discriminate | reflexivity].
Qed.

(** X5: Tokenizing is idempotent: the tokens of a text, joined by single
    spaces and tokenized again, come back unchanged. *)
Theorem tokenize_idempotent :
  forall text : string, tokenize (join " " (tokenize text)) = tokenize text.
Proof.
  intros text.
  assert (Hclean : Forall clean_token (tokenize text)).
  { apply Forall_forall. intros t Ht. exact (tokenize_In_clean text t Ht). }
  set (ts := tokenize text) in *.
  unfold tokenize at 1.
  rewrite normalise_fixed.
  - destruct ts as [|t ts'] eqn:E; [reflexivity|].
    rewrite split_ws_join.
    + apply forallb_filter_id. apply forallb_forall. intros x Hx.
      apply clean_token_keep. rewrite Forall_forall in Hclean. now apply Hclean.
    + discriminate.
    + apply Forall_forall. intros x Hx. rewrite Forall_forall in Hclean.
      destruct (Hclean x Hx) as (Hc & Hlen & _). split; [exact Hc|].
      intros ->. simpl in Hlen. lia.
  - apply join_chars. apply Forall_forall. intros x Hx.
    rewrite Forall_forall in Hclean. now destruct (Hclean x Hx).
Qed.
End Tokenizer.

(* ================================================================== *)
(** * The assignment rule *)

Section ScanRule.
Context {F : Type} {num : Number F}.
Hypothesis order : score_order F.

Lemma ngt_irrefl (a : F) : ngt a a = false.
Proof. exact (proj1 order a). Qed.

Lemma ngt_trans (a b c : F) : ngt a b = true -> ngt b c = true -> ngt a c = true.
Proof. exact (proj1 (proj2 order) a b c). Qed.

Lemma ngt_above (a b c d : F) :
  ngt a b = true -> ngt c d = true -> ngt a d = false -> ngt c a = true.
Proof. exact (proj2 (proj2 order) a b c d). Qed.

Lemma ngt_asym (a b : F) : ngt a b = true -> ngt b a = false.
Proof.
  intros H. destruct (ngt b a) eqn:E; [|reflexivity].
  rewrite <- (ngt_irrefl a). symmetry. eapply ngt_trans; eassumption.
Qed.

Lemma ngt_below (a s s' : F) : ngt a s = false -> ngt s' s = true -> ngt a s' = false.
Proof.
  intros H1 H2. destruct (ngt a s') eqn:E; [|reflexivity].
  rewrite <- H1. symmetry. eapply ngt_trans; eassumption.
Qed.

(** What the inner loop returns: either no score exceeded the running
    best, or the first cluster of highest score did. *)
Lemma scan_rule (fv : FV F) (gs : list (Group F)) : forall i b s,
  (fst (scan fv gs i b s) = b /\ snd (scan fv gs i b s) = s
   /\ forall g, In g gs -> ngt (score fv g) s = false)
  \/ (exists j g,
        fst (scan fv gs i b s) = Some (i + j)
        /\ nth_error gs j = Some g
        /\ snd (scan fv gs i b s) = score fv g
        /\ ngt (score fv g) s = true
        /\ (forall h, In h gs -> ngt (score fv h) (score fv g) = false)
        /\ (forall k h, k < j -> nth_error gs k = Some h ->
                        ngt (score fv h) s = true ->
                        ngt (score fv g) (score fv h) = true)).
Proof.
  induction gs as [|g gs IH]; intros i b s.
  - left. repeat split. intros g [].
  - change (scan fv (g :: gs) i b s)
      with (if ngt (score fv g) s then scan fv gs (S i) (Some i) (score fv g)
            else scan fv gs (S i) b s).
    destruct (ngt (score fv g) s) eqn:E; cbv iota.
    + destruct (IH (S i) (Some i) (score fv g))
        as [(Hb & Hs & Hall)|(j & g' & Hb & Hn & Hs & Hgt & Hall & Hfirst)].
      * right. exists 0, g. rewrite Hb, Hs, Nat.add_0_r.
        split; [reflexivity|]. split; [reflexivity|]. split; [reflexivity|].
        split; [assumption|]. split.
        -- intros h [<-|Hh]; [apply ngt_irrefl | auto].
        -- intros k h Hk. lia.
      * right. exists (S j), g'. rewrite Hb, Hs.
        replace (i + S j) with (S i + j) by lia.
        split; [reflexivity|]. split; [assumption|]. split; [reflexivity|].
        split; [eapply ngt_trans; eassumption|]. split.
        -- intros h [<-|Hh]; [now apply ngt_asym | auto].
        -- intros [|k] h Hk Hnk Hbar; simpl in Hnk.
           ++ injection Hnk as <-. assumption.
           ++ destruct (ngt (score fv h) (score fv g)) eqn:Ehg.
              ** apply (Hfirst k h); [lia | assumption | assumption].
              ** exact (ngt_above _ _ _ _ Hbar Hgt Ehg).
    + destruct (IH (S i) b s)
        as [(Hb & Hs & Hall)|(j & g' & Hb & Hn & Hs & Hgt & Hall & Hfirst)].
      * left. split; [assumption|]. split; [assumption|].
        intros h [<-|Hh]; auto.
      * right. exists (S j), g'. rewrite Hb, Hs.
        replace (i + S j) with (S i + j) by lia.
        split; [reflexivity|]. split; [assumption|]. split; [reflexivity|].
        split; [assumption|]. split.
        -- intros h [<-|Hh]; [eapply ngt_below; eassumption | auto].
        -- intros [|k] h Hk Hnk Hbar; simpl in Hnk.
           ++ injection Hnk as <-. rewrite E in Hbar. discriminate.
           ++ apply (Hfirst k h); [lia | assumption | assumption].
Qed.
End ScanRule.

Section NewIds.

Lemma has_dash_app (a b : string) : has_dash (a ++ b) = has_dash a || has_dash b.
Proof.
  induction a as [|c a IH]; simpl; [reflexivity|]. now rewrite IH, orb_assoc.
Qed.

Lemma suffix_of_app (base r : string) :
  has_dash r = false -> suffix_of (base ++ "-" ++ r) = r.
Proof.
  intros Hr. induction base as [|c base IH]; simpl.
  - now rewrite Hr.
  - rewrite has_dash_app. simpl. rewrite orb_true_r. exact IH.
Qed.

(** The suffix drawn can be read off the id. *)
Lemma groupIdFrom_suffix (tokens : list string) (r : string) :
  has_dash r = false -> suffix_of (groupIdFrom tokens r) = r.
Proof. intros Hr. unfold groupIdFrom. now apply suffix_of_app. Qed.

Lemma append_not_empty (a b : string) : a <> "" -> String.eqb (a ++ b) "" = false.
Proof. destruct a; [contradiction | reflexivity]. Qed.

Lemma groupIdFrom_spec_id (tokens : list string) (r : string) :
  (forall tok, In tok tokens -> tok <> "") ->
  groupIdFrom tokens r = spec_id tokens r.
Proof.
  intros Hne. unfold groupIdFrom, spec_id.
  destruct tokens as [|a [|b [|c rest]]]; cbn [firstn join].
  - reflexivity.
  - assert (Ha : a <> "") by (apply Hne; now left).
    destruct a; [contradiction | reflexivity].
  - assert (Ha : a <> "") by (apply Hne; now left).
    rewrite (append_not_empty a _ Ha). now rewrite !sappend_assoc.
  - assert (Ha : a <> "") by (apply Hne; now left).
    rewrite (append_not_empty a _ Ha). now rewrite !sappend_assoc.
Qed.

Lemma tabVector_tokens_not_empty {F : Type} {num : Number F}
      (URL_new : string -> option Url) (t : Tab) (tok : string) :
  In tok (fv_allTokens (tabVector (F:=F) URL_new t)) -> tok <> "".
Proof.
  unfold tabVector.
  destruct (parseUrl URL_new (tab_url t)) as [host pathTokens] eqn:E.
  cbn [fv_allTokens]. intros Hin.
  assert (Hclean : forall text, In tok (tokenize text) -> tok <> "").
  { intros text H. apply tokenize_In_clean in H. destruct H as (_ & Hlen & _).
    intros ->. simpl in Hlen. lia. }
  apply in_app_or in Hin. destruct Hin as [Hin|Hin]; [now apply (Hclean _ Hin)|].
  apply in_app_or in Hin. destruct Hin as [Hin|Hin].
  - unfold parseUrl in E. destruct (urlFromString URL_new (tab_url t)) as [u|].
    + injection E as _ <-. now apply (Hclean _ Hin).
    + injection E as _ <-. destruct Hin.
  - apply in_map_iff in Hin. destruct Hin as (c & <- & _). discriminate.
Qed.
End NewIds.

Section AssignmentRule.
Context {F : Type} {num : Number F}.
Variable URL_new : string -> option Url.
Hypothesis order : score_order F.

(** One iteration of the outer loop, for any arithmetic whose [>]
    orders the scores. *)
Lemma assignTab_rule (threshold : F) (now : Z) (rnd : nat -> string)
      (prev : list (Group F)) (pre : list Tab) (t : Tab) (post : list Tab) :
  NoDup (map tab_id (pre ++ t :: post)) ->
  let batch := pre ++ t :: post in
  let st := runLoop URL_new threshold now rnd batch prev pre in
  let st' := runLoop URL_new threshold now rnd batch prev (pre ++ [t]) in
  let fv := tabVector URL_new t in
  let bar := nsub threshold NEW_GROUP_PENALTY in
  (best_exceeds bar fv (st_groups st)
   /\ appended_to_best bar fv (tab_id t) (st_groups st) (st_groups st'))
  \/ (~ best_exceeds bar fv (st_groups st)
      /\ opened_new fv (tab_id t) (rnd (st_draws st)) (st_groups st) (st_groups st')).
Proof.
  intros Hnd batch st st' fv bar.
  assert (Hfv : vecs_get (build_vecs URL_new batch) (tab_id t) = fv).
  { apply vecs_get_own; [exact Hnd|]. apply in_or_app. right. now left. }
  destruct (runLoop_invariants URL_new threshold now rnd batch prev pre)
    as (_ & _ & Hsizes).
  fold st in Hsizes. unfold sizes_count in Hsizes. rewrite Forall_forall in Hsizes.
  assert (Hscore : forall g, In g (st_groups st) -> score fv g = spec_score fv g).
  { intros g Hg. apply score_is_spec_score. now apply Hsizes. }
  assert (Hst' : st' = assignTab threshold now rnd (build_vecs URL_new batch) st t).
  { apply runLoop_snoc. }
  destruct (assignTab_cases threshold now rnd (build_vecs URL_new batch) st t)
    as [[E Hstep]|(i & g & E & Hn & Hstep)]; rewrite Hfv in *; rewrite <- Hst' in Hstep.
  - right.
    destruct (scan_rule order fv (st_groups st) 0 None bar)
      as [(_ & _ & Hall)|(j & g' & Hb & _)];
      [|unfold bar in Hb; rewrite E in Hb; discriminate].
    split.
    + intros (g & Hg & Hgt).
      specialize (Hall g Hg). rewrite (Hscore g Hg) in Hall.
      rewrite Hall in Hgt. discriminate.
    + rewrite Hstep. cbn [st_groups]. eexists. split; [reflexivity|].
      cbn [newGroup g_tabIds g_centroid g_size g_label g_summary g_id].
      do 5 (split; [reflexivity|]).
      split.
      * apply groupIdFrom_spec_id. intros tok. apply tabVector_tokens_not_empty.
      * intros Hd h Hh Hsuf Heq. apply Hsuf. rewrite Heq.
        now apply groupIdFrom_suffix.
  - left.
    destruct (scan_rule order fv (st_groups st) 0 None bar)
      as [(Hb & _)|(j & g' & Hb & Hn' & _ & Hgt & Hall & Hfirst)];
      [unfold bar in Hb; rewrite E in Hb; discriminate|].
    unfold bar in Hb. rewrite E in Hb. cbn [Nat.add] in Hb.
    assert (Hij : i = j) by congruence. subst j.
    rewrite Hn in Hn'. assert (Hgg : g = g') by congruence. subst g'.
    assert (Hg : In g (st_groups st)) by (eapply nth_error_In; eassumption).
    split.
    + exists g. split; [assumption|]. rewrite <- (Hscore g Hg). exact Hgt.
    + exists i, g, (joinGroup now fv (tab_id t) g).
      rewrite Hstep. cbn [st_groups].
      split; [assumption|].
      split; [rewrite <- (Hscore g Hg); exact Hgt|].
      split.
      { intros h Hh. rewrite <- (Hscore g Hg), <- (Hscore h Hh). now apply Hall. }
      split.
      { intros k h Hk Hnk.
        assert (Hh : In h (st_groups st)) by (eapply nth_error_In; eassumption).
        rewrite <- (Hscore g Hg), <- (Hscore h Hh). now apply (Hfirst k h). }
      split; [now apply update_nth_same|].
      cbn [joinGroup g_tabIds g_centroid g_size g_label g_summary g_id].
      rewrite (Hsizes g Hg).
      split; [reflexivity|]. split; [reflexivity|]. split; [lia|].
      split; [reflexivity|]. split; [reflexivity|]. split; [reflexivity|].
      split; [apply update_nth_length|].
      intros k Hk. now apply update_nth_other.
Qed.
End AssignmentRule.

(** C2 (as amended): for a batch with pairwise distinct tab ids, the
    iteration of
    [clusterTabs] that processes tab [t] (after the tabs [pre], before
    the tabs [post]) does one of two things, in binary64 arithmetic as
    the code computes it.  If some existing cluster scores above
    [threshold - newClusterPenalty], the tab is appended to the cluster
    of highest score (the first such), the centroid of that cluster is
    merged with the tab's vector and its size grows by one.  Otherwise
    a new cluster is added at the end, holding only this tab, with the
    tab's own vector as centroid.  Its id is made of the tab's first
    three tokens (or ["group"]) and of the random suffix drawn; the id
    is not checked against the ids in use, and differs from each of
    them that does not end in the same suffix.  The score of a cluster
    is the cosine of the tab's vector and the centroid, plus the host
    bonus exactly when the tab has a host pseudo-token, the centroid
    holds it and the cluster has at least two members.  The constants
    are the doubles 0.6, 0.08 and 0.02. *)
Theorem assignment_rule :
  forall (URL_new : string -> option Url) (threshold : float) (now : Z)
         (rnd : nat -> string) (prev : list (Group float))
         (pre : list Tab) (t : Tab) (post : list Tab),
    NoDup (map tab_id (pre ++ t :: post)) ->
    let batch := pre ++ t :: post in
    let st := runLoop URL_new threshold now rnd batch prev pre in
    let st' := runLoop URL_new threshold now rnd batch prev (pre ++ [t]) in
    let fv := tabVector URL_new t in
    let bar := PrimFloat.sub threshold NEW_GROUP_PENALTY in
    (DEFAULT_SIM_THRESHOLD = 0x1.3333333333333p-1
     /\ HOST_BONUS = 0x1.47ae147ae147bp-4
     /\ NEW_GROUP_PENALTY = 0x1.47ae147ae147bp-6)%float
    /\ ((best_exceeds bar fv (st_groups st)
         /\ appended_to_best bar fv (tab_id t) (st_groups st) (st_groups st'))
        \/ (~ best_exceeds bar fv (st_groups st)
            /\ opened_new fv (tab_id t) (rnd (st_draws st))
                          (st_groups st) (st_groups st'))).
Proof.
  intros URL_new threshold now rnd prev pre t post Hnd batch st st' fv bar.
  split; [vm_compute; repeat split|].
  exact (assignTab_rule URL_new float_score_order threshold now rnd prev pre t post Hnd).
Qed.

(** The third tab of the sample joins the cluster of the first two:
    its score [0.5 + 0.08] is the double 0.58000000000000007, which
    exceeds the double [0.6 - 0.02] = 0.57999999999999996. *)
Lemma assignment_rule_witness :
  NoDup (map tab_id ([site_tab 10 "aa bb"; site_tab 11 "aa bb"] ++ site_tab 12 "xx yy" :: []))
  /\ let batch := [site_tab 10 "aa bb"; site_tab 11 "aa bb"] ++ site_tab 12 "xx yy" :: [] in
     let st := runLoop one_site DEFAULT_SIM_THRESHOLD 0 sample_rnd batch []
                       [site_tab 10 "aa bb"; site_tab 11 "aa bb"] in
     let st' := runLoop one_site DEFAULT_SIM_THRESHOLD 0 sample_rnd batch []
                        ([site_tab 10 "aa bb"; site_tab 11 "aa bb"] ++ [site_tab 12 "xx yy"]) in
     let fv := tabVector one_site (site_tab 12 "xx yy") in
     let bar := PrimFloat.sub DEFAULT_SIM_THRESHOLD NEW_GROUP_PENALTY in
     (DEFAULT_SIM_THRESHOLD = 0x1.3333333333333p-1
      /\ HOST_BONUS = 0x1.47ae147ae147bp-4
      /\ NEW_GROUP_PENALTY = 0x1.47ae147ae147bp-6)%float
     /\ ((best_exceeds bar fv (st_groups st)
          /\ appended_to_best bar fv 12 (st_groups st) (st_groups st'))
         \/ (~ best_exceeds bar fv (st_groups st)
             /\ opened_new fv 12 (sample_rnd (st_draws st)) (st_groups st) (st_groups st'))).
Proof.
  assert (H : NoDup (map tab_id ([site_tab 10 "aa bb"; site_tab 11 "aa bb"]
                                   ++ site_tab 12 "xx yy" :: []))).
  { simpl. repeat constructor; simpl; intuition discriminate. }
  split; [exact H|].
  exact (assignment_rule one_site DEFAULT_SIM_THRESHOLD 0%Z sample_rnd []
           [site_tab 10 "aa bb"; site_tab 11 "aa bb"] (site_tab 12 "xx yy") [] H).
Defined.

(** The run of the sample: the second tab joins the first
    (score 1), the third joins them on the host bonus; the third tab
    alone against the first two scores above the bar. *)
Lemma site_tabs_run :
  membership (groups (clusterTabs (F:=float) one_site 0 sample_rnd site_tabs []
                                  DEFAULT_SIM_THRESHOLD))
  = [[10%Z; 11%Z; 12%Z]]
  /\ (let st := runLoop (F:=float) one_site DEFAULT_SIM_THRESHOLD 0 sample_rnd site_tabs []
                        [site_tab 10 "aa bb"; site_tab 11 "aa bb"] in
      map (spec_score (tabVector one_site (site_tab 12 "xx yy"))) (st_groups st)
      = [0x1.28f5c28f5c29p-1%float])
  /\ PrimFloat.sub DEFAULT_SIM_THRESHOLD NEW_GROUP_PENALTY = 0x1.28f5c28f5c28fp-1%float.
Proof. vm_compute. repeat split. Qed.

(** Two tabs without tokens, and a [Math.random] that yields the same
    digits twice: the second tab opens a cluster whose id is the id of
    the cluster of the first, so the id of a new cluster is not always
    fresh. *)
Lemma new_cluster_id_not_fresh :
  let st := runLoop (F:=float) no_urls DEFAULT_SIM_THRESHOLD 0 same_rnd blank_tabs []
                    [titled 1 ""] in
  let st' := runLoop (F:=float) no_urls DEFAULT_SIM_THRESHOLD 0 same_rnd blank_tabs []
                     [titled 1 ""; titled 2 ""] in
  NoDup (map tab_id blank_tabs)
  /\ map (fun g => (g_id g, g_tabIds g)) (st_groups st) = [("group-k3x9ab", [1%Z])]
  /\ map (fun g => (g_id g, g_tabIds g)) (st_groups st')
     = [("group-k3x9ab", [1%Z]); ("group-k3x9ab", [2%Z])]
  /\ ~ fresh_id "group-k3x9ab" (st_groups st).
Proof.
  intros st st'.
  assert (E : map (fun g => (g_id g, g_tabIds g)) (st_groups st) = [("group-k3x9ab", [1%Z])])
    by (vm_compute; reflexivity).
  split; [simpl; repeat constructor; simpl; intuition discriminate|].
  split; [exact E|]. split; [vm_compute; reflexivity|].
  intros Hfresh.
  destruct (st_groups st) as [|g [|g2 rest]]; try discriminate.
  injection E as Eid _. apply (Hfresh g); [now left | exact Eid].
Qed.

(* ================================================================== *)
(** * Term frequencies *)

Section Vectorize.
Local Open Scope R_scope.

(** The first loop of [vectorize] counts. *)
Lemma count_loop_lookup (tokens : list string) : forall (m0 : vec R) t,
  sget (fold_left (fun m t => sset m t (nadd (or0 (sget m t)) one)) tokens m0) t
  = if (count_token tokens t =? 0)%nat then sget m0 t
    else Some (weight m0 t + INR (count_token tokens t)).
Proof.
  unfold count_token.
  induction tokens as [|x tokens IH]; intros m0 t; [reflexivity|].
  cbn [fold_left count_occ]. rewrite IH. unfold weight.
  destruct (string_dec x t) as [->|Hne].
  - unfold sget at 1 3, sset. rewrite !(mget_mset_same _ Seqb_eq).
    rewrite real_or0. fold (sget m0 t).
    destruct (count_occ string_dec tokens t) as [|c]; cbn [Nat.eqb].
    + unfold one. simpl. destruct (sget m0 t); f_equal; lra.
    + f_equal. rewrite !S_INR. unfold one. simpl. destruct (sget m0 t); lra.
  - unfold sget at 1 3, sset. rewrite !(mget_mset_other _ Seqb_eq) by assumption.
    reflexivity.
Qed.

Lemma count_loop_unique (tokens : list string) (m0 : vec R) :
  unique_keys m0 ->
  unique_keys (fold_left (fun m t => sset m t (nadd (or0 (sget m t)) one)) tokens m0).
Proof.
  revert m0. induction tokens as [|x tokens IH]; intros m0 H0; simpl; [assumption|].
  apply IH. now apply (mset_unique_keys _ Seqb_eq).
Qed.

Lemma sqrt_loop_unique (l : vec R) : forall m0 : vec R,
  unique_keys m0 ->
  unique_keys (fold_left (fun m' kv => sset m' (fst kv) (nsqrt (snd kv))) l m0).
Proof.
  induction l as [|kv l IH]; intros m0 H0; simpl; [assumption|].
  apply IH. now apply (mset_unique_keys _ Seqb_eq).
Qed.

Lemma vectorize_unique (tokens : list string) : unique_keys (vectorize (F:=R) tokens).
Proof.
  unfold vectorize. apply sqrt_loop_unique. apply count_loop_unique. constructor.
Qed.

Lemma vectorize_lookup (tokens : list string) (t : string) :
  sget (vectorize tokens) t
  = if (count_token tokens t =? 0)%nat then None
    else Some (sqrt (INR (count_token tokens t))).
Proof.
  unfold vectorize.
  set (m := fold_left (fun (m : vec R) t => sset m t (nadd (or0 (sget m t)) one)) tokens []).
  assert (Hm : unique_keys m) by (apply count_loop_unique; constructor).
  unfold sget at 1. unfold sset.
  rewrite (fold_cond_lookup (fun _ => false) (fun x => nsqrt x) m Hm m t).
  fold (sget m t). unfold m. rewrite count_loop_lookup.
  destruct (count_token tokens t =? 0)%nat; [reflexivity|].
  unfold weight. simpl. f_equal. f_equal. lra.
Qed.

Lemma count_token_In (tokens : list string) t :
  (count_token tokens t =? 0)%nat = false <-> In t tokens.
Proof.
  unfold count_token. rewrite Nat.eqb_neq.
  rewrite (count_occ_In string_dec). lia.
Qed.

Lemma unique_keys_entries (m : vec R) (P : R -> Prop) :
  unique_keys m ->
  (forall k x, sget m k = Some x -> P x) ->
  Forall (fun kv => P (snd kv)) m.
Proof.
  intros Hm H. apply Forall_forall. intros [k x] Hin. simpl.
  apply (H k). now apply (mget_unique_In _ Seqb_eq).
Qed.

Lemma vectorize_weights (tokens : list string) :
  weights_ge_1 (vectorize (F:=R) tokens).
Proof.
  apply unique_keys_entries; [apply vectorize_unique|].
  intros k x Hk. rewrite vectorize_lookup in Hk.
  destruct (count_token tokens k) as [|c] eqn:E; [discriminate|].
  cbn [Nat.eqb] in Hk. injection Hk as <-.
  rewrite <- sqrt_1 at 1. apply sqrt_le_1_alt.
  change (1 <= INR (S c)). rewrite S_INR. pose proof (pos_INR c). lra.
Qed.

(** X6: Over exact numbers [vectorize] is the square root of the term
    frequency: a token that occurs [c >= 1] times gets the weight
    [sqrt c], a string that does not occur is no key; the keys are
    unique and every weight is at least 1. *)
Theorem vectorize_sqrt_counts :
  forall (tokens : list string),
    unique_keys (vectorize (F:=R) tokens)
    /\ weights_ge_1 (vectorize tokens)
    /\ forall t : string,
         (In t tokens -> sget (vectorize tokens) t = Some (sqrt (INR (count_token tokens t))))
         /\ (~ In t tokens -> sget (vectorize tokens) t = None).
Proof.
  intros tokens. split; [apply vectorize_unique|]. split.
  - apply vectorize_weights.
  - intros t. rewrite vectorize_lookup. split; intros H.
    + apply count_token_In in H. now rewrite H.
    + destruct (count_token tokens t =? 0)%nat eqn:E; [reflexivity|].
      apply count_token_In in E. contradiction.
Qed.
End Vectorize.

(* ================================================================== *)
(** * Tab vectors and centroids over exact numbers *)

Section Centroids.
Variable URL_new : string -> option Url.
Local Open Scope R_scope.

Lemma cond_loop_unique (skip : string -> bool) (f : R -> R) (l : vec R) :
  forall out : vec R,
    unique_keys out ->
    unique_keys (fold_left (fun out' kv => if skip (fst kv) then out'
                                           else sset out' (fst kv) (f (snd kv))) l out).
Proof.
  induction l as [|kv l IH]; intros out Hout; simpl; [assumption|].
  apply IH. destruct (skip (fst kv)); [assumption|].
  now apply (mset_unique_keys _ Seqb_eq).
Qed.

Lemma mergeCentroid_unique (c v : vec R) (n : nat) :
  unique_keys c -> unique_keys (mergeCentroid c v n).
Proof.
  intros Hc. unfold mergeCentroid.
  apply (cond_loop_unique (shas v)
           (fun x => ndiv (nmul x (of_nat n)) (nadd (of_nat n) one))).
  unfold sset.
  apply (fold_mset_unique_keys
           (fun out kv => Some (ndiv (nadd (nmul (or0 (sget out (fst kv))) (of_nat n)) (snd kv))
                                     (nadd (of_nat n) one))) v c Hc).
Qed.

Lemma weight_mergeCentroid (c v : vec R) (n : nat) (k : string) :
  unique_keys c -> unique_keys v ->
  weight (mergeCentroid c v n) k = (weight c k * INR n + weight v k) / (INR n + 1).
Proof.
  intros Hc Hv. unfold weight at 1. rewrite (mergeCentroid_lookup c v n Hc Hv k).
  destruct (shas c k || shas v k) eqn:E; [reflexivity|].
  apply orb_false_iff in E. destruct E as [E1 E2].
  unfold shas, mhas in E1, E2. unfold weight, sget.
  destruct (mget String.eqb c k); [discriminate|].
  destruct (mget String.eqb v k); [discriminate|].
  unfold zero. simpl. unfold Rdiv. ring.
Qed.

Lemma shas_mergeCentroid (c v : vec R) (n : nat) (k : string) :
  unique_keys c -> unique_keys v ->
  shas (mergeCentroid c v n) k = shas c k || shas v k.
Proof.
  intros Hc Hv. unfold shas at 1. unfold mhas. fold (sget (mergeCentroid c v n) k).
  rewrite (mergeCentroid_lookup c v n Hc Hv k).
  now destruct (shas c k || shas v k).
Qed.

(** X8: [mergeCentroid] keeps a [Map] well formed: on maps with unique keys
    the result has unique keys, which are those of the centroid and of
    the vector together, and it has no negative weight when its
    arguments have none.  With [n = 0], which is how [clusterTabs] calls
    it for the first tab that joins a seed, the weights of the result
    are those of the vector: what the seed's centroid held is scaled to
    0. *)
Theorem mergeCentroid_wellformed :
  forall (c v : vec R) (n : nat),
    unique_keys c -> unique_keys v ->
    unique_keys (mergeCentroid c v n)
    /\ (forall k, shas (mergeCentroid c v n) k = shas c k || shas v k)
    /\ (nonneg c -> nonneg v -> nonneg (mergeCentroid c v n))
    /\ (forall k, weight (mergeCentroid c v 0) k = weight v k).
Proof.
  intros c v n Hc Hv.
  split; [now apply mergeCentroid_unique|].
  split; [intros k; now apply shas_mergeCentroid|].
  split.
  - intros Hnc Hnv. apply unique_keys_entries; [now apply mergeCentroid_unique|].
    intros k x Hk.
    assert (Hw : weight (mergeCentroid c v n) k = x) by (unfold weight; now rewrite Hk).
    rewrite weight_mergeCentroid in Hw by assumption. rewrite <- Hw.
    pose proof (weight_nonneg c k Hnc). pose proof (weight_nonneg v k Hnv).
    pose proof (pos_INR n).
    apply Rmult_le_pos; [nra|]. left. apply Rinv_0_lt_compat. lra.
  - intros k. rewrite weight_mergeCentroid by assumption. simpl. field.
Qed.
End Centroids.

Lemma mergeCentroid_wellformed_witness :
  unique_keys paris_trip /\ unique_keys paris_hotel
  /\ unique_keys (mergeCentroid paris_trip paris_hotel 1)
  /\ (forall k, shas (mergeCentroid paris_trip paris_hotel 1) k
                = shas paris_trip k || shas paris_hotel k)
  /\ (nonneg paris_trip -> nonneg paris_hotel ->
      nonneg (mergeCentroid paris_trip paris_hotel 1))
  /\ (forall k, weight (mergeCentroid paris_trip paris_hotel 0) k = weight paris_hotel k).
Proof.
  assert (H1 : unique_keys paris_trip).
  { repeat constructor; simpl; intuition discriminate. }
  assert (H2 : unique_keys paris_hotel).
  { repeat constructor; simpl; intuition discriminate. }
  split; [exact H1|]. split; [exact H2|].
  exact (mergeCentroid_wellformed paris_trip paris_hotel 1 H1 H2).
Defined.

(* ================================================================== *)
(** * Tabs without any token *)

Section EmptyVectors.
Variable URL_new : string -> option Url.
Variables (threshold : R) (now : Z) (rnd : nat -> string).
Hypothesis bar_nonneg : (NEW_GROUP_PENALTY <= threshold)%R.
Local Open Scope R_scope.

Lemma score_empty_centroid (fv : FV R) (g : Group R) :
  g_centroid g = [] -> (g_size g <= 1)%nat -> score fv g = 0.
Proof.
  intros Hc Hs. unfold score. rewrite Hc, cosine_empty_r.
  replace (2 <=? g_size g)%nat with false by (symmetry; apply Nat.leb_gt; lia).
  now rewrite andb_false_r.
Qed.

Lemma score_empty_vec (fv : FV R) (g : Group R) :
  fv_vec fv = [] -> fv_host fv = "" -> score fv g = 0.
Proof. intros Hv Hh. unfold score. now rewrite Hv, Hh. Qed.

Lemma tabVector_empty (t : Tab) :
  fv_vec (tabVector (F:=R) URL_new t) = [] ->
  fv_host (tabVector (F:=R) URL_new t) = ""
  /\ fv_allTokens (tabVector (F:=R) URL_new t) = [].
Proof.
  unfold tabVector. destruct (parseUrl URL_new (tab_url t)) as [host pathTokens].
  cbv zeta.
  generalize (tokenize (tab_title t) ++ pathTokens
              ++ map (fun c => ("ctx:" ++ c)%string) (firstn 120 (tab_contextTokens t))).
  intros ts. cbn [fv_vec fv_host fv_allTokens].
  destruct (String.eqb host "") eqn:E.
  - apply String.eqb_eq in E. intros Hv. split; [exact E|].
    destruct ts as [|x ts']; [reflexivity|].
    pose proof (vectorize_lookup (x :: ts') x) as Hl. rewrite Hv in Hl.
    assert (Hin : In x (x :: ts')) by now left.
    apply count_token_In in Hin. rewrite Hin in Hl. discriminate.
  - intros Hv. exfalso.
    assert (Hget : sget (sset (vectorize ts) (hostToken host)
                              (nadd (or0 (sget (vectorize ts) (hostToken host))) SQRT2))
                        (hostToken host) <> None).
    { unfold sget at 1. unfold sset. rewrite (mget_mset_same _ Seqb_eq). discriminate. }
    rewrite Hv in Hget. now apply Hget.
Qed.

(** A cluster of one tab with an empty centroid stays as it is. *)
Lemma assignTab_lone_stays vecs (st : State R) t id g0 :
  lone_empty id g0 -> In g0 (st_groups st) ->
  In g0 (st_groups (assignTab threshold now rnd vecs st t)).
Proof.
  intros (Ht & Hc & Hs) Hin.
  destruct (assignTab_cases threshold now rnd vecs st t)
    as [[_ ->]|(i & g & E & Hn & ->)]; simpl.
  - apply in_or_app. now left.
  - destruct (scan_spec (vecs_get vecs (tab_id t)) (st_groups st) 0 None
                        (threshold - NEW_GROUP_PENALTY))
      as [(Hb & _)|(j & g' & Hb & Hn' & _ & Hgt & _)];
      [simpl in Hb, E; rewrite E in Hb; discriminate|].
    simpl in Hb, E. rewrite E in Hb. injection Hb as ->.
    rewrite Hn in Hn'. injection Hn' as <-.
    destruct (update_nth_split
                (joinGroup now (vecs_get vecs (tab_id t)) (tab_id t)) _ _ _ Hn)
      as (l1 & l2 & Hsplit & _ & ->).
    rewrite Hsplit in Hin. apply in_app_or in Hin. destruct Hin as [Hin|[<-|Hin]].
    + apply in_or_app. now left.
    + exfalso. rewrite (score_empty_centroid _ g Hc) in Hgt by lia. lra.
    + apply in_or_app. right. now right.
Qed.

Lemma loop_lone_stays vecs tabs id g0 : forall st : State R,
  lone_empty id g0 -> In g0 (st_groups st) ->
  In g0 (st_groups (fold_left (assignTab threshold now rnd vecs) tabs st)).
Proof.
  induction tabs as [|t tabs IH]; intros st Hl Hin; simpl; [assumption|].
  apply IH; [assumption|]. now apply (assignTab_lone_stays vecs st t id).
Qed.

(** A tab without any token opens a cluster of its own. *)
Lemma assignTab_opens_lone vecs (st : State R) t :
  fv_vec (vecs_get vecs (tab_id t)) = [] ->
  fv_host (vecs_get vecs (tab_id t)) = "" ->
  fv_allTokens (vecs_get vecs (tab_id t)) = [] ->
  exists g0, In g0 (st_groups (assignTab threshold now rnd vecs st t))
             /\ lone_empty (tab_id t) g0
             /\ g_id g0 = ("group-" ++ rnd (st_draws st))%string.
Proof.
  intros Hv Hh Ha.
  destruct (assignTab_cases threshold now rnd vecs st t)
    as [[_ ->]|(i & g & E & Hn & _)]; simpl.
  - eexists. split; [apply in_or_app; right; left; reflexivity|].
    unfold lone_empty, newGroup. simpl. rewrite Hv, Ha. repeat split.
  - exfalso.
    destruct (scan_spec (vecs_get vecs (tab_id t)) (st_groups st) 0 None
                        (threshold - NEW_GROUP_PENALTY))
      as [(Hb & _)|(j & g' & Hb & Hn' & _ & Hgt & _)];
      [simpl in Hb, E; rewrite E in Hb; discriminate|].
    rewrite (score_empty_vec _ g' Hv Hh) in Hgt. lra.
Qed.

(** X11: In a batch with pairwise distinct ids, when the bar
    [threshold - 0.02] is not negative, a tab whose vector is empty (no
    token in its title, path or context and no host) is never merged
    with another tab: the output has a cluster that holds this tab
    alone, with an empty centroid and an id of the form
    [group-<suffix>]. *)
Theorem clusterTabs_empty_vector_alone :
  forall (tabs : list Tab) (prev : list (Group R)) (t : Tab),
    NoDup (map tab_id tabs) -> In t tabs ->
    fv_vec (tabVector (F:=R) URL_new t) = [] ->
    exists g i,
      In g (groups (clusterTabs URL_new now rnd tabs prev threshold))
      /\ g_tabIds g = [tab_id t] /\ g_centroid g = []
      /\ g_id g = ("group-" ++ rnd i)%string.
Proof.
  intros tabs prev t Hnd Hin Hv.
  destruct (in_split _ _ Hin) as (pre & post & Hsplit).
  destruct (tabVector_empty t Hv) as [Hh Ha].
  pose proof (vecs_get_own URL_new tabs t Hnd Hin) as Hown.
  set (vecs := build_vecs URL_new tabs) in *.
  set (st := fold_left (assignTab threshold now rnd vecs) pre (initState now prev)).
  destruct (assignTab_opens_lone vecs st t) as (g0 & Hg0 & Hlone & Hid);
    try (rewrite Hown; assumption).
  exists g0, (st_draws st).
  destruct Hlone as (Ht & Hc & Hs).
  split; [|auto].
  apply clusterTabs_groups_In. split; [|rewrite Ht; discriminate].
  unfold runLoop. fold vecs. rewrite Hsplit, fold_left_app. simpl. fold st.
  apply (loop_lone_stays vecs post (tab_id t)); [repeat split; assumption | exact Hg0].
Qed.
End EmptyVectors.

Lemma clusterTabs_empty_vector_alone_witness :
  (NEW_GROUP_PENALTY <= DEFAULT_SIM_THRESHOLD)%R
  /\ NoDup (map tab_id [titled 1 ""; titled 2 "Hotels in Paris"])
  /\ In (titled 1 "") [titled 1 ""; titled 2 "Hotels in Paris"]
  /\ fv_vec (tabVector (F:=R) no_urls (titled 1 "")) = []
  /\ exists g i,
       In g (groups (clusterTabs no_urls 0 sample_rnd
                       [titled 1 ""; titled 2 "Hotels in Paris"] [] DEFAULT_SIM_THRESHOLD))
       /\ g_tabIds g = [tab_id (titled 1 "")] /\ g_centroid g = []
       /\ g_id g = ("group-" ++ sample_rnd i)%string.
Proof.
  assert (H1 : (NEW_GROUP_PENALTY <= DEFAULT_SIM_THRESHOLD)%R).
  { destruct real_constants as (-> & _ & ->). lra. }
  assert (H2 : NoDup (map tab_id [titled 1 ""; titled 2 "Hotels in Paris"])).
  { simpl. repeat constructor; simpl; intuition discriminate. }
  assert (H3 : In (titled 1 "") [titled 1 ""; titled 2 "Hotels in Paris"]) by (now left).
  assert (H4 : fv_vec (tabVector (F:=R) no_urls (titled 1 "")) = []) by reflexivity.
  split; [exact H1|]. split; [exact H2|]. split; [exact H3|]. split; [exact H4|].
  exact (clusterTabs_empty_vector_alone no_urls DEFAULT_SIM_THRESHOLD 0%Z sample_rnd H1
           [titled 1 ""; titled 2 "Hotels in Paris"] [] (titled 1 "") H2 H3 H4).
Defined.

(* ================================================================== *)
(** * Deleting from a [Map] *)

Section DeleteFacts.
Context {K V : Type} (eqb : K -> K -> bool).
Hypothesis eqb_eq : forall a b, eqb a b = true <-> a = b.

Lemma mget_mdelete_same (m : list (K * V)) k : mget eqb (mdelete eqb m k) k = None.
Proof.
  unfold mdelete. induction m as [|[k' v] m IH]; simpl; [reflexivity|].
  destruct (eqb k' k) eqn:E; simpl; [exact IH | now rewrite E].
Qed.

Lemma mget_mdelete_other (m : list (K * V)) k k' :
  k <> k' -> mget eqb (mdelete eqb m k) k' = mget eqb m k'.
Proof.
  intros Hne. unfold mdelete. induction m as [|[k0 v] m IH]; simpl; [reflexivity|].
  destruct (eqb k0 k) eqn:E; simpl.
  - apply eqb_eq in E. subst k0. now rewrite (eqb_neq' eqb eqb_eq k k' Hne).
  - now rewrite IH.
Qed.

Lemma mdelete_In (m : list (K * V)) k kv :
  In kv (mdelete eqb m k) <-> In kv m /\ fst kv <> k.
Proof.
  unfold mdelete. rewrite filter_In. split; intros [H1 H2]; split; auto.
  - intros E. apply eqb_eq in E. rewrite E in H2. discriminate.
  - destruct (eqb (fst kv) k) eqn:E; [apply eqb_eq in E; contradiction | reflexivity].
Qed.

Lemma mdelete_unique_keys (m : list (K * V)) k :
  NoDup (mkeys m) -> NoDup (mkeys (mdelete eqb m k)).
Proof.
  unfold mdelete, mkeys. induction m as [|[k' v] m IH]; simpl; [auto|].
  intros Hnd. inversion Hnd as [|? ? Hk Hnd']; subst.
  destruct (eqb k' k); simpl; [auto|].
  constructor; [|auto].
  intros Hin. apply Hk. apply in_map_iff in Hin. destruct Hin as (kv & E & Hkv).
  apply filter_In in Hkv. apply in_map_iff. exists kv. tauto.
Qed.
End DeleteFacts.

(* ================================================================== *)
(** * The extraction cache *)

Section CacheFacts.
Variable Data : Type.

(** X12: What [getCachedExtraction] returns was cached for this tab under
    this URL no longer than five minutes ago, and the cache is left as
    it was; after a miss the cache holds nothing for the tab.  The
    entries of other tabs are never touched. *)
Theorem getCachedExtraction_sound :
  forall (now : Z) (cache : list (Z * Extraction Data)) (tabId : Z) (url : string),
    let r := getCachedExtraction Data now cache tabId url in
    (forall entry, fst r = Some entry ->
       snd r = cache /\ mget Z.eqb cache tabId = Some entry
       /\ ex_url entry = url
       /\ (now - ex_capturedAt entry <= EXTRACTION_TTL_MS)%Z)
    /\ (fst r = None -> mget Z.eqb (snd r) tabId = None)
    /\ (forall other, other <> tabId ->
          mget Z.eqb (snd r) other = mget Z.eqb cache other).
Proof.
  intros now cache tabId url. unfold getCachedExtraction.
  destruct (mget Z.eqb cache tabId) as [e|] eqn:E; simpl.
  - destruct (String.eqb (ex_url e) url) eqn:Eu; simpl.
    + destruct (EXTRACTION_TTL_MS <? now - ex_capturedAt e)%Z eqn:Et; simpl.
      * split; [discriminate|]. split.
        -- intros _. apply (mget_mdelete_same _).
        -- intros other Hne. apply (mget_mdelete_other _ Zeqb_eq). congruence.
      * split; [|split; [discriminate | reflexivity]].
        intros entry [= <-]. apply String.eqb_eq in Eu. apply Z.ltb_ge in Et. auto.
    + split; [discriminate|]. split.
      * intros _. apply (mget_mdelete_same _).
      * intros other Hne. apply (mget_mdelete_other _ Zeqb_eq). congruence.
  - split; [discriminate|]. split; [intros _; exact E | reflexivity].
Qed.

(** X13: An extraction cached for a tab is served again for the same URL
    for five minutes. *)
Theorem cacheExtraction_then_get :
  forall (now later : Z) (cache : list (Z * Extraction Data)) (tabId : Z)
         (url : string) (data : Data),
    (later - now <= EXTRACTION_TTL_MS)%Z ->
    let stored := cacheExtraction Data now cache tabId url data in
    getCachedExtraction Data later (snd stored) tabId url = (Some (fst stored), snd stored)
    /\ ex_data (fst stored) = data.
Proof.
  intros now later cache tabId url data Hfresh. simpl.
  unfold getCachedExtraction. rewrite (mget_mset_same _ Zeqb_eq). simpl.
  rewrite String.eqb_refl. simpl.
  replace (EXTRACTION_TTL_MS <? later - now)%Z with false
    by (symmetry; now apply Z.ltb_ge).
  auto.
Qed.
End CacheFacts.

Lemma cacheExtraction_then_get_witness :
  (1000 - 0 <= EXTRACTION_TTL_MS)%Z
  /\ let stored := cacheExtraction string 0 [] 7 "https://example.org/a" "text" in
     getCachedExtraction string 1000 (snd stored) 7 "https://example.org/a"
     = (Some (fst stored), snd stored)
     /\ ex_data (fst stored) = "text".
Proof.
  assert (H : (1000 - 0 <= EXTRACTION_TTL_MS)%Z) by (vm_compute; discriminate).
  split; [exact H|].
  exact (cacheExtraction_then_get string 0 1000 [] 7 "https://example.org/a" "text" H).
Defined.

(* ================================================================== *)
(** * Tab events *)

Section TabEvents.
Context {F : Type}.
Variable URL_new : string -> option Url.
Variable Data : Type.

Lemma mset_In {K V : Type} (eqb : K -> K -> bool) (m : list (K * V)) k v kv :
  (forall a b, eqb a b = true <-> a = b) ->
  In kv (mset eqb m k v) -> kv = (k, v) \/ In kv m.
Proof.
  intros eqb_eq. induction m as [|[k' v'] m IH]; simpl.
  - intros [<-|[]]. now left.
  - destruct (eqb k' k) eqn:E; simpl.
    + apply eqb_eq in E. subst k'. intros [<-|H]; [now left | auto].
    + intros [<-|H]; [auto|]. destruct (IH H); auto.
Qed.

Lemma onCreated_wf (st : SW F Data) id title url :
  tabs_wf URL_new (sw_tabs st) ->
  tabs_wf URL_new (sw_tabs (fst (onCreated URL_new Data st id title url))).
Proof.
  intros [Hnd Hall]. simpl. split; [now apply (mset_unique_keys _ Zeqb_eq)|].
  intros k m Hin. apply (mset_In _ _ _ _ _ Zeqb_eq) in Hin.
  destruct Hin as [[= -> ->]|Hin]; [simpl; auto | now apply Hall].
Qed.

Lemma onUpdated_wf (st : SW F Data) tabId changeInfo :
  tabs_wf URL_new (sw_tabs st) ->
  tabs_wf URL_new (sw_tabs (fst (onUpdated URL_new Data st tabId changeInfo))).
Proof.
  intros [Hnd Hall]. simpl. split; [now apply (mset_unique_keys _ Zeqb_eq)|].
  intros k m Hin. apply (mset_In _ _ _ _ _ Zeqb_eq) in Hin.
  destruct Hin as [[= -> ->]|Hin]; [|now apply Hall].
  assert (H0 : forall m0,
             m0 = match mget Z.eqb (sw_tabs st) tabId with
                  | Some m => m
                  | None => {| tm_id := tabId; tm_title := ""; tm_url := ""; tm_host := "" |}
                  end ->
             tm_id m0 = tabId /\ tm_host m0 = hostOf URL_new (tm_url m0)).
  { intros m0 ->. destruct (mget Z.eqb (sw_tabs st) tabId) as [m|] eqn:E.
    - apply (mget_Some_In _ Zeqb_eq) in E. now apply Hall.
    - simpl. auto. }
  specialize (H0 _ eq_refl). destruct H0 as [Hid Hhost].
  destruct (ci_title changeInfo), (ci_url changeInfo); simpl; auto.
Qed.

Lemma onRemoved_wf (st : SW F Data) tabId :
  tabs_wf URL_new (sw_tabs st) ->
  tabs_wf URL_new (sw_tabs (fst (onRemoved Data st tabId))).
Proof.
  intros [Hnd Hall]. simpl. split; [now apply mdelete_unique_keys|].
  intros k m Hin. apply (mdelete_In _ Zeqb_eq) in Hin. now apply Hall.
Qed.

Lemma onReplaced_wf (st : SW F Data) added removed :
  tabs_wf URL_new (sw_tabs st) ->
  tabs_wf URL_new (sw_tabs (fst (onReplaced Data st added removed))).
Proof.
  intros [Hnd Hall]. simpl.
  destruct (mget Z.eqb (sw_tabs st) removed) as [old|] eqn:E; [|now split].
  split.
  - apply (mset_unique_keys _ Zeqb_eq). now apply mdelete_unique_keys.
  - intros k m Hin. apply (mset_In _ _ _ _ _ Zeqb_eq) in Hin.
    destruct Hin as [[= -> ->]|Hin].
    + simpl. split; [reflexivity|].
      apply (mget_Some_In _ Zeqb_eq) in E. exact (proj2 (Hall _ _ E)).
    + apply (mdelete_In _ Zeqb_eq) in Hin. now apply Hall.
Qed.

(** X14: Every sequence of tab events keeps the table of tab records well
    formed: unique keys, every record stored under its own id, and the
    host of every record the host of its URL. *)
Theorem tab_events_keep_table :
  forall (es : list TabEvent) (st : SW F Data),
    tabs_wf URL_new (sw_tabs st) ->
    tabs_wf URL_new (sw_tabs (handle_all URL_new Data st es)).
Proof.
  unfold handle_all. induction es as [|e es IH]; intros st Hwf; simpl; [assumption|].
  apply IH. destruct e; simpl handle.
  - now apply onCreated_wf.
  - now apply onUpdated_wf.
  - now apply onRemoved_wf.
  - now apply onReplaced_wf.
Qed.

Lemma remove_first_other (x y : Z) (xs : list Z) :
  y <> x -> (In y (remove_first x xs) <-> In y xs).
Proof.
  intros Hne. induction xs as [|z xs IH]; simpl; [tauto|].
  destruct (Z.eqb z x) eqn:E.
  - apply Z.eqb_eq in E. subst z. split; [auto | intros [H|H]; [congruence | auto]].
  - simpl. rewrite IH. tauto.
Qed.

Lemma remove_first_gone (x : Z) (xs : list Z) :
  NoDup xs -> ~ In x (remove_first x xs).
Proof.
  induction xs as [|z xs IH]; simpl; [tauto|].
  intros Hnd. inversion Hnd as [|? ? Hz Hnd']; subst.
  destruct (Z.eqb z x) eqn:E.
  - apply Z.eqb_eq in E. now subst z.
  - apply Z.eqb_neq in E. simpl. intros [H|H]; [contradiction | now apply IH].
Qed.

Lemma sdelete_gone (s : list Z) (x : Z) : ~ In x (sdelete s x).
Proof.
  unfold sdelete. intros H. apply filter_In in H. destruct H as [_ H].
  rewrite Z.eqb_refl in H. discriminate.
Qed.

(** X15: [tabs.onRemoved] erases the tab: afterwards the tab has no record,
    no cached extraction, no content-script mark and no assignment, and
    no group whose [tabIds] were free of repetitions holds it.  Nothing
    else changes: the other records and assignments are as before, and
    every group is still there (an emptied one included) with its id,
    label, summary and centroid, holding the other tabs it held, its size
    being the number of its members when it held the tab. *)
Theorem onRemoved_erases_tab :
  forall (st : SW F Data) (tabId : Z),
    let st' := fst (onRemoved Data st tabId) in
    mget Z.eqb (sw_tabs st') tabId = None
    /\ mget Z.eqb (sw_extractions st') tabId = None
    /\ ~ In tabId (sw_contentScriptTabs st')
    /\ has_assignment (sw_assignments st') tabId = false
    /\ (forall other, other <> tabId ->
          mget Z.eqb (sw_tabs st') other = mget Z.eqb (sw_tabs st) other
          /\ mget Z.eqb (sw_assignments st') other = mget Z.eqb (sw_assignments st) other)
    /\ Forall2 (fun g g' : Group F =>
                  g_id g' = g_id g /\ g_label g' = g_label g
                  /\ g_summary g' = g_summary g /\ g_centroid g' = g_centroid g
                  /\ (forall other, other <> tabId ->
                        (In other (g_tabIds g') <-> In other (g_tabIds g)))
                  /\ (NoDup (g_tabIds g) -> ~ In tabId (g_tabIds g'))
                  /\ (In tabId (g_tabIds g) -> g_size g' = List.length (g_tabIds g')))
               (sw_groups st) (sw_groups st').
Proof.
  intros st tabId. simpl.
  split; [apply mget_mdelete_same|].
  split; [apply mget_mdelete_same|].
  split; [apply sdelete_gone|].
  split.
  { destruct (has_assignment (sw_assignments st) tabId) eqn:E; [|exact E].
    unfold has_assignment. now rewrite mget_mdelete_same. }
  split.
  { intros other Hne. split.
    - apply (mget_mdelete_other _ Zeqb_eq). congruence.
    - destruct (has_assignment (sw_assignments st) tabId); [|reflexivity].
      apply (mget_mdelete_other _ Zeqb_eq). congruence. }
  induction (sw_groups st) as [|g gs IH]; simpl; constructor; [|exact IH].
  unfold dropMember. destruct (id_in (g_tabIds g) tabId) eqn:E; simpl.
  - repeat split; auto.
    + now apply remove_first_other.
    + now apply remove_first_other.
    + intros Hnd. now apply remove_first_gone.
  - repeat split; auto.
    + intros _ Hin. apply id_in_In in Hin. congruence.
    + intros Hin. apply id_in_In in Hin. congruence.
Qed.
(** X16: [tabs.onReplaced] moves the record of the replaced tab under the new
    id, with the new id written in it and title, URL and host as they
    were; without a record the table is untouched.  Either way neither
    tab keeps a cached extraction or a content-script mark, and groups
    and assignments still name the replaced tab. *)
Theorem onReplaced_moves_record :
  forall (st : SW F Data) (added removed : Z),
    let st' := fst (onReplaced Data st added removed) in
    (forall old, mget Z.eqb (sw_tabs st) removed = Some old ->
       mget Z.eqb (sw_tabs st') added =
         Some {| tm_id := added; tm_title := tm_title old;
                 tm_url := tm_url old; tm_host := tm_host old |}
       /\ (removed <> added -> mget Z.eqb (sw_tabs st') removed = None)
       /\ (forall other, other <> added -> other <> removed ->
             mget Z.eqb (sw_tabs st') other = mget Z.eqb (sw_tabs st) other))
    /\ (mget Z.eqb (sw_tabs st) removed = None -> sw_tabs st' = sw_tabs st)
    /\ mget Z.eqb (sw_extractions st') added = None
    /\ mget Z.eqb (sw_extractions st') removed = None
    /\ ~ In added (sw_contentScriptTabs st')
    /\ ~ In removed (sw_contentScriptTabs st')
    /\ sw_groups st' = sw_groups st
    /\ sw_assignments st' = sw_assignments st.
Proof.
  intros st added removed. simpl.
  split.
  { intros old E. rewrite E. split; [apply (mget_mset_same _ Zeqb_eq)|]. split.
    - intros Hne. rewrite (mget_mset_other _ Zeqb_eq) by congruence.
      apply mget_mdelete_same.
    - intros other Ha Hr. rewrite (mget_mset_other _ Zeqb_eq) by congruence.
      apply (mget_mdelete_other _ Zeqb_eq). congruence. }
  split; [intros E; now rewrite E|].
  unfold invalidateExtraction.
  split; [apply mget_mdelete_same|].
  split.
  { destruct (Z.eq_dec removed added) as [->|Hne]; [apply mget_mdelete_same|].
    rewrite (mget_mdelete_other _ Zeqb_eq) by congruence. apply mget_mdelete_same. }
  split; [apply sdelete_gone|].
  split; [|split; reflexivity].
  unfold sdelete. rewrite !filter_In. intros [[_ H] _].
  rewrite Z.eqb_refl in H. discriminate.
Qed.

(** X17: [tabs.onUpdated] on a navigation (the status is loading, or a new URL
    is reported) forgets the tab's cached extraction and content-script
    mark, so that a later [getCachedExtraction] for the tab finds nothing
    whatever the URL and the clock; any other update leaves cache and
    marks as they are.  The record stored for the tab carries the new
    title and the new URL with its host when they are reported, and what
    was there otherwise; [recluster] runs exactly when one of the two is
    reported. *)
Theorem onUpdated_navigation_invalidates :
  forall (st : SW F Data) (tabId : Z) (changeInfo : ChangeInfo),
    let st' := fst (onUpdated URL_new Data st tabId changeInfo) in
    let navigated :=
      ci_loading changeInfo = true \/ exists u, ci_url changeInfo = Some u in
    (navigated ->
       (forall now url,
          fst (getCachedExtraction Data now (sw_extractions st') tabId url) = None)
       /\ ~ In tabId (sw_contentScriptTabs st'))
    /\ (~ navigated ->
         sw_extractions st' = sw_extractions st
         /\ sw_contentScriptTabs st' = sw_contentScriptTabs st)
    /\ (exists m, mget Z.eqb (sw_tabs st') tabId = Some m
         /\ (forall t, ci_title changeInfo = Some t -> tm_title m = t)
         /\ (forall u, ci_url changeInfo = Some u ->
               tm_url m = u /\ tm_host m = hostOf URL_new u)
         /\ (forall old, mget Z.eqb (sw_tabs st) tabId = Some old ->
               (ci_title changeInfo = None -> tm_title m = tm_title old)
               /\ (ci_url changeInfo = None ->
                     tm_url m = tm_url old /\ tm_host m = tm_host old)))
    /\ (snd (onUpdated URL_new Data st tabId changeInfo) = true <->
         ci_title changeInfo <> None \/ ci_url changeInfo <> None).
Proof.
  intros st tabId changeInfo. cbv zeta. unfold onUpdated. cbn [fst snd].
  cbn [sw_tabs sw_extractions sw_contentScriptTabs].
  split.
  { intros Hnav.
    assert (E : ci_loading changeInfo
                || match ci_url changeInfo with Some _ => true | None => false end = true).
    { destruct Hnav as [->|[u ->]]; [reflexivity | apply orb_true_r]. }
    rewrite E. split; [|apply sdelete_gone].
    intros now url. unfold getCachedExtraction, invalidateExtraction.
    now rewrite mget_mdelete_same. }
  split.
  { intros Hnav.
    destruct (ci_loading changeInfo) eqn:El; [exfalso; apply Hnav; now left|].
    destruct (ci_url changeInfo) as [u|] eqn:Eu; [exfalso; apply Hnav; right; eauto|].
    simpl. split; reflexivity. }
  split.
  { eexists. split; [apply (mget_mset_same _ Zeqb_eq)|].
    split; [|split].
    - intros t ->. destruct (ci_url changeInfo); reflexivity.
    - intros u ->. split; reflexivity.
    - intros old ->. split.
      + intros ->. destruct (ci_url changeInfo); reflexivity.
      + intros ->. destruct (ci_title changeInfo); split; reflexivity. }
  destruct (ci_title changeInfo), (ci_url changeInfo); split; intros H;
    try reflexivity; try discriminate; try (left; discriminate);
    try (right; discriminate).
  destruct H as [H|H]; contradiction.
Qed.
End TabEvents.

Lemma tab_events_keep_table_witness :
  tabs_wf no_urls (sw_tabs (F:=float) (Data:=unit)
                     {| sw_tabs := []; sw_groups := []; sw_assignments := [];
                        sw_contentScriptTabs := []; sw_extractions := [] |})
  /\ tabs_wf no_urls
       (sw_tabs (handle_all (F:=float) no_urls unit
                   {| sw_tabs := []; sw_groups := []; sw_assignments := [];
                      sw_contentScriptTabs := []; sw_extractions := [] |}
                   [Created 1 "Paris trip" "https://example.com/paris";
                    Updated 2 {| ci_loading := true; ci_title := Some "Hotels";
                                 ci_url := None |};
                    Replaced 3 1;
                    Removed 2])).
Proof.
  assert (H : tabs_wf no_urls (@nil (Z * TabMeta))).
  { split; [constructor | intros k m []]. }
  split; [exact H|].
  apply (tab_events_keep_table (F:=float) no_urls unit). exact H.
Defined.


(* ================================================================== *)
(** * Colours of native tab groups *)

Lemma to_int32_range (z : Z) : (- 2 ^ 31 <= to_int32 z < 2 ^ 31)%Z.
Proof.
  unfold to_int32.
  pose proof (Z.mod_pos_bound (z + 2 ^ 31) (2 ^ 32) ltac:(lia)). lia.
Qed.

Lemma to_int32_congr (a b : Z) :
  (a mod 2 ^ 32 = b mod 2 ^ 32)%Z -> to_int32 a = to_int32 b.
Proof.
  intros H. unfold to_int32.
  rewrite <- (Zplus_mod_idemp_l a), <- (Zplus_mod_idemp_l b), H. reflexivity.
Qed.

Lemma to_int32_mod (z : Z) : (to_int32 z mod 2 ^ 32 = z mod 2 ^ 32)%Z.
Proof.
  unfold to_int32.
  rewrite Zminus_mod_idemp_l. f_equal. lia.
Qed.

Lemma to_int32_small (z : Z) : (- 2 ^ 31 <= z < 2 ^ 31)%Z -> to_int32 z = z.
Proof.
  intros H. unfold to_int32. rewrite Z.mod_small; lia.
Qed.

Lemma hash_step (h c : Z) :
  to_int32 (to_int32 (Z.shiftl h 5) - h + c) = to_int32 (31 * h + c).
Proof.
  apply to_int32_congr.
  rewrite Z.shiftl_mul_pow2 by lia.
  rewrite <- Zplus_mod_idemp_l, <- Zminus_mod_idemp_l, to_int32_mod.
  rewrite Zminus_mod_idemp_l, Zplus_mod_idemp_l. f_equal. lia.
Qed.

Lemma hash_loop_poly31 (label : string) : forall a b : Z,
  (a mod 2 ^ 32 = b mod 2 ^ 32)%Z ->
  hash_loop label (to_int32 a) = to_int32 (poly31 label b).
Proof.
  induction label as [|c rest IH]; intros a b Hab; cbn [hash_loop poly31].
  - now apply to_int32_congr.
  - rewrite hash_step. apply IH.
    rewrite <- Zplus_mod_idemp_l, <- Zmult_mod_idemp_r, to_int32_mod, Hab.
    rewrite Zmult_mod_idemp_r, Zplus_mod_idemp_l. reflexivity.
Qed.

(** X18: [hashLabel] is the polynomial hash of the label in base 31 read as a
    32-bit two's complement integer: truncating after every character
    gives what truncating once at the end gives.  So the hash lies in
    the int32 range, and labels whose polynomial fits that range hash to
    the polynomial itself. *)
Theorem hashLabel_is_poly31 :
  forall label : string,
    hashLabel label = to_int32 (poly31 label 0)
    /\ (- 2 ^ 31 <= hashLabel label < 2 ^ 31)%Z
    /\ ((poly31 label 0 < 2 ^ 31)%Z -> hashLabel label = poly31 label 0).
Proof.
  intros label.
  assert (E : hashLabel label = to_int32 (poly31 label 0)).
  { unfold hashLabel. change 0%Z with (to_int32 0) at 1.
    now apply hash_loop_poly31. }
  split; [exact E|]. split; [rewrite E; apply to_int32_range|].
  intros Hlt. rewrite E. apply to_int32_small.
  assert (Hpos : forall l a, (0 <= a)%Z -> (0 <= poly31 l a)%Z).
  { induction l as [|c l IH]; intros a Ha; cbn [poly31]; [exact Ha|].
    apply IH. unfold charCode. lia. }
  specialize (Hpos label 0%Z ltac:(lia)). lia.
Qed.

Lemma GROUP_COLORS_NoDup : NoDup GROUP_COLORS.
Proof.
  unfold GROUP_COLORS.
  repeat (constructor; [simpl; intros H; repeat (destruct H as [H|H]; [discriminate|]); exact H|]).
  constructor.
Qed.

Lemma pickGroupColor_nth (label : string) (index : nat) :
  nth_error GROUP_COLORS
            (Z.to_nat (Z.abs (hashLabel label + Z.of_nat index) mod 9))
  = Some (pickGroupColor label index).
Proof.
  unfold pickGroupColor. change (Z.of_nat (List.length GROUP_COLORS)) with 9%Z.
  generalize (Z.abs (hashLabel label + Z.of_nat index)). intros z.
  pose proof (Z.mod_pos_bound z 9 ltac:(lia)) as Hb.
  assert (Hn : (Z.to_nat (z mod 9) < 9)%nat) by lia.
  destruct (Z.to_nat (z mod 9)) as [|[|[|[|[|[|[|[|[|n]]]]]]]]]; try reflexivity.
  lia.
Qed.

(** X19: [pickGroupColor] always answers with a colour of the palette: the
    fallback ["grey"] for a missing entry is never needed, and two
    groups with the same label at consecutive positions never get the
    same colour. *)
Theorem pickGroupColor_in_palette :
  forall (label : string) (index : nat),
    In (pickGroupColor label index) GROUP_COLORS
    /\ pickGroupColor label index <> pickGroupColor label (S index).
Proof.
  intros label index. split.
  - eapply nth_error_In. apply pickGroupColor_nth.
  - intros E.
    pose proof (pickGroupColor_nth label index) as H1.
    pose proof (pickGroupColor_nth label (S index)) as H2.
    rewrite <- E, <- H1 in H2.
    apply (proj1 (NoDup_nth_error GROUP_COLORS) GROUP_COLORS_NoDup) in H2.
    + revert H2. generalize (hashLabel label). intros h H2.
      apply Z2Nat.inj in H2; try (apply Z.mod_pos_bound; lia).
      assert (Hstep : Z.abs (h + Z.of_nat (S index)) = (Z.abs (h + Z.of_nat index) + 1)%Z
                      \/ Z.abs (h + Z.of_nat (S index)) = (Z.abs (h + Z.of_nat index) - 1)%Z)
        by lia.
      revert H2 Hstep.
      generalize (Z.abs (h + Z.of_nat (S index))) (Z.abs (h + Z.of_nat index)).
      intros a b H2 Hstep. Z.div_mod_to_equations. lia.
    + change (List.length GROUP_COLORS) with 9%nat.
      pose proof (Z.mod_pos_bound (Z.abs (hashLabel label + Z.of_nat (S index))) 9
                                  ltac:(lia)). lia.
Qed.

(* ================================================================== *)
(** * Outcomes of the semantic collaborator's answer *)

Lemma substring_0_length (n : nat) : forall s : string,
  String.length (substring 0 n s) = Nat.min n (String.length s).
Proof.
  induction n as [|n IH]; intros [|c s]; simpl; auto.
Qed.

Lemma ai_label_of_bounds (l : string) :
  ai_label_of l <> ""%string /\ (String.length (ai_label_of l) <= 24)%nat.
Proof.
  unfold ai_label_of. destruct (String.eqb (substring 0 24 l) "") eqn:E.
  - split; [discriminate | simpl; lia].
  - apply String.eqb_neq in E. split; [exact E|].
    rewrite substring_0_length. lia.
Qed.

Lemma ai_validate_fields (validIds : list Z) entry a :
  In a (ai_validate validIds entry) ->
  exists g, entry = Some g
            /\ ai_label a = ai_label_of (rg_label g)
            /\ ai_summary a = substring 0 120 (rg_summary g).
Proof.
  destruct entry as [g|]; simpl; [|tauto].
  destruct (rg_tabIds g) as [ids|]; simpl; [|tauto].
  destruct (filter (id_in validIds) ids) as [|x l]; simpl; [tauto|].
  intros [<-|[]]. exists g. simpl. auto.
Qed.

Lemma aiClusterTabsWithTitles_closed (tabsMeta : list Tab) (maxGroups : nat)
      (response : option (list (option RawGroup))) :
  aiClusterTabsWithTitles tabsMeta maxGroups response =
  match tabsMeta with
  | [] => inl no_tabs
  | _ :: _ =>
      match response with
      | None | Some [] => inl ai_group_parse_failed
      | Some raw =>
          match firstn (Nat.max 1 maxGroups)
                       (flat_map (ai_validate (map tab_id (firstn 60 tabsMeta))) raw) with
          | [] => inl ai_group_empty
          | gs => inr gs
          end
      end
  end.
Proof.
  unfold aiClusterTabsWithTitles.
  destruct tabsMeta as [|t0 ts]; [reflexivity|].
  destruct response as [[|e raw]|]; try reflexivity.
  rewrite ai_collect_closed by (cbn [List.length]; lia).
  cbn [List.length]. rewrite Nat.sub_0_r, app_nil_l. reflexivity.
Qed.

Lemma firstn_pos_nil {A : Type} (n : nat) (l : list A) :
  (1 <= n)%nat -> (firstn n l = [] <-> l = []).
Proof.
  intros Hn. destruct n as [|n]; [lia|]. destruct l; simpl; split; congruence.
Qed.

Lemma flat_map_nil {A B : Type} (f : A -> list B) (l : list A) :
  flat_map f l = [] <-> forall x, In x l -> f x = [].
Proof.
  induction l as [|x l IH]; simpl; [tauto|].
  split.
  - intros H. apply app_eq_nil in H. destruct H as [Hx Hl].
    intros y [<-|Hy]; [exact Hx | now apply IH].
  - intros H. rewrite (H x) by now left. apply IH. auto.
Qed.

(** X20: An accepted answer of [aiClusterTabsWithTitles] holds at least one
    group and at most [max 1 maxGroups]; every group has a label that is
    not empty and not longer than 24 characters and a summary not longer
    than 120 characters, both cut from a returned group. *)
Theorem aiClusterTabsWithTitles_bounds :
  forall (tabsMeta : list Tab) (maxGroups : nat)
         (response : option (list (option RawGroup))) (accepted : list AiGroup),
    aiClusterTabsWithTitles tabsMeta maxGroups response = inr accepted ->
    tabsMeta <> []
    /\ (1 <= List.length accepted <= Nat.max 1 maxGroups)%nat
    /\ forall a, In a accepted ->
         ai_label a <> ""%string
         /\ (String.length (ai_label a) <= 24)%nat
         /\ (String.length (ai_summary a) <= 120)%nat
         /\ exists raw g, response = Some raw /\ In (Some g) raw
                          /\ ai_label a = ai_label_of (rg_label g)
                          /\ ai_summary a = substring 0 120 (rg_summary g).
Proof.
  intros tabsMeta maxGroups response accepted Hrun.
  rewrite aiClusterTabsWithTitles_closed in Hrun.
  destruct tabsMeta as [|t0 ts]; [discriminate|].
  split; [discriminate|].
  destruct response as [[|e raw]|]; try discriminate.
  set (valid := map tab_id (firstn 60 (t0 :: ts))) in *.
  assert (Hacc : accepted =
                 firstn (Nat.max 1 maxGroups) (flat_map (ai_validate valid) (e :: raw))).
  { revert Hrun.
    destruct (firstn (Nat.max 1 maxGroups) (flat_map (ai_validate valid) (e :: raw)));
      intros Hrun; [discriminate | now injection Hrun as <-]. }
  split.
  - split.
    + destruct accepted; [|cbn [List.length]; lia].
      rewrite <- Hacc in Hrun. discriminate.
    + rewrite Hacc. rewrite length_firstn. lia.
  - intros a Ha. rewrite Hacc in Ha. apply In_firstn in Ha.
    apply in_flat_map in Ha. destruct Ha as (entry & Hentry & Hin).
    apply ai_validate_fields in Hin. destruct Hin as (g & -> & Hl & Hs).
    rewrite Hl, Hs. destruct (ai_label_of_bounds (rg_label g)) as [H1 H2].
    split; [exact H1|]. split; [exact H2|]. split.
    + rewrite substring_0_length. lia.
    + exists (e :: raw), g. auto.
Qed.

Lemma aiClusterTabsWithTitles_bounds_witness :
  let accepted := [{| ai_label := "Group"; ai_summary := "Greek letters";
                      ai_tabIds := [2%Z; 2%Z] |}] in
  aiClusterTabsWithTitles first_cycle_tabs 0 (Some unlabelled_answer) = inr accepted
  /\ first_cycle_tabs <> []
  /\ (1 <= List.length accepted <= Nat.max 1 0)%nat
  /\ forall a, In a accepted ->
       ai_label a <> ""%string
       /\ (String.length (ai_label a) <= 24)%nat
       /\ (String.length (ai_summary a) <= 120)%nat
       /\ exists raw g, Some unlabelled_answer = Some raw /\ In (Some g) raw
                        /\ ai_label a = ai_label_of (rg_label g)
                        /\ ai_summary a = substring 0 120 (rg_summary g).
Proof.
  split; [reflexivity|].
  exact (aiClusterTabsWithTitles_bounds first_cycle_tabs 0 (Some unlabelled_answer)
                                        _ eq_refl).
Defined.

(** X21: The three refusals of [aiClusterTabsWithTitles]: [no_tabs] exactly
    for an empty batch, whatever was answered; [ai_group_parse_failed]
    exactly when the batch is not empty and the answer has no groups
    array or an empty one; [ai_group_empty] exactly when the batch is not
    empty, groups were returned, and none of them survives validation
    against the first 60 tabs. *)
Theorem aiClusterTabsWithTitles_refusals :
  forall (tabsMeta : list Tab) (maxGroups : nat)
         (response : option (list (option RawGroup))),
    let run := aiClusterTabsWithTitles tabsMeta maxGroups response in
    (run = inl no_tabs <-> tabsMeta = [])
    /\ (run = inl ai_group_parse_failed <->
        tabsMeta <> [] /\ (response = None \/ response = Some []))
    /\ (run = inl ai_group_empty <->
        tabsMeta <> []
        /\ exists raw, response = Some raw /\ raw <> []
             /\ forall entry, In entry raw ->
                  ai_validate (map tab_id (firstn 60 tabsMeta)) entry = []).
Proof.
  intros tabsMeta maxGroups response. cbv zeta.
  rewrite aiClusterTabsWithTitles_closed.
  destruct tabsMeta as [|t0 ts].
  { split; [tauto|]. split; split; try discriminate; intros [H _]; congruence. }
  set (valid := map tab_id (firstn 60 (t0 :: ts))).
  destruct response as [[|e raw]|].
  - split; [split; discriminate|]. split.
    + split; [intros _; split; [discriminate | now right] | reflexivity].
    + split; [discriminate|]. intros (_ & raw & [= <-] & H & _). congruence.
  - destruct (firstn (Nat.max 1 maxGroups) (flat_map (ai_validate valid) (e :: raw)))
      as [|a l] eqn:E.
    + apply firstn_pos_nil in E; [|lia]. rewrite flat_map_nil in E.
      split; [split; discriminate|]. split.
      * split; [discriminate|]. intros [_ [H|H]]; discriminate.
      * split; [|reflexivity]. intros _. split; [discriminate|].
        exists (e :: raw). split; [reflexivity|]. split; [discriminate | exact E].
    + split; [split; discriminate|]. split.
      * split; [discriminate|]. intros [_ [H|H]]; discriminate.
      * split; [discriminate|]. intros (_ & raw' & [= <-] & _ & H).
        apply flat_map_nil in H.
        assert (E' : firstn (Nat.max 1 maxGroups)
                            (flat_map (ai_validate valid) (e :: raw)) = [])
          by (apply firstn_pos_nil; [lia | exact H]).
        congruence.
  - split; [split; discriminate|]. split.
    + split; [intros _; split; [discriminate | now left] | reflexivity].
    + split; [discriminate|]. intros (_ & raw & H & _). discriminate.
Qed.

(* ================================================================== *)
(** * Heuristic labels and summaries *)

Section LabelFacts.

Lemma token_freq_loop_lookup (tokens : list string) : forall (m0 : list (string * nat)) t,
  mget String.eqb
       (fold_left
          (fun freq t =>
             mset String.eqb freq t
                  (match mget String.eqb freq t with Some c => c | None => 0 end + 1))
          tokens m0) t
  = if (count_token tokens t =? 0)%nat then mget String.eqb m0 t
    else Some (match mget String.eqb m0 t with Some c => c | None => 0 end
               + count_token tokens t).
Proof.
  unfold count_token.
  induction tokens as [|x tokens IH]; intros m0 t; [reflexivity|].
  cbn [fold_left count_occ]. rewrite IH.
  destruct (string_dec x t) as [->|Hne].
  - rewrite !(mget_mset_same _ Seqb_eq).
    destruct (count_occ string_dec tokens t) as [|c]; cbn [Nat.eqb]; f_equal; lia.
  - rewrite !(mget_mset_other _ Seqb_eq) by assumption. reflexivity.
Qed.

Lemma token_freq_unique (tokens : list string) : NoDup (mkeys (token_freq tokens)).
Proof.
  unfold token_freq.
  assert (H : forall m0 : list (string * nat), NoDup (mkeys m0) ->
            NoDup (mkeys (fold_left
              (fun freq t =>
                 mset String.eqb freq t
                      (match mget String.eqb freq t with Some c => c | None => 0 end + 1))
              tokens m0))).
  { induction tokens as [|x tokens IH]; intros m0 H0; simpl; [assumption|].
    apply IH. now apply (mset_unique_keys _ Seqb_eq). }
  apply H. constructor.
Qed.

Lemma token_freq_lookup (tokens : list string) t :
  mget String.eqb (token_freq tokens) t
  = if (count_token tokens t =? 0)%nat then None else Some (count_token tokens t).
Proof. unfold token_freq. now rewrite token_freq_loop_lookup. Qed.

Lemma token_freq_entries (tokens : list string) t c :
  In (t, c) (token_freq tokens) <-> In t tokens /\ c = count_token tokens t.
Proof.
  split.
  - intros Hin. apply (mget_unique_In _ Seqb_eq) in Hin; [|apply token_freq_unique].
    rewrite token_freq_lookup in Hin.
    destruct (count_token tokens t =? 0)%nat eqn:E; [discriminate|].
    apply count_token_In in E. injection Hin as <-. auto.
  - intros [Hin ->]. apply (mget_Some_In _ Seqb_eq). rewrite token_freq_lookup.
    apply count_token_In in Hin. now rewrite Hin.
Qed.

Lemma insert_by_count_In e x l :
  In e (insert_by_count x l) <-> e = x \/ In e l.
Proof.
  induction l as [|h l IH]; simpl; [intuition|].
  destruct (snd x <? snd h)%nat; simpl; [rewrite IH|]; intuition.
Qed.

Lemma sort_by_count_desc_In e l : In e (sort_by_count_desc l) <-> In e l.
Proof.
  induction l as [|x l IH]; simpl; [tauto|].
  rewrite insert_by_count_In, IH. intuition.
Qed.

Lemma sort_by_count_desc_sorted l :
  StronglySorted (fun a b : string * nat => snd b <= snd a) (sort_by_count_desc l).
Proof.
  induction l as [|x l IH]; simpl; [constructor|].
  revert IH. generalize (sort_by_count_desc l). intros s Hs.
  induction Hs as [|h s Hs IH Hh]; simpl.
  - repeat constructor.
  - destruct (Nat.ltb_spec (snd x) (snd h)) as [Hlt|Hge].
    + constructor; [exact IH|].
      apply Forall_forall. intros e He. apply insert_by_count_In in He.
      destruct He as [->|He]; [lia|].
      rewrite Forall_forall in Hh. now apply Hh.
    + constructor; [now constructor|].
      constructor; [exact Hge|].
      apply Forall_forall. intros e He. rewrite Forall_forall in Hh.
      specialize (Hh e He). lia.
Qed.

(** The first of the tokens the label is built from is a meaningful
    token of the input that no meaningful token outnumbers; the others
    are meaningful tokens of the input too. *)
Lemma meaningful_tokens_spec (tokens : list string) :
  (forall t, In t (meaningful_tokens tokens) -> In t tokens /\ is_meaningful t = true)
  /\ (meaningful_tokens tokens = [] <->
      forall t, In t tokens -> is_meaningful t = false)
  /\ (forall m rest, meaningful_tokens tokens = m :: rest ->
        forall t, In t tokens -> is_meaningful t = true ->
                  count_token tokens t <= count_token tokens m).
Proof.
  unfold meaningful_tokens.
  set (kept := filter (fun e : string * nat => is_meaningful (fst e)) (token_freq tokens)).
  assert (Hkept : forall t c, In (t, c) kept <->
                    In t tokens /\ c = count_token tokens t /\ is_meaningful t = true).
  { intros t c. unfold kept. rewrite filter_In, token_freq_entries. simpl. tauto. }
  split; [|split].
  - intros t Ht. apply in_map_iff in Ht. destruct Ht as ([t' c] & <- & He).
    apply In_firstn in He. apply (proj1 (sort_by_count_desc_In _ _)) in He.
    apply Hkept in He. simpl. tauto.
  - split.
    + intros E t Ht. destruct (is_meaningful t) eqn:Em; [|reflexivity].
      assert (Hin : In (t, count_token tokens t) (sort_by_count_desc kept)).
      { apply sort_by_count_desc_In. apply Hkept. auto. }
      destruct (sort_by_count_desc kept); [destruct Hin | discriminate].
    + intros Hno. destruct (sort_by_count_desc kept) as [|[t c] l] eqn:E; [reflexivity|].
      assert (Hin : In (t, c) kept).
      { apply sort_by_count_desc_In. rewrite E. now left. }
      apply Hkept in Hin. destruct Hin as (Ht & _ & Hm).
      rewrite (Hno t Ht) in Hm. discriminate.
  - intros m rest E t Ht Hm.
    pose proof (sort_by_count_desc_sorted kept) as Hs.
    assert (Hin : In (t, count_token tokens t) (sort_by_count_desc kept)).
    { apply sort_by_count_desc_In. apply Hkept. auto. }
    destruct (sort_by_count_desc kept) as [|[m' c] l] eqn:Es; [destruct Hin|].
    simpl in E. injection E as <- _.
    assert (Hc : c = count_token tokens m').
    { assert (H : In (m', c) kept) by (apply sort_by_count_desc_In; rewrite Es; now left).
      apply Hkept in H. tauto. }
    subst c. inversion Hs as [|? ? _ Hall]; subst.
    destruct Hin as [[= <-]|Hin]; [lia|].
    rewrite Forall_forall in Hall. apply (Hall _ Hin).
Qed.

Lemma capitalize_length (s : string) : String.length (capitalize s) = String.length s.
Proof. now destruct s. Qed.

Lemma length_sappend (a b : string) :
  String.length (a ++ b) = String.length a + String.length b.
Proof. induction a as [|c a IH]; simpl; [reflexivity | now rewrite IH]. Qed.

Lemma is_meaningful_length (t : string) : is_meaningful t = true -> 3 <= String.length t.
Proof.
  unfold is_meaningful. intros H. apply andb_true_iff in H. destruct H as [H _].
  now apply Nat.leb_le.
Qed.

Lemma substring_length (s : string) : forall n m,
  String.length (substring n m s) = Nat.min m (String.length s - n).
Proof.
  induction s as [|c s IH]; intros [|n] [|m]; simpl; auto;
    rewrite IH; now rewrite ?Nat.sub_0_r.
Qed.

Lemma substring_all (s : string) : forall n,
  String.length s <= n -> substring 0 n s = s.
Proof.
  induction s as [|c s IH]; intros [|n] H; simpl in *; try reflexivity; try lia.
  rewrite IH by lia. reflexivity.
Qed.

Lemma strip_www_empty (h : string) :
  strip_www h = ""%string <-> h = ""%string \/ h = "www."%string.
Proof.
  unfold strip_www. split.
  - destruct (String.prefix "www." h) eqn:E; [|now left].
    intros H. right.
    assert (Hlen : String.length (substring 4 (String.length h - 4) h) = 0)
      by now rewrite H.
    rewrite substring_length, Nat.min_id in Hlen.
    apply prefix_correct in E. cbn [String.length] in E.
    rewrite substring_all in E by lia. exact E.
  - intros [->| ->]; reflexivity.
Qed.

Lemma labelFromTokens_some (tokens hosts : list string) m rest :
  meaningful_tokens tokens = m :: rest ->
  In m tokens /\ is_meaningful m = true
  /\ (labelFromTokens tokens hosts = capitalize m
      \/ exists m2, In m2 tokens /\ is_meaningful m2 = true
           /\ labelFromTokens tokens hosts
              = (capitalize m ++ " " ++ capitalize m2)%string).
Proof.
  destruct (meaningful_tokens_spec tokens) as (Hin & _ & _).
  intros E. unfold labelFromTokens. rewrite E. cbv zeta.
  destruct (Hin m) as [H1 H2]; [rewrite E; now left|].
  split; [exact H1|]. split; [exact H2|].
  destruct rest as [|m2 rest]; [now left|].
  right. exists m2. destruct (Hin m2) as [H3 H4]; [rewrite E; right; now left|].
  split; [exact H3|]. split; [exact H4|]. reflexivity.
Qed.

Lemma labelFromTokens_fallback (tokens hosts : list string) :
  (forall t, In t tokens -> is_meaningful t = false) ->
  labelFromTokens tokens hosts
  = match hosts with h :: _ => strip_www h | [] => "Group"%string end.
Proof.
  destruct (meaningful_tokens_spec tokens) as (_ & Hnil & _).
  intros Hno. apply Hnil in Hno. unfold labelFromTokens. now rewrite Hno.
Qed.

Lemma labelFromTokens_empty (tokens hosts : list string) :
  labelFromTokens tokens hosts = ""%string <->
  (forall t, In t tokens -> is_meaningful t = false)
  /\ exists h rest, hosts = h :: rest /\ (h = ""%string \/ h = "www."%string).
Proof.
  destruct (meaningful_tokens_spec tokens) as (_ & Hnil & _).
  split.
  - intros Hempty.
    destruct (meaningful_tokens tokens) as [|m rest] eqn:E.
    + pose proof (proj1 Hnil eq_refl) as Hno. split; [exact Hno|].
      rewrite (labelFromTokens_fallback tokens hosts Hno) in Hempty.
      destruct hosts as [|h rest]; [discriminate|].
      exists h, rest. split; [reflexivity|]. now apply strip_www_empty.
    + exfalso. destruct (labelFromTokens_some tokens hosts m rest E) as (_ & Hm & Hl).
      apply is_meaningful_length in Hm.
      assert (Hlen : String.length (labelFromTokens tokens hosts) = 0)
        by now rewrite Hempty.
      destruct Hl as [Hl|(m2 & _ & _ & Hl)]; rewrite Hl in Hlen.
      * rewrite capitalize_length in Hlen. lia.
      * rewrite length_sappend, capitalize_length in Hlen. lia.
  - intros (Hno & h & rest & -> & Hh).
    rewrite (labelFromTokens_fallback _ _ Hno). now apply strip_www_empty.
Qed.

Lemma mhas_existsb {V : Type} (m : list (string * V)) (k : string) :
  mhas String.eqb m k = existsb (String.eqb k) (mkeys m).
Proof.
  unfold mhas. induction m as [|[k0 v0] m IH]; simpl; [reflexivity|].
  rewrite (String.eqb_sym k k0). destruct (String.eqb k0 k); [reflexivity | exact IH].
Qed.

(** The keys of the frequency table are the distinct tokens in the
    order of their first occurrence. *)
Lemma token_freq_keys (tokens : list string) : mkeys (token_freq tokens) = dedupe tokens.
Proof.
  unfold token_freq, dedupe.
  assert (H : forall m0 : list (string * nat),
            mkeys (fold_left
                     (fun freq t =>
                        mset String.eqb freq t
                             (match mget String.eqb freq t with Some c => c | None => 0 end + 1))
                     tokens m0)
            = fold_left (fun seen x => if existsb (String.eqb x) seen then seen
                                       else seen ++ [x]) tokens (mkeys m0)).
  { induction tokens as [|x tokens IH]; intros m0; cbn [fold_left]; [reflexivity|].
    rewrite IH, mkeys_mset, mhas_existsb.
    now destruct (existsb (String.eqb x) (mkeys m0)). }
  apply (H []).
Qed.

Lemma token_freq_counts (tokens : list string) :
  token_freq tokens = map (fun t => (t, count_token tokens t)) (dedupe tokens).
Proof.
  rewrite <- token_freq_keys.
  assert (H : forall e, In e (token_freq tokens) -> snd e = count_token tokens (fst e)).
  { intros [t c] He. apply token_freq_entries in He. now destruct He. }
  induction (token_freq tokens) as [|[t c] m IH]; [reflexivity|].
  cbn [mkeys map fst]. f_equal.
  - f_equal. exact (H (t, c) (or_introl eq_refl)).
  - apply IH. intros e He. apply H. now right.
Qed.

Lemma dedupe_NoDup (tokens : list string) : NoDup (dedupe tokens).
Proof. rewrite <- token_freq_keys. apply token_freq_unique. Qed.

Lemma first_max_In cnt l m : first_max cnt l = Some m -> In m l.
Proof.
  revert m. induction l as [|x l IH]; intros m; cbn [first_max]; [discriminate|].
  destruct (first_max cnt l) as [y|].
  - destruct (cnt x <? cnt y)%nat; intros [= <-]; [right; now apply IH | now left].
  - intros [= <-]. now left.
Qed.

Lemma first_max_None cnt l : first_max cnt l = None -> l = [].
Proof.
  destruct l as [|x l]; cbn [first_max]; [reflexivity|].
  destruct (first_max cnt l) as [y|]; [destruct (cnt x <? cnt y)%nat|]; discriminate.
Qed.

Lemma remove_string_absent x l : ~ In x l -> remove_string x l = l.
Proof.
  unfold remove_string. induction l as [|y l IH]; intros Hx; simpl; [reflexivity|].
  destruct (String.eqb x y) eqn:E.
  - apply String.eqb_eq in E. subst. exfalso. apply Hx. now left.
  - simpl. f_equal. apply IH. intros H. apply Hx. now right.
Qed.

Lemma remove_string_NoDup x l : NoDup l -> NoDup (remove_string x l).
Proof. apply NoDup_filter. Qed.

(** The stable sort by descending count, read as a selection: its head
    is the first entry of highest count, its tail the sort of the
    rest. *)
Lemma sort_by_count_desc_select (cnt : string -> nat) (l : list string) :
  NoDup l ->
  sort_by_count_desc (map (fun t => (t, cnt t)) l)
  = match first_max cnt l with
    | None => []
    | Some m => (m, cnt m) :: sort_by_count_desc
                               (map (fun t => (t, cnt t)) (remove_string m l))
    end.
Proof.
  induction l as [|x l IH]; intros Hnd; [reflexivity|].
  inversion Hnd as [|? ? Hx Hnd']; subst.
  cbn [map sort_by_count_desc fold_right first_max].
  fold (sort_by_count_desc (map (fun t => (t, cnt t)) l)).
  rewrite (IH Hnd').
  destruct (first_max cnt l) as [y|] eqn:E.
  - assert (Hy : In y l) by (eapply first_max_In; eassumption).
    assert (Hxy : x <> y) by (intros ->; contradiction).
    cbn [insert_by_count snd].
    destruct (cnt x <? cnt y)%nat.
    + f_equal. unfold remove_string at 2. cbn [filter].
      rewrite (proj2 (String.eqb_neq y x)) by congruence. cbn [negb map].
      reflexivity.
    + f_equal. unfold remove_string. cbn [filter].
      rewrite String.eqb_refl. cbn [negb].
      fold (remove_string x l). rewrite (remove_string_absent x l Hx).
      rewrite (IH Hnd'). reflexivity.
  - apply first_max_None in E. subst l. cbn [insert_by_count].
    f_equal. unfold remove_string. cbn [filter]. now rewrite String.eqb_refl.
Qed.

Lemma filter_meaningful_counts (tokens : list string) :
  filter (fun e : string * nat => is_meaningful (fst e)) (token_freq tokens)
  = map (fun t => (t, count_token tokens t)) (filter is_meaningful (dedupe tokens)).
Proof.
  rewrite token_freq_counts.
  induction (dedupe tokens) as [|t l IH]; [reflexivity|].
  cbn [map filter fst]. destruct (is_meaningful t); cbn [map]; now rewrite IH.
Qed.

Lemma labelFromTokens_spec_label (tokens hosts : list string) :
  labelFromTokens tokens hosts = spec_label tokens hosts.
Proof.
  unfold labelFromTokens, spec_label, meaningful_tokens.
  rewrite filter_meaningful_counts.
  set (cands := filter is_meaningful (dedupe tokens)).
  assert (Hnd : NoDup cands) by (apply NoDup_filter, dedupe_NoDup).
  rewrite (sort_by_count_desc_select (count_token tokens) cands Hnd).
  destruct (first_max (count_token tokens) cands) as [m1|]; [|reflexivity].
  rewrite (sort_by_count_desc_select (count_token tokens) (remove_string m1 cands)
             (remove_string_NoDup m1 cands Hnd)).
  destruct (first_max (count_token tokens) (remove_string m1 cands)) as [m2|];
    [|reflexivity].
  cbv zeta. cbn [firstn map fst].
  reflexivity.
Qed.

Lemma first_max_max cnt l m :
  first_max cnt l = Some m -> forall t, In t l -> cnt t <= cnt m.
Proof.
  revert m. induction l as [|x l IH]; intros m; cbn [first_max]; [discriminate|].
  destruct (first_max cnt l) as [y|] eqn:E.
  - destruct (cnt x <? cnt y)%nat eqn:Ec; intros [= <-] t [<-|Ht].
    + apply Nat.ltb_lt in Ec. lia.
    + now apply IH.
    + lia.
    + apply Nat.ltb_ge in Ec. specialize (IH y eq_refl t Ht). lia.
  - apply first_max_None in E. subst l. intros [= <-] t [<-|[]]. lia.
Qed.

Lemma remove_string_In x l t : In t (remove_string x l) <-> In t l /\ t <> x.
Proof.
  unfold remove_string. rewrite filter_In. split; intros [H1 H2]; (split; [assumption|]).
  - intros ->. now rewrite String.eqb_refl in H2.
  - apply negb_true_iff. apply String.eqb_neq. congruence.
Qed.

Lemma dedupe_In (tokens : list string) t : In t (dedupe tokens) <-> In t tokens.
Proof.
  rewrite <- token_freq_keys. unfold mkeys. rewrite in_map_iff. split.
  - intros ([t' c] & <- & He). apply token_freq_entries in He. now destruct He.
  - intros Ht. exists (t, count_token tokens t). split; [reflexivity|].
    apply token_freq_entries. auto.
Qed.

Lemma candidates_In (tokens : list string) t :
  In t (filter is_meaningful (dedupe tokens)) <-> In t tokens /\ is_meaningful t = true.
Proof. now rewrite filter_In, dedupe_In. Qed.

(** X22: [labelFromTokens] is [spec_label].  When some token is
    meaningful (three characters or more, no ["host:"] prefix), the
    label starts with the capitalised meaningful token that occurs most
    often (the first such).  If no other meaningful token exists, this
    is the whole label; otherwise a space follows and the capitalised
    meaningful token that occurs most often among the others, which is
    always appended and always differs from the first.  Without a
    meaningful token the label is the first host without a leading
    ["www."], or ["Group"] when there is no host.  So the label is
    empty exactly when no token is meaningful and the first host is
    empty or is ["www."] itself. *)
Theorem labelFromTokens_cases :
  forall tokens hosts : list string,
    labelFromTokens tokens hosts = spec_label tokens hosts
    /\ ((exists t, In t tokens /\ is_meaningful t = true) ->
        exists m,
          In m tokens /\ is_meaningful m = true
          /\ (forall t, In t tokens -> is_meaningful t = true ->
                        count_token tokens t <= count_token tokens m)
          /\ (((forall t, In t tokens -> is_meaningful t = true -> t = m)
               /\ labelFromTokens tokens hosts = capitalize m)
              \/ exists m2,
                   m2 <> m /\ In m2 tokens /\ is_meaningful m2 = true
                   /\ (forall t, In t tokens -> is_meaningful t = true -> t <> m ->
                                 count_token tokens t <= count_token tokens m2)
                   /\ labelFromTokens tokens hosts
                      = (capitalize m ++ " " ++ capitalize m2)%string))
    /\ ((forall t, In t tokens -> is_meaningful t = false) ->
          labelFromTokens tokens hosts
          = match hosts with h :: _ => strip_www h | [] => "Group"%string end)
    /\ (labelFromTokens tokens hosts = ""%string <->
        (forall t, In t tokens -> is_meaningful t = false)
        /\ exists h rest, hosts = h :: rest /\ (h = ""%string \/ h = "www."%string)).
Proof.
  intros tokens hosts.
  split; [apply labelFromTokens_spec_label|].
  split; [|split].
  - intros (t & Ht & Hm).
    rewrite labelFromTokens_spec_label. unfold spec_label. cbv zeta.
    set (cands := filter is_meaningful (dedupe tokens)).
    assert (Hc : forall x, In x cands <-> In x tokens /\ is_meaningful x = true)
      by (intros x; apply candidates_In).
    destruct (first_max (count_token tokens) cands) as [m|] eqn:E1.
    + pose proof (first_max_In _ _ _ E1) as Hm1. apply Hc in Hm1.
      destruct Hm1 as [Hin1 Hmean1].
      exists m. split; [exact Hin1|]. split; [exact Hmean1|]. split.
      { intros x Hx Hxm. apply (first_max_max _ _ _ E1). apply Hc. auto. }
      destruct (first_max (count_token tokens) (remove_string m cands)) as [m2|] eqn:E2.
      * right. exists m2.
        pose proof (first_max_In _ _ _ E2) as Hm2. apply remove_string_In in Hm2.
        destruct Hm2 as [Hm2 Hne]. apply Hc in Hm2. destruct Hm2 as [Hin2 Hmean2].
        split; [exact Hne|]. split; [exact Hin2|]. split; [exact Hmean2|].
        split; [|reflexivity].
        intros x Hx Hxm Hxne. apply (first_max_max _ _ _ E2).
        apply remove_string_In. split; [apply Hc; auto | exact Hxne].
      * left. split; [|reflexivity].
        intros x Hx Hxm. apply first_max_None in E2.
        destruct (string_dec x m) as [->|Hne]; [reflexivity|].
        assert (Hin : In x (remove_string m cands)).
        { apply remove_string_In. split; [apply Hc; auto | exact Hne]. }
        rewrite E2 in Hin. destruct Hin.
    + apply first_max_None in E1.
      assert (Hin : In t cands) by (apply Hc; auto).
      rewrite E1 in Hin. destruct Hin.
  - apply labelFromTokens_fallback.
  - apply labelFromTokens_empty.
Qed.
End LabelFacts.

(* ================================================================== *)
(** * The keys of tab vectors and centroids *)

Section Keys.
Context {F : Type} {num : Number F}.
Variable URL_new : string -> option Url.

Lemma count_loop_keys (tokens : list string) : forall m0 : vec F,
  mkeys (fold_left (fun m t => sset m t (nadd (or0 (sget m t)) one)) tokens m0)
  = fold_left (fun seen x => if existsb (String.eqb x) seen then seen else seen ++ [x])
              tokens (mkeys m0).
Proof.
  induction tokens as [|x tokens IH]; intros m0; cbn [fold_left]; [reflexivity|].
  rewrite IH. unfold sset. rewrite mkeys_mset, mhas_existsb.
  now destruct (existsb (String.eqb x) (mkeys m0)).
Qed.

(** A loop that overwrites entries under keys the map already has
    leaves the keys as they are. *)
Lemma overwrite_loop_keys (f : F -> F) (l : vec F) : forall m : vec F,
  (forall kv, In kv l -> In (fst kv) (mkeys m)) ->
  mkeys (fold_left (fun m' kv => sset m' (fst kv) (f (snd kv))) l m) = mkeys m.
Proof.
  induction l as [|e l IH]; intros m H; cbn [fold_left]; [reflexivity|].
  assert (E : mkeys (sset m (fst e) (f (snd e))) = mkeys m).
  { unfold sset. rewrite mkeys_mset.
    now rewrite (proj2 (mhas_keys _ Seqb_eq m (fst e)) (H e (or_introl eq_refl))). }
  rewrite IH; [exact E|].
  intros kv Hkv. rewrite E. apply H. now right.
Qed.

Lemma vectorize_keys (tokens : list string) :
  mkeys (vectorize (F:=F) tokens) = dedupe tokens.
Proof.
  unfold vectorize. rewrite overwrite_loop_keys.
  - apply (count_loop_keys tokens []).
  - intros kv H. unfold mkeys. now apply in_map.
Qed.

Lemma vectorize_keys_unique (tokens : list string) :
  unique_keys (vectorize (F:=F) tokens).
Proof. unfold unique_keys. rewrite vectorize_keys. apply dedupe_NoDup. Qed.

Lemma host_prefix_not_clean (s : string) :
  all_chars is_token_char ("host:" ++ s) = false.
Proof. reflexivity. Qed.

(** The host pseudo-token is none of the tokens of the tab. *)
Lemma hostToken_not_token (t : Tab) (host : string) :
  ~ In (hostToken host) (fv_allTokens (tabVector (F:=F) URL_new t)).
Proof.
  unfold tabVector.
  destruct (parseUrl URL_new (tab_url t)) as [h pathTokens] eqn:E.
  cbn [fv_allTokens]. intros Hin.
  assert (Hclean : forall text, ~ In (hostToken host) (tokenize text)).
  { intros text H. apply tokenize_In_clean in H. destruct H as (Hc & _).
    unfold hostToken in Hc. rewrite host_prefix_not_clean in Hc. discriminate. }
  apply in_app_or in Hin. destruct Hin as [Hin|Hin]; [exact (Hclean _ Hin)|].
  apply in_app_or in Hin. destruct Hin as [Hin|Hin].
  - unfold parseUrl in E. destruct (urlFromString URL_new (tab_url t)) as [u|].
    + injection E as _ <-. exact (Hclean _ Hin).
    + injection E as _ <-. destruct Hin.
  - apply in_map_iff in Hin. destruct Hin as (c & Hc & _).
    unfold hostToken in Hc. cbn [append] in Hc. discriminate.
Qed.

Lemma tabVector_keys_unique (t : Tab) :
  unique_keys (fv_vec (tabVector (F:=F) URL_new t)).
Proof.
  unfold tabVector. destruct (parseUrl URL_new (tab_url t)) as [host pathTokens].
  cbn [fv_vec]. destruct (String.eqb host ""); [apply vectorize_keys_unique|].
  apply (mset_unique_keys _ Seqb_eq). apply vectorize_keys_unique.
Qed.






End Keys.

(** X7: What [tabVector] builds, in any arithmetic.  The keys of the
    vector are unique; they are the distinct tokens of the tab in the
    order of their first occurrence, followed by the host pseudo-token
    when the tab has a host.  The pseudo-token is never one of the
    tokens, so its weight is [0 + Math.SQRT2], which is the double
    1.4142135623730951; every token weighs what [vectorize] gave it. *)
Theorem tabVector_keys :
  forall (F : Type) (num : Number F) (URL_new : string -> option Url) (t : Tab),
    let fv := tabVector (F:=F) URL_new t in
    unique_keys (fv_vec fv)
    /\ mkeys (fv_vec fv)
       = dedupe (fv_allTokens fv)
         ++ (if String.eqb (fv_host fv) "" then [] else [hostToken (fv_host fv)])
    /\ sget (fv_vec fv) (hostToken (fv_host fv))
       = (if String.eqb (fv_host fv) "" then None else Some (nadd zero SQRT2))
    /\ (forall k, k <> hostToken (fv_host fv) ->
                  sget (fv_vec fv) k = sget (vectorize (fv_allTokens fv)) k)
    /\ nadd (zero (F:=float)) SQRT2 = 0x1.6a09e667f3bcdp+0%float.
Proof.
  intros F num URL_new t fv.
  split; [apply tabVector_keys_unique|].
  pose proof (hostToken_not_token (F:=F) URL_new t) as Hnot.
  fold fv in Hnot. unfold fv in *. clear fv. unfold tabVector in *.
  destruct (parseUrl URL_new (tab_url t)) as [host pathTokens].
  cbn [fv_vec fv_host fv_allTokens] in *.
  set (tokens := tokenize (tab_title t) ++ pathTokens
                 ++ map (fun c => ("ctx:" ++ c)%string)
                        (firstn 120 (tab_contextTokens t))) in *.
  assert (Habsent : sget (vectorize (F:=F) tokens) (hostToken host) = None).
  { apply (mget_None_keys _ Seqb_eq). fold (mkeys (vectorize (F:=F) tokens)).
    rewrite vectorize_keys, dedupe_In. apply Hnot. }
  destruct (String.eqb host "") eqn:Eh.
  - split; [now rewrite vectorize_keys, app_nil_r|].
    split; [exact Habsent|]. split; [reflexivity | vm_compute; reflexivity].
  - split.
    { unfold sset. rewrite mkeys_mset. unfold mhas.
      fold (sget (vectorize (F:=F) tokens) (hostToken host)).
      now rewrite Habsent, vectorize_keys. }
    split.
    { unfold sget at 1. unfold sset. rewrite (mget_mset_same _ Seqb_eq).
      now rewrite Habsent. }
    split; [|vm_compute; reflexivity].
    intros k Hk. unfold sget at 1. unfold sset.
    now rewrite (mget_mset_other _ Seqb_eq) by congruence.
Qed.



(** The tab titled "old" joins the seed of the sample; the key
    ["stale"] of the seed's centroid stays, at weight 0. *)
Lemma seed_key_stays :
  map (fun g => (g_id g, g_tabIds g, g_centroid g))
      (groups (clusterTabs (F:=float) no_urls 0 sample_rnd [titled 1 "old"] [stale_seed]
                           DEFAULT_SIM_THRESHOLD))
  = [("old-k3x9ab", [1%Z], [("old", 1%float); ("stale", 0%float)])].
Proof. vm_compute. reflexivity. Qed.

(* ================================================================== *)
(** * The grouping pipeline *)

Section Pipeline.
Context {F : Type} {num : Number F}.
Variable URL_new : string -> option Url.

Lemma summarizeGroup_nonempty (tabMetas : list TabMeta) :
  summarizeGroup URL_new tabMetas <> ""%string.
Proof.
  unfold summarizeGroup. cbv zeta. intros E.
  apply (f_equal String.length) in E.
  rewrite !length_sappend in E. cbn [String.length] in E. lia.
Qed.

Lemma tab_hosts_nonempty (t : TabMeta) :
  Forall (fun h => h <> ""%string) (tab_hosts URL_new t).
Proof.
  unfold tab_hosts. destruct (String.eqb (tm_url t) ""); [constructor|].
  destruct (urlFromString URL_new (tm_url t)) as [u|]; [|constructor].
  destruct (String.eqb (url_host u) "") eqn:E; [constructor|].
  apply String.eqb_neq in E. now repeat constructor.
Qed.

Lemma group_hosts_nonempty (metas : list TabMeta) :
  Forall (fun h => h <> ""%string) (flat_map (tab_hosts URL_new) metas).
Proof.
  induction metas as [|t metas IH]; simpl; [constructor|].
  apply Forall_app. split; [apply tab_hosts_nonempty | exact IH].
Qed.

(** What [ensureOne] does to a group. *)
Lemma ensureOne_effect (tabs : list (Z * TabMeta)) (g : Group F) :
  let g' := ensureOne URL_new tabs g in
  g_id g' = g_id g /\ g_tabIds g' = g_tabIds g /\ g_centroid g' = g_centroid g
  /\ g_size g' = g_size g /\ g_lastUpdated g' = g_lastUpdated g
  /\ (g_label g <> ""%string -> g_label g' = g_label g)
  /\ (g_summary g <> ""%string -> g_summary g' = g_summary g)
  /\ g_summary g' <> ""%string
  /\ (g_label g' = ""%string ->
      g_label g = ""%string
      /\ (forall t, In t (flat_map (tab_tokens URL_new) (group_metas tabs g)) ->
                    is_meaningful t = false)
      /\ exists rest,
           flat_map (tab_hosts URL_new) (group_metas tabs g) = "www."%string :: rest).
Proof.
  cbv zeta.
  assert (Hstay : forall l : string,
            l = ""%string ->
            labelFromTokens (flat_map (tab_tokens URL_new) (group_metas tabs g))
                            (flat_map (tab_hosts URL_new) (group_metas tabs g)) = l ->
            (forall t, In t (flat_map (tab_tokens URL_new) (group_metas tabs g)) ->
                       is_meaningful t = false)
            /\ exists rest,
                 flat_map (tab_hosts URL_new) (group_metas tabs g) = "www."%string :: rest).
  { intros l -> Hl.
    apply labelFromTokens_empty in Hl. destruct Hl as (Hno & h & rest & Eh & Hh).
    split; [exact Hno|]. exists rest. rewrite Eh.
    pose proof (group_hosts_nonempty (group_metas tabs g)) as Hne.
    rewrite Eh in Hne. inversion Hne as [|? ? Hh0 _]; subst.
    destruct Hh as [->| ->]; [contradiction | reflexivity]. }
  unfold ensureOne.
  destruct (String.eqb (g_label g) "") eqn:El;
    destruct (String.eqb (g_summary g) "") eqn:Es;
    cbn [orb g_id g_label g_summary g_tabIds g_centroid g_size g_lastUpdated].
  - apply String.eqb_eq in El. apply String.eqb_eq in Es.
    do 8 (split; [first [reflexivity | intros; congruence
                           | apply summarizeGroup_nonempty]|]).
    intros Hl. split; [exact El|]. now apply (Hstay _ eq_refl).
  - apply String.eqb_eq in El. apply String.eqb_neq in Es.
    do 8 (split; [first [reflexivity | intros; congruence | exact Es]|]).
    intros Hl. split; [exact El|]. now apply (Hstay _ eq_refl).
  - apply String.eqb_neq in El. apply String.eqb_eq in Es.
    do 8 (split; [first [reflexivity | intros; congruence
                           | apply summarizeGroup_nonempty]|]).
    intros Hl. contradiction.
  - apply String.eqb_neq in El. apply String.eqb_neq in Es.
    do 8 (split; [first [reflexivity | intros; congruence | exact Es]|]).
    intros Hl. contradiction.
Qed.

Lemma ensureOne_idempotent (tabs : list (Z * TabMeta)) (g : Group F) :
  ensureOne URL_new tabs (ensureOne URL_new tabs g) = ensureOne URL_new tabs g.
Proof.
  destruct (ensureOne_effect tabs g) as (_ & Hids & _ & _ & _ & _ & _ & Hs & _).
  cbv zeta in Hids, Hs.
  unfold ensureOne at 1.
  assert (Hm : group_metas tabs (ensureOne URL_new tabs g) = group_metas tabs g).
  { unfold group_metas. now rewrite Hids. }
  rewrite Hm.
  apply String.eqb_neq in Hs. rewrite Hs, orb_false_r.
  destruct (String.eqb (g_label (ensureOne URL_new tabs g)) "") eqn:El; [|reflexivity].
  apply String.eqb_eq in El.
  assert (Hl : labelFromTokens
                 (flat_map (tab_tokens URL_new) (group_metas tabs g))
                 (flat_map (tab_hosts URL_new) (group_metas tabs g))
               = g_label (ensureOne URL_new tabs g)).
  { rewrite El. revert El. unfold ensureOne.
    destruct (String.eqb (g_label g) "") eqn:E0; cbn [orb].
    - cbn [g_label]. now intros ->.
    - destruct (String.eqb (g_summary g) ""); cbn [g_label]; rewrite ?E0;
        intros E1; rewrite E1 in E0; discriminate. }
  rewrite Hl. now destruct (ensureOne URL_new tabs g).
Qed.

(** X23: [ensureHeuristicLabelsAndSummaries] fills in what is missing and
    touches nothing else: ids, members, centroids and statistics of the
    groups are kept, a label or a summary that is not empty is kept, and
    afterwards every summary is filled.  A label can stay empty, in one
    case only: the titles and paths of the group's tabs give no token of
    three characters or more and the host of the first of its tabs that
    has one is ["www."].  A second pass changes nothing. *)
Theorem ensureHeuristicLabelsAndSummaries_fills :
  forall (tabs : list (Z * TabMeta)) (gs : list (Group F)),
    let gs' := ensureHeuristicLabelsAndSummaries URL_new tabs gs in
    Forall2 (fun g g' : Group F =>
               g_id g' = g_id g /\ g_tabIds g' = g_tabIds g
               /\ g_centroid g' = g_centroid g
               /\ g_size g' = g_size g /\ g_lastUpdated g' = g_lastUpdated g
               /\ (g_label g <> ""%string -> g_label g' = g_label g)
               /\ (g_summary g <> ""%string -> g_summary g' = g_summary g)
               /\ g_summary g' <> ""%string
               /\ (g_label g' = ""%string ->
                   g_label g = ""%string
                   /\ (forall t,
                         In t (flat_map (tab_tokens URL_new) (group_metas tabs g)) ->
                         is_meaningful t = false)
                   /\ exists rest,
                        flat_map (tab_hosts URL_new) (group_metas tabs g)
                        = "www."%string :: rest))
            gs gs'
    /\ ensureHeuristicLabelsAndSummaries URL_new tabs gs' = gs'.
Proof.
  intros tabs gs. cbv zeta. unfold ensureHeuristicLabelsAndSummaries. split.
  - induction gs as [|g gs IH]; simpl; constructor; [|exact IH].
    apply ensureOne_effect.
  - rewrite map_map. apply map_ext. intros g. apply ensureOne_idempotent.
Qed.
Lemma mset_absent {K V : Type} (eqb : K -> K -> bool) (m : list (K * V)) k v :
  mget eqb m k = None -> mset eqb m k v = m ++ [(k, v)].
Proof.
  induction m as [|[k' v'] m IH]; simpl; [reflexivity|].
  destruct (eqb k' k); [discriminate|]. intros H. now rewrite IH.
Qed.

Lemma fromEntries_unique (entries : list (Z * string)) :
  NoDup (mkeys entries) -> fromEntries entries = entries.
Proof.
  unfold fromEntries.
  assert (H : forall acc : list (Z * string),
            NoDup (mkeys (acc ++ entries)) ->
            fold_left (fun o kv => mset Z.eqb o (fst kv) (snd kv)) entries acc
            = acc ++ entries).
  { induction entries as [|[k v] entries IH]; intros acc Hnd; simpl.
    - now rewrite app_nil_r.
    - rewrite mset_absent.
      + rewrite IH; rewrite <- app_assoc; [reflexivity | exact Hnd].
      + apply (mget_None_keys _ Zeqb_eq). unfold mkeys in *.
        rewrite map_app in Hnd. simpl in Hnd.
        apply NoDup_remove_2 in Hnd. intros Hin. apply Hnd.
        apply in_or_app. now left. }
  intros Hnd. now apply (H []).
Qed.

Lemma record_loop_other (metas : list TabMeta) : forall (m0 : list (Z * TabMeta)) id,
  ~ In id (map tm_id metas) ->
  mget Z.eqb (fold_left (fun m meta => mset Z.eqb m (tm_id meta) meta) metas m0) id
  = mget Z.eqb m0 id.
Proof.
  induction metas as [|x metas IH]; intros m0 id Hout; simpl; [reflexivity|].
  rewrite IH by (intros H; apply Hout; now right).
  apply (mget_mset_other _ Zeqb_eq). intros E. apply Hout. now left.
Qed.

Lemma record_loop_same (metas : list TabMeta) : forall (m0 : list (Z * TabMeta)) id,
  In id (map tm_id metas) ->
  exists meta, In meta metas /\ tm_id meta = id
    /\ mget Z.eqb (fold_left (fun m meta => mset Z.eqb m (tm_id meta) meta) metas m0) id
       = Some meta.
Proof.
  induction metas as [|x metas IH]; intros m0 id Hin; simpl; [destruct Hin|].
  destruct (in_dec Z.eq_dec id (map tm_id metas)) as [Hlater|Hlast].
  - destruct (IH (mset Z.eqb m0 (tm_id x) x) id Hlater) as (meta & H1 & H2 & H3).
    exists meta. auto.
  - destruct Hin as [E|Hin]; [|contradiction].
    exists x. split; [now left|]. split; [exact E|].
    rewrite record_loop_other by assumption. rewrite E.
    apply (mget_mset_same _ Zeqb_eq).
Qed.

Lemma record_loop_wf (ts : list BrowserTab) : forall m0 : list (Z * TabMeta),
  tabs_wf URL_new m0 ->
  tabs_wf URL_new
          (fold_left (fun m meta => mset Z.eqb m (tm_id meta) meta)
                     (map (meta_of URL_new) ts) m0).
Proof.
  induction ts as [|t ts IH]; intros m0 Hwf; simpl; [assumption|].
  apply IH. destruct Hwf as [Hnd Hall]. split.
  - now apply (mset_unique_keys _ Zeqb_eq).
  - intros k m Hin. apply (mset_In _ _ _ _ _ Zeqb_eq) in Hin.
    destruct Hin as [[= -> ->]|Hin]; [simpl; auto | now apply Hall].
Qed.

(** X24: One run of [recluster].  Every reported tab gets the record built
    from a report of it, and no record is ever dropped: those of tabs
    that are not reported stay.  The published groups hold reported
    tabs only, none is empty, each has a summary, and each is either a
    previous group, whose id it keeps and whose label and summary it
    keeps when they were filled, or a new group with a generated id.
    The published assignments send every reported tab to a published
    group that holds it and hold nothing else; caches and content-script
    marks are not touched. *)
Theorem recluster_publishes :
  forall (Data : Type) (now : Z) (rnd : nat -> string)
         (allTabs : list BrowserTab) (st : SW F Data),
    let st' := recluster URL_new Data now rnd allTabs st in
    let ids := map bt_id allTabs in
    (forall id, In id ids ->
       exists t, In t allTabs /\ bt_id t = id
                 /\ mget Z.eqb (sw_tabs st') id = Some (meta_of URL_new t))
    /\ (forall id, ~ In id ids -> mget Z.eqb (sw_tabs st') id = mget Z.eqb (sw_tabs st) id)
    /\ (tabs_wf URL_new (sw_tabs st) -> tabs_wf URL_new (sw_tabs st'))
    /\ Forall (fun g : Group F =>
                 g_tabIds g <> []
                 /\ (forall id, In id (g_tabIds g) -> In id ids)
                 /\ g_summary g <> ""%string
                 /\ ((exists s, In s (sw_groups st) /\ g_id g = g_id s
                        /\ (g_label s <> ""%string -> g_label g = g_label s)
                        /\ (g_summary s <> ""%string -> g_summary g = g_summary s))
                     \/ exists tokens i, g_id g = groupIdFrom tokens (rnd i)))
              (sw_groups st')
    /\ (forall id, In id ids ->
          exists g, In g (sw_groups st') /\ In id (g_tabIds g)
                    /\ mget Z.eqb (sw_assignments st') id = Some (g_id g))
    /\ (forall id, ~ In id ids -> mget Z.eqb (sw_assignments st') id = None)
    /\ sw_extractions st' = sw_extractions st
    /\ sw_contentScriptTabs st' = sw_contentScriptTabs st.
Proof.
  intros Data now rnd allTabs st. cbv zeta. unfold recluster, recompute.
  cbn [sw_tabs sw_groups sw_assignments sw_extractions sw_contentScriptTabs].
  set (metas := map (meta_of URL_new) allTabs).
  set (batch := map tab_of_meta metas).
  set (tabs' := fold_left (fun m meta => mset Z.eqb m (tm_id meta) meta) metas (sw_tabs st)).
  set (c := clusterTabs URL_new now rnd batch (sw_groups st) DEFAULT_SIM_THRESHOLD).
  assert (Hids : map tm_id metas = map bt_id allTabs).
  { unfold metas. rewrite map_map. reflexivity. }
  assert (Hbatch : map tab_id batch = map bt_id allTabs).
  { unfold batch, metas. rewrite !map_map. reflexivity. }
  destruct (runLoop_invariants URL_new DEFAULT_SIM_THRESHOLD now rnd batch
                               (sw_groups st) batch) as (Hperm & Htab & _).
  cbv zeta in Hperm, Htab.
  assert (Hkeys : NoDup (mkeys (assignments c))).
  { unfold c, clusterTabs, runLoop. simpl. apply loop_keys_unique. constructor. }
  rewrite (fromEntries_unique _ Hkeys).
  split.
  { intros id Hid. rewrite <- Hids in Hid.
    destruct (record_loop_same metas (sw_tabs st) id Hid) as (meta & Hm & Hmid & Hget).
    unfold metas in Hm. apply in_map_iff in Hm. destruct Hm as (t & <- & Ht).
    exists t. split; [exact Ht|]. split; [exact Hmid | exact Hget]. }
  split.
  { intros id Hid. apply record_loop_other. now rewrite Hids. }
  split; [apply record_loop_wf|].
  split.
  { apply Forall_forall. intros g' Hg'.
    unfold ensureHeuristicLabelsAndSummaries in Hg'. apply in_map_iff in Hg'.
    destruct Hg' as (g & <- & Hg).
    destruct (ensureOne_effect tabs' g)
      as (Eid & Etabs & _ & _ & _ & Hlabel & Hsummary & Hfilled & _).
    cbv zeta in Eid, Etabs, Hlabel, Hsummary, Hfilled.
    rewrite Etabs, Eid.
    split; [apply clusterTabs_groups_In in Hg; tauto|].
    split.
    { intros id Hid. rewrite <- Hbatch.
      apply (Permutation_in _ (clusterTabs_held URL_new now rnd batch (sw_groups st)
                                                DEFAULT_SIM_THRESHOLD)).
      apply In_held. now exists g. }
    split; [exact Hfilled|].
    assert (Hfrom : Forall (from_seed_or_new (sw_groups st) rnd) (groups c)).
    { apply clusterTabs_Forall.
      - intros id i. right. simpl. repeat split. eexists _, i. reflexivity.
      - intros id g0 [(s & Hs & Hid & Hl & Hsum)|(Hl & Hsum & tokens & i & Hid)].
        + left. exists s. simpl. auto.
        + right. simpl. repeat split; auto. now exists tokens, i.
      - apply Forall_forall. intros g0 Hg0. apply in_map_iff in Hg0.
        destruct Hg0 as (s & <- & Hs). left. exists s. simpl. auto. }
    rewrite Forall_forall in Hfrom.
    destruct (Hfrom g Hg) as [(s & Hs & Hid & Hl & Hsum)|(_ & _ & tokens & i & Hid)].
    - left. exists s. split; [exact Hs|]. split; [exact Hid|]. split.
      + intros Hne. rewrite <- Hl in Hne. rewrite (Hlabel Hne). exact Hl.
      + intros Hne. rewrite <- Hsum in Hne. rewrite (Hsummary Hne). exact Hsum.
    - right. now exists tokens, i. }
  split.
  { intros id Hid. rewrite <- Hbatch in Hid.
    apply (Permutation_in _ (Permutation_sym Hperm)) in Hid.
    destruct (Htab _ Hid) as (g & Hg & Hin & Hget).
    exists (ensureOne URL_new tabs' g).
    destruct (ensureOne_effect tabs' g) as (Eid & Etabs & _).
    cbv zeta in Eid, Etabs. rewrite Eid, Etabs.
    split; [|split; [exact Hin | exact Hget]].
    unfold ensureHeuristicLabelsAndSummaries. apply in_map.
    apply clusterTabs_groups_In. split; [exact Hg|].
    intros E. rewrite E in Hin. destruct Hin. }
  split; [|split; reflexivity].
  intros id Hout. apply (mget_None_keys _ Zeqb_eq). intros Hin. apply Hout.
  rewrite <- Hbatch. unfold c, clusterTabs, runLoop in Hin. simpl in Hin.
  apply loop_keys in Hin. destruct Hin as [[]|Hin]. exact Hin.
Qed.
End Pipeline.

(** The case in which a label stays empty does occur: the only tab of
    the group has a title without a token of three characters and the
    host ["www."]; the summary is filled. *)
Remark label_stays_empty_remark :
  ensureHeuristicLabelsAndSummaries www_urls [(1%Z, www_tab)] [unlabelled_group]
  = [{| g_id := "group-k3x9ab"; g_label := "";
        g_summary := ("1 tab" ++ HOSTS_SEP ++ "www.")%string;
        g_tabIds := [1%Z]; g_centroid := [];
        g_size := 1; g_lastUpdated := 0 |}].
Proof. vm_compute. reflexivity. Qed.


(* ================================================================== *)
(** * Toggling and the heuristic regrouping *)

Section RegroupFacts.
Context {F : Type} {num : Number F}.
Variable URL_new : string -> option Url.

Lemma insert_by_members_front (g : Group F) (l : list (Group F)) :
  (forall h, In h l -> List.length (g_tabIds h) <= List.length (g_tabIds g)) ->
  insert_by_members g l = g :: l.
Proof.
  destruct l as [|h rest]; simpl; [reflexivity|].
  intros H. specialize (H h (or_introl eq_refl)).
  destruct (Nat.ltb_spec (List.length (g_tabIds g)) (List.length (g_tabIds h)));
    [lia | reflexivity].
Qed.

(** A list that is already in descending order of members is left as it
    is by the sort. *)
Lemma sort_by_members_desc_sorted (l : list (Group F)) :
  sizes_descending l -> sizes_count l -> sort_by_members_desc l = l.
Proof.
  induction l as [|g l IH]; simpl; [reflexivity|].
  intros [Hg Hl] Hc. inversion Hc as [|? ? Hcg Hcl]; subst.
  rewrite IH by assumption. apply insert_by_members_front.
  intros h Hh. unfold sizes_count in Hcl. rewrite Forall_forall in Hcl.
  rewrite <- Hcg, <- (Hcl h Hh). now apply Hg.
Qed.

Lemma filter_all {A : Type} (p : A -> bool) (l : list A) :
  (forall x, In x l -> p x = true) -> filter p l = l.
Proof.
  induction l as [|x l IH]; simpl; [reflexivity|].
  intros H. rewrite (H x) by now left. rewrite IH; [reflexivity|].
  intros y Hy. apply H. now right.
Qed.

Lemma clusterTabs_filter_sort_noop now rnd tabs (prev : list (Group F)) threshold :
  sort_by_members_desc
    (filter (fun g => (0 <? List.length (g_tabIds g))%nat)
            (groups (clusterTabs URL_new now rnd tabs prev threshold)))
  = groups (clusterTabs URL_new now rnd tabs prev threshold).
Proof.
  rewrite filter_all.
  - apply sort_by_members_desc_sorted.
    + unfold clusterTabs. simpl. apply sort_by_size_desc_sorted.
    + apply clusterTabs_sizes_count.
  - intros g Hg. apply clusterTabs_groups_In in Hg. destruct Hg as [_ Hne].
    destruct (g_tabIds g); [contradiction | reflexivity].
Qed.

Lemma clusterTabs_groups_nonempty now rnd tabs (prev : list (Group F)) threshold :
  tabs <> [] -> groups (clusterTabs URL_new now rnd tabs prev threshold) <> [].
Proof.
  intros Hne E.
  pose proof (clusterTabs_held URL_new now rnd tabs prev threshold) as Hperm.
  rewrite E in Hperm. simpl in Hperm. apply Permutation_nil in Hperm.
  destruct tabs; [contradiction | discriminate].
Qed.

Lemma keyed_loop_keys {A : Type} (key : A -> Z) (xs : list A) :
  forall (m0 : list (Z * A)) id,
    In id (mkeys (fold_left (fun m x => mset Z.eqb m (key x) x) xs m0))
    <-> In id (mkeys m0) \/ In id (map key xs).
Proof.
  induction xs as [|x xs IH]; intros m0 id; simpl; [tauto|].
  rewrite IH, mkeys_mset.
  destruct (mhas Z.eqb m0 (key x)) eqn:E.
  - apply (mhas_keys _ Zeqb_eq) in E. split; [tauto|].
    intros [H|[<-|H]]; auto.
  - rewrite in_app_iff. simpl. tauto.
Qed.

Lemma buildLabelAndColor_ok (cluster : Group F) metaMap index :
  let lc := buildLabelAndColor cluster metaMap index in
  is_blank (fst lc) = false
  /\ snd lc = pickGroupColor (fst lc) index
  /\ In (snd lc) GROUP_COLORS.
Proof.
  cbv zeta. unfold buildLabelAndColor. cbv zeta. cbn [fst snd].
  match goal with
  | |- context [labelFromTokens ?t ?h] => generalize (labelFromTokens t h)
  end.
  intros label0. split; [|split; [reflexivity|]].
  - destruct (String.eqb label0 "") eqn:E0; cbn [orb].
    + reflexivity.
    + destruct (is_blank label0) eqn:Eb; [reflexivity | exact Eb].
  - eapply nth_error_In. apply pickGroupColor_nth.
Qed.

(** X25: The heuristic path of [regroupTabsByIntent] refuses fewer than two
    candidate tabs and nothing else: the refusal for an empty cluster
    list cannot happen, and its filter and sort leave the clusters of
    [clusterTabs] as they are.  It asks for the first [maxGroups]
    clusters in order, with all their tabs, so for at least one group
    and at most [maxGroups]; every title has a character that is not
    white space, every colour is the palette's colour for the title and
    the position; with pairwise distinct tab ids no tab is asked for
    twice. *)
Theorem regroupHeuristic_requests :
  forall (maxGroups : option nat) (now : Z) (rnd : nat -> string)
         (candidateTabs : list BrowserTab),
    let run := regroupHeuristic URL_new maxGroups now rnd candidateTabs in
    let c := clusterTabs URL_new now rnd
                         (map tab_of_regroup (map (regroup_meta URL_new) candidateTabs))
                         [] DEFAULT_SIM_THRESHOLD in
    (run = inl need_two_tabs <-> List.length candidateTabs <= 1)
    /\ run <> inl no_meaningful_clusters
    /\ forall reqs, run = inr reqs ->
         map gr_tabIds reqs
         = firstn (regroup_maxGroups maxGroups) (membership (groups c))
         /\ 1 <= List.length reqs <= regroup_maxGroups maxGroups
         /\ (forall i r, nth_error reqs i = Some r ->
               is_blank (gr_title r) = false
               /\ gr_color r = pickGroupColor (gr_title r) i
               /\ In (gr_color r) GROUP_COLORS
               /\ gr_tabIds r <> []
               /\ forall id, In id (gr_tabIds r) -> In id (map bt_id candidateTabs))
         /\ (NoDup (map bt_id candidateTabs) -> NoDup (flat_map gr_tabIds reqs)).
Proof.
  intros maxGroups now rnd candidateTabs. cbv zeta.
  set (tabMetas := map (regroup_meta URL_new) candidateTabs).
  set (batch := map tab_of_regroup tabMetas).
  set (c := clusterTabs URL_new now rnd batch [] DEFAULT_SIM_THRESHOLD).
  set (metaMap := fold_left (fun m meta => mset Z.eqb m (rm_id meta) meta) tabMetas []).
  set (limit := Nat.min (List.length (groups c)) (regroup_maxGroups maxGroups)).
  set (request := fun ic : nat * Group F =>
         let tabIds := filter (fun id => mhas Z.eqb metaMap id) (g_tabIds (snd ic)) in
         match tabIds with
         | [] => []
         | _ :: _ =>
             let lc := buildLabelAndColor (snd ic) metaMap (fst ic) in
             [{| gr_tabIds := tabIds; gr_title := fst lc; gr_color := snd lc |}]
         end).
  assert (Hbatch : map tab_id batch = map bt_id candidateTabs).
  { unfold batch, tabMetas. rewrite !map_map. apply map_ext. intros t.
    unfold regroup_meta. now destruct (urlFromString URL_new (bt_url t)). }
  assert (Hkeys : map rm_id tabMetas = map bt_id candidateTabs).
  { unfold tabMetas. rewrite map_map. apply map_ext. intros t.
    unfold regroup_meta. now destruct (urlFromString URL_new (bt_url t)). }
  assert (Hrun : regroupHeuristic URL_new maxGroups now rnd candidateTabs
                 = if (List.length candidateTabs <=? 1)%nat then inl need_two_tabs
                   else inr (flat_map request
                               (combine (seq 0 (List.length (firstn limit (groups c))))
                                        (firstn limit (groups c))))).
  { unfold regroupHeuristic.
    destruct (Nat.leb_spec (List.length candidateTabs) 1) as [Hle|Hgt]; [reflexivity|].
    cbv zeta. fold tabMetas. fold batch.
    rewrite (clusterTabs_filter_sort_noop now rnd batch [] DEFAULT_SIM_THRESHOLD).
    fold c. fold metaMap. fold limit. fold request.
    assert (Hne : groups c <> []).
    { apply clusterTabs_groups_nonempty. unfold batch, tabMetas.
      destruct candidateTabs; [simpl in Hgt; lia | discriminate]. }
    destruct (groups c) as [|g gs] eqn:Eg; [contradiction|]. reflexivity. }
  assert (Hheld : Permutation (held (groups c)) (map bt_id candidateTabs)).
  { rewrite <- Hbatch. apply clusterTabs_held. }
  assert (Hreq : forall i g, In g (groups c) ->
            request (i, g)
            = [{| gr_tabIds := g_tabIds g;
                  gr_title := fst (buildLabelAndColor g metaMap i);
                  gr_color := snd (buildLabelAndColor g metaMap i) |}]).
  { intros i g Hg. unfold request. cbn [fst snd]. cbv zeta.
    rewrite filter_all.
    - apply clusterTabs_groups_In in Hg. destruct Hg as [_ Hne].
      destruct (g_tabIds g); [contradiction | reflexivity].
    - intros id Hid. apply (mhas_keys _ Zeqb_eq). unfold metaMap.
      apply keyed_loop_keys. right. rewrite Hkeys.
      apply (Permutation_in _ Hheld). apply In_held. now exists g. }
  assert (Hall : forall (l : list (Group F)) s,
            (forall g, In g l -> In g (groups c)) ->
            map gr_tabIds (flat_map request (combine (seq s (List.length l)) l))
            = membership l
            /\ forall i r,
                 nth_error (flat_map request (combine (seq s (List.length l)) l)) i
                 = Some r ->
                 exists g, In g l
                           /\ r = {| gr_tabIds := g_tabIds g;
                                     gr_title := fst (buildLabelAndColor g metaMap (s + i));
                                     gr_color := snd (buildLabelAndColor g metaMap (s + i)) |}).
  { induction l as [|g l IH]; intros s Hl.
    - simpl. split; [reflexivity|]. intros [|i] r H; discriminate.
    - cbn [List.length seq combine flat_map].
      rewrite (Hreq s g) by (apply Hl; now left).
      destruct (IH (S s)) as [IH1 IH2]; [intros h Hh; apply Hl; now right|].
      split.
      + cbn [app map membership gr_tabIds]. f_equal. exact IH1.
      + intros [|i] r Hr.
        * cbn in Hr. injection Hr as <-. exists g. rewrite Nat.add_0_r.
          split; [now left | reflexivity].
        * cbn in Hr. destruct (IH2 i r Hr) as (h & Hh & ->).
          exists h. replace (s + S i) with (S s + i) by lia.
          split; [now right | reflexivity]. }
  split.
  { rewrite Hrun. destruct (Nat.leb_spec (List.length candidateTabs) 1) as [Hle|Hgt].
    - tauto.
    - split; [discriminate | lia]. }
  split.
  { rewrite Hrun. destruct (List.length candidateTabs <=? 1)%nat; discriminate. }
  intros reqs Hreqs. rewrite Hrun in Hreqs.
  destruct (Nat.leb_spec (List.length candidateTabs) 1) as [Hle|Hgt]; [discriminate|].
  assert (E : flat_map request
                       (combine (seq 0 (List.length (firstn limit (groups c))))
                                (firstn limit (groups c))) = reqs) by congruence.
  clear Hreqs. subst reqs.
  destruct (Hall (firstn limit (groups c)) 0) as [Hmem Hnth].
  { intros g Hg. eapply In_firstn. exact Hg. }
  assert (Hfirst : firstn limit (groups c)
                   = firstn (regroup_maxGroups maxGroups) (groups c)).
  { unfold limit.
    destruct (Nat.le_ge_cases (List.length (groups c)) (regroup_maxGroups maxGroups))
      as [Hsmall|Hbig].
    - rewrite Nat.min_l by assumption. rewrite !firstn_all2; auto.
    - now rewrite Nat.min_r by assumption. }
  assert (Hne : groups c <> []).
  { apply clusterTabs_groups_nonempty. unfold batch, tabMetas.
    destruct candidateTabs; [simpl in Hgt; lia | discriminate]. }
  assert (Hmax : 1 <= regroup_maxGroups maxGroups).
  { unfold regroup_maxGroups. lia. }
  split.
  { rewrite Hmem, Hfirst. unfold membership. now rewrite firstn_map. }
  split.
  { rewrite <- (length_map gr_tabIds), Hmem. unfold membership.
    rewrite length_map, length_firstn. unfold limit.
    destruct (groups c); [contradiction|]. cbn [List.length]. lia. }
  split.
  { intros i r Hr. destruct (Hnth i r Hr) as (g & Hg & ->). cbn [gr_title gr_color gr_tabIds].
    apply In_firstn in Hg.
    destruct (buildLabelAndColor_ok g metaMap i) as (H1 & H2 & H3).
    cbv zeta in H1, H2, H3. cbn [Nat.add].
    split; [exact H1|]. split; [exact H2|]. split; [exact H3|].
    split; [apply clusterTabs_groups_In in Hg; tauto|].
    intros id Hid. apply (Permutation_in _ Hheld). apply In_held. now exists g. }
  intros Hnd.
  assert (Hflat : forall rs : list GroupRequest,
            flat_map gr_tabIds rs = List.concat (map gr_tabIds rs)).
  { intros rs. now rewrite flat_map_concat_map. }
  rewrite Hflat, Hmem. unfold membership. rewrite <- flat_map_concat_map.
  assert (Hnd' : NoDup (held (groups c))).
  { apply (Permutation_NoDup (Permutation_sym Hheld)). exact Hnd. }
  unfold held in Hnd'.
  rewrite <- (firstn_skipn limit (groups c)), flat_map_app in Hnd'.
  now apply NoDup_app_remove_r in Hnd'.
Qed.

(** X26: After a run of [recluster] there are active groups exactly when
    some tab was reported, so a toggle without an explicit mode then
    ungroups exactly when a tab is open; an explicit ["group"] or
    ["ungroup"], in any letter case, is obeyed whatever the state. *)
Theorem toggle_after_recluster :
  forall (Data : Type) (now : Z) (rnd : nat -> string)
         (allTabs : list BrowserTab) (st : SW F Data) (mode : option string),
    let st' := recluster URL_new Data now rnd allTabs st in
    (hasActiveGroups (sw_groups st') = true <-> allTabs <> [])
    /\ (mode = None ->
        targetMode mode (hasActiveGroups (sw_groups st'))
        = if hasActiveGroups (sw_groups st') then "ungroup"%string else "group"%string)
    /\ (forall m, mode = Some m ->
          (toLowerCase m = "group"%string \/ toLowerCase m = "ungroup"%string) ->
          forall groupsExist, targetMode mode groupsExist = toLowerCase m)
    /\ (forall groupsExist,
          targetMode mode groupsExist = "group"%string
          \/ targetMode mode groupsExist = "ungroup"%string).
Proof.
  intros Data now rnd allTabs st mode. cbv zeta. split; [|split; [|split]].
  - unfold recluster, recompute. cbn [sw_groups].
    set (metas := map (meta_of URL_new) allTabs).
    set (batch := map tab_of_meta metas).
    set (tabs' := fold_left (fun m meta => mset Z.eqb m (tm_id meta) meta) metas
                            (sw_tabs st)).
    set (c := clusterTabs URL_new now rnd batch (sw_groups st) DEFAULT_SIM_THRESHOLD).
    assert (Hheld : Permutation (held (groups c)) (map tab_id batch))
      by apply clusterTabs_held.
    unfold hasActiveGroups, ensureHeuristicLabelsAndSummaries.
    rewrite existsb_exists. split.
    + intros (g' & Hg' & Hlen) ->. apply in_map_iff in Hg'.
      destruct Hg' as (g & <- & Hg).
      destruct (ensureOne_effect URL_new tabs' g) as (_ & Etabs & _).
      cbv zeta in Etabs. rewrite Etabs in Hlen.
      destruct (g_tabIds g) as [|id ids] eqn:E; [discriminate|].
      assert (Hin : In id (held (groups c))).
      { apply In_held. exists g. split; [exact Hg|]. rewrite E. now left. }
      apply (Permutation_in _ Hheld) in Hin. destruct Hin.
    + intros Hne. destruct allTabs as [|t ts]; [contradiction|].
      assert (Hin : In (bt_id t) (held (groups c))).
      { apply (Permutation_in _ (Permutation_sym Hheld)).
        unfold batch, metas. simpl. now left. }
      apply In_held in Hin. destruct Hin as (g & Hg & Hid).
      exists (ensureOne URL_new tabs' g). split; [now apply in_map|].
      destruct (ensureOne_effect URL_new tabs' g) as (_ & Etabs & _).
      cbv zeta in Etabs. rewrite Etabs.
      destruct (g_tabIds g); [destruct Hid | reflexivity].
  - intros ->. reflexivity.
  - intros m -> Hm groupsExist. unfold targetMode.
    destruct Hm as [-> | ->]; reflexivity.
  - intros groupsExist. unfold targetMode.
    destruct (String.eqb _ "group") eqn:E1; cbn [orb].
    + apply String.eqb_eq in E1. now left.
    + destruct (String.eqb _ "ungroup") eqn:E2.
      * apply String.eqb_eq in E2. now right.
      * destruct groupsExist; [now right | now left].
Qed.
End RegroupFacts.

(* ================================================================== *)
(** * The state across a restart *)

Section RestartStateFacts.
Context {F : Type}.
Variable URL_new : string -> option Url.
Variable Data : Type.

Lemma restore_loop_keys (ts : list TabMeta) : forall (m0 : list (Z * TabMeta)),
  NoDup (mkeys m0) ->
  (forall k m, In (k, m) m0 -> tm_id m = k) ->
  let m' := fold_left (fun m t => mset Z.eqb m (tm_id t) t) ts m0 in
  NoDup (mkeys m')
  /\ forall k m, In (k, m) m' -> tm_id m = k /\ (In (k, m) m0 \/ In m ts).
Proof.
  induction ts as [|t ts IH]; intros m0 Hnd Hown; cbv zeta; simpl.
  - split; [exact Hnd|]. intros k m Hin. split; [now apply Hown | now left].
  - destruct (IH (mset Z.eqb m0 (tm_id t) t)) as [H1 H2].
    + now apply (mset_unique_keys _ Zeqb_eq).
    + intros k m Hin. apply (mset_In _ _ _ _ _ Zeqb_eq) in Hin.
      destruct Hin as [[= -> ->]|Hin]; [reflexivity | now apply Hown].
    + split; [exact H1|]. intros k m Hin. destruct (H2 k m Hin) as [Hk Hfrom].
      split; [exact Hk|]. destruct Hfrom as [Hfrom|Hfrom]; [|right; now right].
      apply (mset_In _ _ _ _ _ Zeqb_eq) in Hfrom.
      destruct Hfrom as [[= -> ->]|Hfrom]; [right; now left | now left].
Qed.

Lemma restore_loop_same (tabs : list (Z * TabMeta)) : forall acc : list (Z * TabMeta),
  NoDup (mkeys (acc ++ tabs)) ->
  (forall k m, In (k, m) tabs -> tm_id m = k) ->
  fold_left (fun m t => mset Z.eqb m (tm_id t) t) (mvalues tabs) acc = acc ++ tabs.
Proof.
  induction tabs as [|[k m] tabs IH]; intros acc Hnd Hown; simpl.
  - now rewrite app_nil_r.
  - assert (Hk : tm_id m = k) by (apply Hown; now left).
    rewrite Hk, mset_absent.
    + unfold mvalues in IH. rewrite IH.
      * now rewrite <- app_assoc.
      * now rewrite <- app_assoc.
      * intros k' m' Hin. apply Hown. now right.
    + apply (mget_None_keys _ Zeqb_eq). unfold mkeys in *.
      rewrite map_app in Hnd. simpl in Hnd.
      apply NoDup_remove_2 in Hnd. intros Hin. apply Hnd.
      apply in_or_app. now left.
Qed.

(** X27: [loadState] after [persistState]: a well-formed tab table comes back
    as it was, entry by entry and in order; whatever was stored, the
    restored table has unique keys and holds each record under its own
    id; the assignments come back as they were; every group comes back
    with its id, label, summary, members and statistics and with an
    empty centroid; the extraction cache and the content-script marks
    are empty, so nothing cached before the restart is served after it.
    With nothing stored [loadState] leaves the state alone. *)
Theorem loadState_after_persistState :
  forall (now : Z) (st st0 : SW F Data),
    let st' := loadState Data now (Some (persistState Data st)) st0 in
    (tabs_wf URL_new (sw_tabs st) -> sw_tabs st' = sw_tabs st)
    /\ NoDup (mkeys (sw_tabs st'))
    /\ (forall k m, In (k, m) (sw_tabs st') ->
          tm_id m = k /\ In m (mvalues (sw_tabs st)))
    /\ sw_assignments st' = sw_assignments st
    /\ Forall2 (fun g r : Group F =>
                  g_id r = g_id g /\ g_label r = g_label g
                  /\ g_summary r = g_summary g /\ g_tabIds r = g_tabIds g
                  /\ g_size r = g_size g /\ g_lastUpdated r = g_lastUpdated g
                  /\ g_centroid r = [])
               (sw_groups st) (sw_groups st')
    /\ (forall later tabId url,
          fst (getCachedExtraction Data later (sw_extractions st') tabId url) = None)
    /\ sw_contentScriptTabs st' = []
    /\ loadState Data now None st0 = st0.
Proof.
  intros now st st0. cbv zeta. unfold loadState, persistState.
  cbn [sw_tabs sw_groups sw_assignments sw_extractions sw_contentScriptTabs
       stored_tabs stored_groups stored_assignments].
  split.
  { intros [Hnd Hall]. apply (restore_loop_same (sw_tabs st) []); [exact Hnd|].
    intros k m Hin. now apply Hall. }
  destruct (restore_loop_keys (mvalues (sw_tabs st)) [])
    as [Hkeys Hown]; [constructor | intros k m [] |].
  cbv zeta in Hkeys, Hown.
  split; [exact Hkeys|].
  split.
  { intros k m Hin. destruct (Hown k m Hin) as [Hk [[]|Hm]]. auto. }
  split; [reflexivity|].
  split.
  { induction (sw_groups st) as [|g gs IH]; simpl; constructor; [|exact IH].
    repeat split. }
  split; [intros later tabId url; reflexivity|].
  split; reflexivity.
Qed.
End RestartStateFacts.

(* ================================================================== *)
(** * What the assistant is given *)

Section AssistantInput.

Lemma substring_0_idem (n : nat) (s : string) :
  substring 0 n (substring 0 n s) = substring 0 n s.
Proof. apply substring_all. rewrite substring_0_length. lia. Qed.

Lemma firstn_map_idem {A : Type} (f : A -> A) (n : nat) (l : list A) :
  (forall x, f (f x) = f x) ->
  map f (firstn n (map f (firstn n l))) = map f (firstn n l).
Proof.
  intros Hf. rewrite firstn_all2 by (rewrite length_map, length_firstn; lia).
  rewrite map_map. apply map_ext. exact Hf.
Qed.

(** X28: [pruneContext] bounds what it passes on: the active group's label
    has at most 80 characters, its summary at most 280, there are at
    most 8 titles of at most 100 characters each; at most 4 other groups
    are kept, with labels of at most 80 and summaries of at most 200
    characters.  Everything kept is a prefix of what was given, in the
    order given, and ids are passed unchanged.  Pruning what was pruned
    changes nothing. *)
Theorem pruneContext_bounds :
  forall ctx : Ctx,
    let p := pruneContext ctx in
    (match ctx_active ctx, ctx_active p with
     | Some a, Some a' =>
         ca_id a' = ca_id a
         /\ ca_label a' = substring 0 80 (ca_label a)
         /\ String.length (ca_label a') <= 80
         /\ String.length (ca_summary a') <= 280
         /\ List.length (ca_tabTitles a') <= 8
         /\ Forall2 (fun t t' => t' = substring 0 100 t /\ String.length t' <= 100)
                    (firstn 8 (ca_tabTitles a)) (ca_tabTitles a')
     | None, None => True
     | _, _ => False
     end)
    /\ (exists others', ctx_others p = Some others'
          /\ List.length others' <= 4
          /\ Forall2 (fun g g' =>
                        co_id g' = co_id g
                        /\ co_label g' = substring 0 80 (co_label g)
                        /\ co_summary g' = substring 0 200 (co_summary g)
                        /\ String.length (co_label g') <= 80
                        /\ String.length (co_summary g') <= 200)
                     (firstn 4 (match ctx_others ctx with Some l => l | None => [] end))
                     others')
    /\ pruneContext p = p.
Proof.
  intros ctx. cbv zeta. unfold pruneContext at 1 2 3. cbn [ctx_active ctx_others].
  split; [|split].
  - destruct (ctx_active ctx) as [a|]; [|exact I]. cbn [ca_id ca_label ca_summary ca_tabTitles].
    split; [reflexivity|]. split; [reflexivity|].
    split; [rewrite substring_0_length; lia|].
    split; [rewrite substring_0_length; lia|].
    split; [rewrite length_map, length_firstn; lia|].
    induction (firstn 8 (ca_tabTitles a)) as [|t ts IH]; simpl; constructor; [|exact IH].
    split; [reflexivity | rewrite substring_0_length; lia].
  - destruct (ctx_others ctx) as [others|].
    + eexists. split; [reflexivity|].
      split; [rewrite length_map, length_firstn; lia|].
      induction (firstn 4 others) as [|g gs IH]; simpl; constructor; [|exact IH].
      cbn [co_id co_label co_summary].
      repeat split; rewrite substring_0_length; lia.
    + exists []. split; [reflexivity|]. split; [simpl; lia | constructor].
  - unfold pruneContext. cbn [ctx_active ctx_others]. f_equal.
    + destruct (ctx_active ctx) as [a|]; [|reflexivity].
      cbn [ca_id ca_label ca_summary ca_tabTitles].
      rewrite !substring_0_idem.
      rewrite (firstn_map_idem (substring 0 100) 8 (ca_tabTitles a)
                               (substring_0_idem 100)).
      reflexivity.
    + f_equal. destruct (ctx_others ctx) as [others|]; [|reflexivity].
      rewrite firstn_all2 by (rewrite length_map, length_firstn; lia).
      rewrite map_map. apply map_ext. intros g. cbn [co_id co_label co_summary].
      now rewrite !substring_0_idem.
Qed.

Lemma longest_run_alnum (r : string) : forall cur,
  all_chars is_alnum r = true -> longest_run r cur = cur + String.length r.
Proof.
  induction r as [|c r IH]; intros cur H; simpl in *; [lia|].
  apply andb_true_iff in H. destruct H as [Hc Hr]. rewrite Hc, IH by assumption. lia.
Qed.

Lemma longest_run_app (a : string) (c : ascii) (b : string) : forall cur,
  is_alnum c = false ->
  longest_run (a ++ String c b) cur = Nat.max (longest_run a cur) (longest_run b 0).
Proof.
  induction a as [|x a IH]; intros cur Hc; cbn [append longest_run].
  - now rewrite Hc.
  - destruct (is_alnum x).
    + now apply IH.
    + rewrite IH by assumption. lia.
Qed.

Lemma longest_run_flush (run : string) :
  all_chars is_alnum run = true -> longest_run (flush_run run) 0 < 16.
Proof.
  intros H. unfold flush_run.
  destruct (Nat.leb_spec 16 (String.length run)).
  - vm_compute. lia.
  - rewrite longest_run_alnum by assumption. lia.
Qed.

Lemma all_chars_snoc p (run : string) (c : ascii) :
  all_chars p run = true -> p c = true ->
  all_chars p (run ++ String c EmptyString) = true.
Proof. intros H1 H2. rewrite all_chars_app, H1. simpl. now rewrite H2. Qed.

Lemma redact_ids_short_runs (s : string) : forall run,
  all_chars is_alnum run = true -> longest_run (redact_ids s run) 0 < 16.
Proof.
  induction s as [|c s IH]; intros run Hrun; cbn [redact_ids].
  - now apply longest_run_flush.
  - destruct (is_alnum c) eqn:Ec.
    + apply IH. now apply all_chars_snoc.
    + rewrite longest_run_app by assumption.
      pose proof (longest_run_flush run Hrun). pose proof (IH EmptyString eq_refl). lia.
Qed.

Lemma redact_ids_unchanged (s : string) : forall run,
  all_chars is_alnum run = true ->
  longest_run s (String.length run) < 16 ->
  redact_ids s run = (run ++ s)%string.
Proof.
  induction s as [|c s IH]; intros run Hrun Hlen; cbn [redact_ids longest_run] in *.
  - unfold flush_run. destruct (Nat.leb_spec 16 (String.length run)); [lia|].
    now rewrite sappend_nil_r.
  - destruct (is_alnum c) eqn:Ec.
    + rewrite IH.
      * now rewrite sappend_assoc.
      * now apply all_chars_snoc.
      * rewrite length_sappend. cbn [String.length].
        replace (String.length run + 1) with (S (String.length run)) by lia. exact Hlen.
    + unfold flush_run. destruct (Nat.leb_spec 16 (String.length run)); [lia|].
      rewrite (IH EmptyString) by (simpl; auto; lia). reflexivity.
Qed.

Lemma has_terminator_kept (s : string) :
  all_chars (fun x => negb (is_line_terminator x)) s = false ->
  all_chars (fun x => negb (is_line_terminator x)) (strip_query s) = false.
Proof.
  induction s as [|c s IH]; cbn [all_chars strip_query]; [discriminate|].
  intros H. destruct (is_line_terminator c) eqn:Ec.
  - assert (Hq : Ascii.eqb c "?" = false).
    { destruct (Ascii.eqb c "?") eqn:E; [|reflexivity].
      apply Ascii.eqb_eq in E. subst c. discriminate. }
    rewrite Hq. cbn [andb all_chars]. now rewrite Ec.
  - cbn [negb andb] in H. rewrite H, andb_false_r. cbn [all_chars].
    rewrite Ec. cbn [negb andb]. now apply IH.
Qed.

Lemma strip_query_idem (s : string) : strip_query (strip_query s) = strip_query s.
Proof.
  induction s as [|c s IH]; cbn [strip_query]; [reflexivity|].
  destruct (Ascii.eqb c "?") eqn:Eq; cbn [andb].
  - destruct (all_chars (fun x => negb (is_line_terminator x)) s) eqn:El; [reflexivity|].
    cbn [strip_query]. rewrite Eq, (has_terminator_kept s El). cbn [andb].
    now rewrite IH.
  - cbn [strip_query]. rewrite Eq. cbn [andb]. now rewrite IH.
Qed.

Lemma strip_query_no_mark (s : string) :
  all_chars (fun x => negb (Ascii.eqb x "?")) s = true -> strip_query s = s.
Proof.
  induction s as [|c s IH]; cbn [all_chars strip_query]; [reflexivity|].
  intros H. apply andb_true_iff in H. destruct H as [Hc Hs].
  apply negb_true_iff in Hc. rewrite Hc. cbn [andb]. now rewrite IH.
Qed.

Lemma strip_query_app (a x : string) :
  all_chars (fun c => negb (Ascii.eqb c "?")) a = true ->
  strip_query (a ++ x) = (a ++ strip_query x)%string.
Proof.
  induction a as [|c a IH]; cbn [all_chars append strip_query]; [reflexivity|].
  intros H. apply andb_true_iff in H. destruct H as [Hc Ha].
  apply negb_true_iff in Hc. rewrite Hc. cbn [andb]. now rewrite IH.
Qed.

Lemma strip_query_single_line (s : string) :
  all_chars (fun x => negb (is_line_terminator x)) s = true ->
  all_chars (fun x => negb (Ascii.eqb x "?")) (strip_query s) = true.
Proof.
  induction s as [|c s IH]; cbn [all_chars strip_query]; [reflexivity|].
  intros H. apply andb_true_iff in H. destruct H as [Hc Hs].
  rewrite Hs. destruct (Ascii.eqb c "?") eqn:Eq; cbn [andb all_chars]; [reflexivity|].
  rewrite Eq. cbn [negb andb]. now apply IH.
Qed.

Lemma alnum_facts (c : ascii) :
  is_alnum c = true ->
  Ascii.eqb c "?" = false /\ is_line_terminator c = false.
Proof.
  unfold is_alnum, is_upper, is_lower, is_digit, in_range, is_line_terminator.
  intros H. split.
  - destruct (Ascii.eqb c "?") eqn:E; [|reflexivity].
    apply Ascii.eqb_eq in E. subst c. discriminate.
  - destruct ((nat_of_ascii c =? 10) || (nat_of_ascii c =? 13))%nat eqn:E; [|reflexivity].
    apply orb_true_iff in E. destruct E as [E|E]; apply Nat.eqb_eq in E;
      rewrite E in H; discriminate.
Qed.

Lemma alnum_all (p : ascii -> bool) (run : string) :
  (forall c, is_alnum c = true -> p c = true) ->
  all_chars is_alnum run = true -> all_chars p run = true.
Proof.
  intros Hp. induction run as [|c run IH]; simpl; [reflexivity|].
  intros H. apply andb_true_iff in H. destruct H as [Hc Hr].
  now rewrite (Hp c Hc), IH.
Qed.

Lemma flush_run_all (p : ascii -> bool) (run : string) :
  (forall c, is_alnum c = true -> p c = true) ->
  all_chars p "[id]" = true ->
  all_chars is_alnum run = true -> all_chars p (flush_run run) = true.
Proof.
  intros Hp Hid Hrun. unfold flush_run.
  destruct (16 <=? String.length run)%nat; [exact Hid | now apply alnum_all].
Qed.

Lemma redact_ids_all (p : ascii -> bool) (s : string) :
  (forall c, is_alnum c = true -> p c = true) ->
  all_chars p "[id]" = true ->
  forall run, all_chars is_alnum run = true ->
    all_chars p (redact_ids s run) = all_chars p s.
Proof.
  intros Hp Hid. induction s as [|c s IH]; intros run Hrun; cbn [redact_ids all_chars].
  - now apply flush_run_all.
  - destruct (is_alnum c) eqn:Ec.
    + rewrite IH by now apply all_chars_snoc. now rewrite (Hp c Ec).
    + rewrite all_chars_app, (flush_run_all p run Hp Hid Hrun). cbn [andb all_chars].
      now rewrite (IH EmptyString eq_refl).
Qed.

Lemma redact_ids_settled (s : string) : forall run,
  all_chars is_alnum run = true ->
  strip_query s = s ->
  strip_query (redact_ids s run) = redact_ids s run.
Proof.
  assert (Hq : forall c, is_alnum c = true -> negb (Ascii.eqb c "?") = true).
  { intros c Hc. now rewrite (proj1 (alnum_facts c Hc)). }
  assert (Hl : forall c, is_alnum c = true -> negb (is_line_terminator c) = true).
  { intros c Hc. now rewrite (proj2 (alnum_facts c Hc)). }
  induction s as [|c s IH]; intros run Hrun Hs; cbn [redact_ids].
  - apply strip_query_no_mark. now apply flush_run_all.
  - cbn [strip_query] in Hs. destruct (is_alnum c) eqn:Ec.
    + rewrite (proj1 (alnum_facts c Ec)) in Hs. cbn [andb] in Hs.
      injection Hs as Hs. apply IH; [now apply all_chars_snoc | exact Hs].
    + rewrite strip_query_app by now apply flush_run_all.
      f_equal. cbn [strip_query].
      destruct (Ascii.eqb c "?" && all_chars (fun x => negb (is_line_terminator x)) s)
        eqn:Et; [discriminate|].
      injection Hs as Hs.
      rewrite (redact_ids_all (fun x => negb (is_line_terminator x)) s Hl eq_refl
                              EmptyString eq_refl).
      rewrite Et. now rewrite (IH EmptyString eq_refl Hs).
Qed.

(** X29: [redactText] leaves no run of 16 or more letters and digits, and in
    a text of one line no question mark: the query string is gone.  A
    text without question mark and without such a run is passed
    unchanged, and redacting twice gives what redacting once gives. *)
Theorem redactText_redacts :
  forall s : string,
    longest_run (redactText s) 0 < 16
    /\ (all_chars (fun x => negb (is_line_terminator x)) s = true ->
        all_chars (fun x => negb (Ascii.eqb x "?")) (redactText s) = true)
    /\ (all_chars (fun x => negb (Ascii.eqb x "?")) s = true ->
        longest_run s 0 < 16 -> redactText s = s)
    /\ redactText (redactText s) = redactText s.
Proof.
  intros s. unfold redactText.
  assert (Hshort : longest_run (redact_ids (strip_query s) EmptyString) 0 < 16)
    by now apply redact_ids_short_runs.
  split; [exact Hshort|]. split; [|split].
  - intros Hline.
    rewrite (redact_ids_all (fun x => negb (Ascii.eqb x "?"))); try reflexivity.
    + now apply strip_query_single_line.
    + intros c Hc. now rewrite (proj1 (alnum_facts c Hc)).
  - intros Hno Hlen. rewrite (strip_query_no_mark s Hno).
    now apply (redact_ids_unchanged s EmptyString).
  - rewrite redact_ids_settled; [|reflexivity | apply strip_query_idem].
    now apply (redact_ids_unchanged _ EmptyString).
Qed.
Lemma split_path_pieces (s : string) : forall cur insep,
  all_chars (fun c => negb (is_path_sep c)) cur = true ->
  Forall (fun t => all_chars (fun c => negb (is_path_sep c)) t = true)
         (split_path s cur insep).
Proof.
  induction s as [|c s IH]; intros cur insep Hcur; cbn [split_path].
  - repeat constructor. exact Hcur.
  - destruct (is_path_sep c) eqn:Ec.
    + destruct insep; [now apply IH|].
      constructor; [exact Hcur | now apply IH].
    + apply IH. apply all_chars_snoc; [exact Hcur | now rewrite Ec].
Qed.

(** X30: [minimalTabs] passes on at most [limit] tabs, in order.  Of
    each it gives the redacted title, so no run of 16 or more letters
    and digits, and at most six path tokens, none of them empty and none
    holding a slash, a dash or an underscore; of a tab whose URL is not
    an http(s) URL it gives neither host nor path. *)
Theorem minimalTabs_minimal :
  forall (URL_new : string -> option Url) (tabs : list BrowserTab) (limit : nat),
    List.length (minimalTabs URL_new tabs limit) = Nat.min limit (List.length tabs)
    /\ Forall2 (fun t m =>
                  longest_run (mt_title m) 0 < 16
                  /\ (all_chars (fun x => negb (Ascii.eqb x "?")) (bt_title t) = true ->
                      longest_run (bt_title t) 0 < 16 -> mt_title m = bt_title t)
                  /\ List.length (mt_pathTokens m) <= 6
                  /\ Forall (fun tok => tok <> ""%string
                                        /\ all_chars (fun c => negb (is_path_sep c)) tok = true)
                            (mt_pathTokens m)
                  /\ (has_http_scheme (bt_url t) = false ->
                      mt_host m = ""%string /\ mt_pathTokens m = []))
               (firstn limit tabs) (minimalTabs URL_new tabs limit).
Proof.
  intros URL_new tabs limit. unfold minimalTabs. split.
  - now rewrite length_map, length_firstn.
  - induction (firstn limit tabs) as [|t ts IH]; simpl; constructor; [|exact IH].
    cbn [mt_title mt_host mt_pathTokens].
    split; [unfold redactText; now apply redact_ids_short_runs|].
    split.
    { intros Hno Hlen. unfold redactText. rewrite (strip_query_no_mark _ Hno).
      now apply (redact_ids_unchanged _ EmptyString). }
    assert (Hnone : urlFromString URL_new (bt_url t) = None ->
              List.length (pathTokensOf URL_new (bt_url t)) <= 6
              /\ Forall (fun tok => tok <> ""%string
                                    /\ all_chars (fun c => negb (is_path_sep c)) tok = true)
                        (pathTokensOf URL_new (bt_url t))
              /\ hostOf URL_new (bt_url t) = ""%string
              /\ pathTokensOf URL_new (bt_url t) = []).
    { intros E. unfold pathTokensOf, hostOf. rewrite E.
      split; [simpl; lia|]. split; [constructor|]. split; reflexivity. }
    destruct (urlFromString URL_new (bt_url t)) as [u|] eqn:Eu.
    + split; [|split].
      * unfold pathTokensOf. rewrite Eu, length_firstn. lia.
      * unfold pathTokensOf. rewrite Eu.
        apply Forall_forall. intros tok Htok. apply In_firstn in Htok.
        apply filter_In in Htok. destruct Htok as [Hin Hne]. split.
        -- apply negb_true_iff in Hne. now apply String.eqb_neq.
        -- pose proof (split_path_pieces (url_pathname u) EmptyString false eq_refl) as Hp.
           rewrite Forall_forall in Hp. now apply Hp.
      * intros Eh. unfold urlFromString in Eu. rewrite Eh, andb_false_r in Eu.
        discriminate.
    + destruct (Hnone eq_refl) as (H1 & H2 & H3 & H4).
      split; [exact H1|]. split; [exact H2|]. intros _. split; assumption.
Qed.
End AssistantInput.
